(** * Natural logarithm for 128-bit long double precision

    A shallow embedding of [__ieee754_logl]
    (glibc-2.31/sysdeps/ieee754/ldbl-128/e_logl.c) together with the
    binary128 arithmetic the routine is written against, and the
    properties of the routine that its specification states. *)

From Stdlib Require Import ZArith QArith Qabs Qround Qpower Lqa.
From Stdlib Require SpecFloat.
From Stdlib Require Import Lia List String Ascii Bool Morphisms.
Import ListNotations.
Open Scope Z_scope.

(** ** The 128-bit shape type

    [ieee854_long_double_shape_type] overlays a [_Float128] ([value]) with
    four 32-bit words ([parts32]); [w0] is the most significant word and
    carries the sign, the 15-bit biased exponent and the top 16 bits of the
    112-bit mantissa.  A floating-point value is represented by its four
    words, so that [u.value = x; m = u.parts32.w0] is a plain projection. *)

Record ieee854_long_double_shape_type : Set := mk_parts32
  { w0 : Z; w1 : Z; w2 : Z; w3 : Z }.

Definition float128 : Set := ieee854_long_double_shape_type.

Definition word32 (w : Z) : Prop := 0 <= w < 2 ^ 32.

(** Every object of the shape type holds four 32-bit words. *)
Definition wf (x : float128) : Prop :=
  word32 (w0 x) /\ word32 (w1 x) /\ word32 (w2 x) /\ word32 (w3 x).

Definition wfb (x : float128) : bool :=
  forallb (fun w => (0 <=? w) && (w <? 2 ^ 32)) [w0 x; w1 x; w2 x; w3 x].

(** Storing into an [unsigned int] field wraps modulo 2^32. *)
Definition u32 (n : Z) : Z := n mod 2 ^ 32.

Definition set_w0 (x : float128) (v : Z) : float128 :=
  mk_parts32 (u32 v) (w1 x) (w2 x) (w3 x).

(** ** The binary128 format *)

Definition emin : Z := -16494.   (* exponent of the last bit of a subnormal *)
Definition ebias : Z := 16495.   (* biased exponent minus exponent of the last bit *)

Definition sign_bit (x : float128) : bool := 2 ^ 31 <=? w0 x.
Definition biased_exp (x : float128) : Z := (w0 x / 2 ^ 16) mod 2 ^ 15.
Definition mantissa (x : float128) : Z :=
  (w0 x mod 2 ^ 16) * 2 ^ 96 + w1 x * 2 ^ 64 + w2 x * 2 ^ 32 + w3 x.

(** Assemble the words of sign [s], biased exponent [be] and mantissa [mant]. *)
Definition pack (s : bool) (be mant : Z) : float128 :=
  mk_parts32 ((if s then 2 ^ 31 else 0) + be * 2 ^ 16 + mant / 2 ^ 96)
             ((mant / 2 ^ 64) mod 2 ^ 32)
             ((mant / 2 ^ 32) mod 2 ^ 32)
             (mant mod 2 ^ 32).

(** The value a bit pattern stands for: NaN, a signed infinity, or the
    finite number [(-1)^s * m * 2^e] (zeros keep their sign). *)
Inductive fview : Set :=
  | V_nan
  | V_inf (s : bool)
  | V_fin (s : bool) (m : Z) (e : Z).

Definition decode (x : float128) : fview :=
  if biased_exp x =? 32767 then
    if mantissa x =? 0 then V_inf (sign_bit x) else V_nan
  else if biased_exp x =? 0 then V_fin (sign_bit x) (mantissa x) emin
  else V_fin (sign_bit x) (2 ^ 112 + mantissa x) (biased_exp x - ebias).

Definition is_nan (x : float128) : bool :=
  match decode x with V_nan => true | _ => false end.
Definition is_finite (x : float128) : bool :=
  match decode x with V_fin _ _ _ => true | _ => false end.

(** [(-1)^s * m * 2^e] as a rational. *)
Definition dyadic (s : bool) (m e : Z) : Q :=
  if m =? 0 then 0%Q else (inject_Z (if s then - m else m) * 2 ^ e)%Q.

(** The rational a finite pattern denotes (0 for NaN and infinities). *)
Definition Qval (x : float128) : Q :=
  match decode x with
  | V_fin s m e => dyadic s m e
  | _ => 0%Q
  end.

Definition zero (s : bool) : float128 := pack s 0 0.
Definition infinity (s : bool) : float128 := pack s 32767 0.
(** The NaN an invalid operation delivers: quiet, with an empty payload.
    IEEE 754 leaves its sign to the implementation; the binary128
    arithmetic of x86-64 delivers it with the sign bit set
    (0xffff8000...), as here. *)
Definition default_nan : float128 := pack true 32767 (2 ^ 111).
(** A NaN operand is propagated with its quiet bit set and its sign and
    payload kept. *)
Definition quiet (x : float128) : float128 :=
  mk_parts32 (Z.lor (w0 x) 32768) (w1 x) (w2 x) (w3 x).
(** The payload of a NaN: the mantissa without the quiet bit. *)
Definition payload (x : float128) : Z := mantissa x mod 2 ^ 111.

(** *** Rounding to nearest, ties to even *)

(** [floor (log2 q)] for a positive rational. *)
Definition Qlog2 (q : Q) : Z :=
  let k := Z.log2 (Qnum q) - Z.log2 (Zpos (Qden q)) in
  if Qle_bool (2 ^ k) q then k else k - 1.

(** The integer nearest to a non-negative rational, ties to even. *)
Definition round_half_even (q : Q) : Z :=
  let f := Qfloor q in
  match (q - inject_Z f ?= 1 # 2)%Q with
  | Lt => f
  | Gt => f + 1
  | Eq => if Z.even f then f else f + 1
  end.

(** The pattern of [(-1)^s * m * 2^e] for [0 <= m <= 2^113], where
    [m >= 2^112] unless [e = emin]; too large an exponent overflows to
    infinity, [m = 0] is a signed zero. *)
Definition encode (s : bool) (m e : Z) : float128 :=
  if m =? 0 then zero s
  else
    let '(m, e) := if 2 ^ 113 <=? m then (m / 2, e + 1) else (m, e) in
    if 2 ^ 112 <=? m then
      if 32767 <=? e + ebias then infinity s
      else pack s (e + ebias) (m - 2 ^ 112)
    else pack s 0 m.

(** Round a non-zero rational to binary128. *)
Definition RN (q : Q) : float128 :=
  let a := Qabs q in
  let e := Z.max (Qlog2 a - 112) emin in
  encode (Qnum q <? 0) (round_half_even (a / 2 ^ e)) e.

(** *** Arithmetic: the exact result, rounded

    The C operators on [_Float128] are the IEEE 754 binary128 operations
    in the default rounding mode: the exact result, rounded to nearest with
    ties to even, each operation rounded on its own (no fused
    multiply-add).  A NaN operand is propagated quieted, the first operand
    first; an invalid operation delivers [default_nan].  Exception flags
    are not modelled. *)

Definition fadd (x y : float128) : float128 :=
  match decode x, decode y with
  | V_nan, _ => quiet x
  | _, V_nan => quiet y
  | V_inf s1, V_inf s2 => if eqb s1 s2 then x else default_nan
  | V_inf _, _ => x
  | _, V_inf _ => y
  | V_fin s1 m1 e1, V_fin s2 m2 e2 =>
      let r := (dyadic s1 m1 e1 + dyadic s2 m2 e2)%Q in
      if Qeq_bool r 0 then zero (s1 && s2) else RN r
  end.

Definition fsub (x y : float128) : float128 :=
  match decode x, decode y with
  | V_nan, _ => quiet x
  | _, V_nan => quiet y
  | V_inf s1, V_inf s2 => if eqb s1 s2 then default_nan else x
  | V_inf _, _ => x
  | _, V_inf s2 => infinity (negb s2)
  | V_fin s1 m1 e1, V_fin s2 m2 e2 =>
      let r := (dyadic s1 m1 e1 - dyadic s2 m2 e2)%Q in
      if Qeq_bool r 0 then zero (s1 && negb s2) else RN r
  end.

Definition fmul (x y : float128) : float128 :=
  match decode x, decode y with
  | V_nan, _ => quiet x
  | _, V_nan => quiet y
  | V_inf s1, V_inf s2 => infinity (xorb s1 s2)
  | V_inf s1, V_fin s2 m2 _ =>
      if m2 =? 0 then default_nan else infinity (xorb s1 s2)
  | V_fin s1 m1 _, V_inf s2 =>
      if m1 =? 0 then default_nan else infinity (xorb s1 s2)
  | V_fin s1 m1 e1, V_fin s2 m2 e2 =>
      if (m1 =? 0) || (m2 =? 0) then zero (xorb s1 s2)
      else RN (dyadic s1 m1 e1 * dyadic s2 m2 e2)
  end.

Definition fdiv (x y : float128) : float128 :=
  match decode x, decode y with
  | V_nan, _ => quiet x
  | _, V_nan => quiet y
  | V_inf _, V_inf _ => default_nan
  | V_inf s1, V_fin s2 _ _ => infinity (xorb s1 s2)
  | V_fin s1 _ _, V_inf s2 => zero (xorb s1 s2)
  | V_fin s1 m1 e1, V_fin s2 m2 e2 =>
      if m2 =? 0 then
        if m1 =? 0 then default_nan else infinity (xorb s1 s2)
      else if m1 =? 0 then zero (xorb s1 s2)
      else RN (dyadic s1 m1 e1 / dyadic s2 m2 e2)
  end.

(** *** Comparisons (false as soon as an operand is a NaN) *)

Definition fcompare (x y : float128) : option comparison :=
  match decode x, decode y with
  | V_nan, _ | _, V_nan => None
  | V_inf s1, V_inf s2 =>
      Some (if eqb s1 s2 then Eq else if s1 then Lt else Gt)
  | V_inf s1, _ => Some (if s1 then Lt else Gt)
  | _, V_inf s2 => Some (if s2 then Gt else Lt)
  | V_fin s1 m1 e1, V_fin s2 m2 e2 =>
      Some (dyadic s1 m1 e1 ?= dyadic s2 m2 e2)%Q
  end.

Definition feq (x y : float128) : bool :=
  match fcompare x y with Some Eq => true | _ => false end.
Definition flt (x y : float128) : bool :=
  match fcompare x y with Some Lt => true | _ => false end.
Definition fle (x y : float128) : bool :=
  match fcompare x y with Some Lt | Some Eq => true | _ => false end.
Definition fge (x y : float128) : bool := fle y x.

(** *** Conversions *)

(** [(_Float128) n] for an [int] [n]. *)
Definition of_int (n : Z) : float128 :=
  if n =? 0 then zero false else RN (inject_Z n).

(** A decimal floating constant, read digit by digit:
    [-]digits[.digits][(e|E)[+|-]digits]. *)
Record dec_state : Set := mk_dec
  { d_neg : bool; d_mant : Z; d_frac : Z; d_in_frac : bool;
    d_in_exp : bool; d_eneg : bool; d_exp : Z }.

Definition digit_of (c : ascii) : option Z :=
  let n := Z.of_nat (nat_of_ascii c) in
  if (48 <=? n) && (n <=? 57) then Some (n - 48) else None.

Definition dec_step (st : dec_state) (c : ascii) : dec_state :=
  match digit_of c with
  | Some d =>
      if d_in_exp st then
        mk_dec (d_neg st) (d_mant st) (d_frac st) (d_in_frac st) true
               (d_eneg st) (10 * d_exp st + d)
      else
        mk_dec (d_neg st) (10 * d_mant st + d)
               (if d_in_frac st then d_frac st + 1 else d_frac st)
               (d_in_frac st) false (d_eneg st) (d_exp st)
  | None =>
      if Ascii.eqb c "-" then
        if d_in_exp st then
          mk_dec (d_neg st) (d_mant st) (d_frac st) (d_in_frac st) true true
                 (d_exp st)
        else
          mk_dec true (d_mant st) (d_frac st) (d_in_frac st) false
                 (d_eneg st) (d_exp st)
      else if Ascii.eqb c "." then
        mk_dec (d_neg st) (d_mant st) (d_frac st) true (d_in_exp st)
               (d_eneg st) (d_exp st)
      else if Ascii.eqb c "e" || Ascii.eqb c "E" then
        mk_dec (d_neg st) (d_mant st) (d_frac st) (d_in_frac st) true
               (d_eneg st) (d_exp st)
      else st
  end.

Fixpoint dec_scan (s : string) (st : dec_state) : dec_state :=
  match s with
  | EmptyString => st
  | String c s' => dec_scan s' (dec_step st c)
  end.

Definition decimal (s : string) : Q :=
  let st := dec_scan s (mk_dec false 0 0 false false false 0) in
  let e := (if d_eneg st then - d_exp st else d_exp st) - d_frac st in
  (inject_Z (if d_neg st then - d_mant st else d_mant st) * 10 ^ e)%Q.

(** [L(c)]: the binary128 constant nearest to the decimal [c]. *)
Definition L (s : string) : float128 :=
  let q := decimal s in
  if Qeq_bool q 0 then zero false else RN q.

(** ** Constants of e_logl.c *)

Open Scope string_scope.

(** log(1+x) = x - .5 x^2 + x^3 l(x),  -.0078125 <= x <= +.0078125,
    peak relative error 1.2e-37. *)
Definition l3 : float128 :=
  Eval vm_compute in L "3.333333333333333333333333333333336096926E-1".
Definition l4 : float128 :=
  Eval vm_compute in L "-2.499999999999999999999999999486853077002E-1".
Definition l5 : float128 :=
  Eval vm_compute in L "1.999999999999999999999999998515277861905E-1".
Definition l6 : float128 :=
  Eval vm_compute in L "-1.666666666666666666666798448356171665678E-1".
Definition l7 : float128 :=
  Eval vm_compute in L "1.428571428571428571428808945895490721564E-1".
Definition l8 : float128 :=
  Eval vm_compute in L "-1.249999999999999987884655626377588149000E-1".
Definition l9 : float128 :=
  Eval vm_compute in L "1.111111111111111093947834982832456459186E-1".
Definition l10 : float128 :=
  Eval vm_compute in L "-1.000000000000532974938900317952530453248E-1".
Definition l11 : float128 :=
  Eval vm_compute in L "9.090909090915566247008015301349979892689E-2".
Definition l12 : float128 :=
  Eval vm_compute in L "-8.333333211818065121250921925397567745734E-2".
Definition l13 : float128 :=
  Eval vm_compute in L "7.692307559897661630807048686258659316091E-2".
Definition l14 : float128 :=
  Eval vm_compute in L "-7.144242754190814657241902218399056829264E-2".
Definition l15 : float128 :=
  Eval vm_compute in L "6.668057591071739754844678883223432347481E-2".

(** Lookup table of ln(t) - (t-1),  t = 0.5 + (k+26)/128,  k = 0, ..., 91. *)
Definition logtbl : list float128 := Eval vm_compute in map L [
  "-5.5345593589352099112142921677820359632418E-2";
  "-5.2108257402767124761784665198737642086148E-2";
  "-4.8991686870576856279407775480686721935120E-2";
  "-4.5993270766361228596215288742353061431071E-2";
  "-4.3110481649613269682442058976885699556950E-2";
  "-4.0340872319076331310838085093194799765520E-2";
  "-3.7682072451780927439219005993827431503510E-2";
  "-3.5131785416234343803903228503274262719586E-2";
  "-3.2687785249045246292687241862699949178831E-2";
  "-3.0347913785027239068190798397055267411813E-2";
  "-2.8110077931525797884641940838507561326298E-2";
  "-2.5972247078357715036426583294246819637618E-2";
  "-2.3932450635346084858612873953407168217307E-2";
  "-2.1988775689981395152022535153795155900240E-2";
  "-2.0139364778244501615441044267387667496733E-2";
  "-1.8382413762093794819267536615342902718324E-2";
  "-1.6716169807550022358923589720001638093023E-2";
  "-1.5138929457710992616226033183958974965355E-2";
  "-1.3649036795397472900424896523305726435029E-2";
  "-1.2244881690473465543308397998034325468152E-2";
  "-1.0924898127200937840689817557742469105693E-2";
  "-9.6875626072830301572839422532631079809328E-3";
  "-8.5313926245226231463436209313499745894157E-3";
  "-7.4549452072765973384933565912143044991706E-3";
  "-6.4568155251217050991200599386801665681310E-3";
  "-5.5356355563671005131126851708522185605193E-3";
  "-4.6900728132525199028885749289712348829878E-3";
  "-3.9188291218610470766469347968659624282519E-3";
  "-3.2206394539524058873423550293617843896540E-3";
  "-2.5942708080877805657374888909297113032132E-3";
  "-2.0385211375711716729239156839929281289086E-3";
  "-1.5522183228760777967376942769773768850872E-3";
  "-1.1342191863606077520036253234446621373191E-3";
  "-7.8340854719967065861624024730268350459991E-4";
  "-4.9869831458030115699628274852562992756174E-4";
  "-2.7902661731604211834685052867305795169688E-4";
  "-1.2335696813916860754951146082826952093496E-4";
  "-3.0677461025892873184042490943581654591817E-5";
  "0.0000000000000000000000000000000000000000E0";
  "-3.0359557945051052537099938863236321874198E-5";
  "-1.2081346403474584914595395755316412213151E-4";
  "-2.7044071846562177120083903771008342059094E-4";
  "-4.7834133324631162897179240322783590830326E-4";
  "-7.4363569786340080624467487620270965403695E-4";
  "-1.0654639687057968333207323853366578860679E-3";
  "-1.4429854811877171341298062134712230604279E-3";
  "-1.8753781835651574193938679595797367137975E-3";
  "-2.3618380914922506054347222273705859653658E-3";
  "-2.9015787624124743013946600163375853631299E-3";
  "-3.4938307889254087318399313316921940859043E-3";
  "-4.1378413103128673800485306215154712148146E-3";
  "-4.8328735414488877044289435125365629849599E-3";
  "-5.5782063183564351739381962360253116934243E-3";
  "-6.3731336597098858051938306767880719015261E-3";
  "-7.2169643436165454612058905294782949315193E-3";
  "-8.1090214990427641365934846191367315083867E-3";
  "-9.0486422112807274112838713105168375482480E-3";
  "-1.0035177140880864314674126398350812606841E-2";
  "-1.1067990155502102718064936259435676477423E-2";
  "-1.2146457974158024928196575103115488672416E-2";
  "-1.3269969823361415906628825374158424754308E-2";
  "-1.4437927104692837124388550722759686270765E-2";
  "-1.5649743073340777659901053944852735064621E-2";
  "-1.6904842527181702880599758489058031645317E-2";
  "-1.8202661505988007336096407340750378994209E-2";
  "-1.9542647000370545390701192438691126552961E-2";
  "-2.0924256670080119637427928803038530924742E-2";
  "-2.2346958571309108496179613803760727786257E-2";
  "-2.3810230892650362330447187267648486279460E-2";
  "-2.5313561699385640380910474255652501521033E-2";
  "-2.6856448685790244233704909690165496625399E-2";
  "-2.8438398935154170008519274953860128449036E-2";
  "-3.0058928687233090922411781058956589863039E-2";
  "-3.1717563112854831855692484086486099896614E-2";
  "-3.3413836095418743219397234253475252001090E-2";
  "-3.5147290019036555862676702093393332533702E-2";
  "-3.6917475563073933027920505457688955423688E-2";
  "-3.8723951502862058660874073462456610731178E-2";
  "-4.0566284516358241168330505467000838017425E-2";
  "-4.2444048996543693813649967076598766917965E-2";
  "-4.4356826869355401653098777649745233339196E-2";
  "-4.6304207416957323121106944474331029996141E-2";
  "-4.8285787106164123613318093945035804818364E-2";
  "-5.0301169421838218987124461766244507342648E-2";
  "-5.2349964705088137924875459464622098310997E-2";
  "-5.4431789996103111613753440311680967840214E-2";
  "-5.6546268881465384189752786409400404404794E-2";
  "-5.8693031345788023909329239565012647817664E-2";
  "-6.0871713627532018185577188079210189048340E-2";
  "-6.3081958078862169742820420185833800925568E-2";
  "-6.5323413029406789694910800219643791556918E-2";
  "-6.7595732653791419081537811574227049288168E-2"
].

(** [#define ZERO logtbl[38]] *)
Definition ZERO : float128 := nth 38 logtbl default_nan.

(** ln(2) = ln2a + ln2b with extended precision. *)
Definition ln2a : float128 :=
  Eval vm_compute in L "6.93145751953125e-1".
Definition ln2b : float128 :=
  Eval vm_compute in L "1.4286068203094172321214581765680755001344E-6".

(** The remaining literals of [__ieee754_logl]: [L(-0.5)], the [double]
    constant [0.5] (exact in both formats), the bounds of the interval
    around 1 and the integers 0 and 1 converted to [_Float128]. *)
Definition minus_half : float128 := Eval vm_compute in L "-0.5".
Definition half : float128 := Eval vm_compute in L "0.5".
Definition band_hi : float128 := Eval vm_compute in L "1.0078125".
Definition band_lo : float128 := Eval vm_compute in L "0.9921875".
Definition one : float128 := Eval vm_compute in of_int 1.
Definition fzero : float128 := Eval vm_compute in of_int 0.

Close Scope string_scope.

(** Reading [logtbl[i]]; an index outside the 92 entries has no value. *)
Definition tbl_read (i : Z) : option float128 :=
  if (0 <=? i) && (i <? 92) then nth_error logtbl (Z.to_nat i) else None.

(** ** [__frexpl]

    Modelled from the spec: [__frexpl] (s_frexpl.c) is called by
    [__ieee754_logl] but is not among the sources; the specification calls
    it the standard exponent/significand split.  It is modelled as the C
    library's [frexpl] on the bit pattern: for a finite non-zero [x] the
    result has the sign and mantissa of [x] (normalised first when [x] is
    subnormal) and the biased exponent 0x3ffe, so that its magnitude is in
    [0.5, 1), and [*eptr] is the power of two that gives [x] back.  Zeros,
    infinities and NaNs come back as [x + x] with exponent 0. *)
Definition __frexpl (x : float128) : float128 * Z :=
  let be := biased_exp x in
  let mant := mantissa x in
  if (be =? 32767) || ((be =? 0) && (mant =? 0)) then (fadd x x, 0)
  else if be =? 0 then
    let p := Z.log2 mant + 1 in
    (pack (sign_bit x) 16382 (mant * 2 ^ (113 - p) - 2 ^ 112), p - 16494)
  else (pack (sign_bit x) 16382 mant, be - 16382).

(** ** [__ieee754_logl] *)

(** The state range reduction leaves for the series and the final sum:
    the reduced argument [z], the exponent [e], the table index [k]
    (offset by 26, as the code keeps it) and the table argument [t]. *)
Record reduction : Set := mk_reduction
  { red_z : float128; red_e : Z; red_k : Z; red_t : float128 }.

(** Lines 218-219: [m = u.parts32.w0 & 0xffff; m |= 0x10000], the top 16
    mantissa bits under the implicit leading one. *)
Definition significand_word (u : float128) : Z :=
  let m := Z.land (w0 u) 0xffff in
  let m := Z.lor m 0x10000 in
  m.

(** Lines 220-241: the lookup index [k] from the high order bits of the
    significand, the table argument [t] assembled from its bit pattern,
    and the realigned [u] and [e]. *)
Definition table_index (u : float128) (e : Z)
  : Z * float128 * float128 * Z :=
  let m := significand_word u in
  if m <? 0x16800 then
    let k := Z.shiftr (u32 (m - 0xff00)) 9 in
    let t := mk_parts32 (u32 (0x3fff0000 + Z.shiftl k 9)) 0 0 0 in
    let u := set_w0 u (w0 u + 0x10000) in
    let e := e - 1 in
    let k := k + 64 in
    (k, t, u, e)
  else
    let k := Z.shiftr (u32 (m - 0xfe00)) 10 in
    let t := mk_parts32 (u32 (0x3ffe0000 + Z.shiftl k 10)) 0 0 0 in
    (k, t, u, e).

(** Lines 216-259: range reduction.  [inl r] is the early [return 0] taken
    for [x == 1]. *)
Definition reduce (x : float128) : float128 + reduction :=
  let '(u, e) := __frexpl x in
  let '(k, t, u, e) := table_index u e in
  if fle x band_hi && fge x band_lo then
    if feq x one then inl fzero
    else
      let z := fsub x one in
      let k := 64 in
      let t := one in
      let e := 0 in
      inr (mk_reduction z e k t)
  else
    let z := fdiv (fsub u t) t in
    inr (mk_reduction z e k t).

(** Lines 260-281: series expansion of log(1+z) and the final sum. *)
Definition series_sum (r : reduction) : option float128 :=
  let z := red_z r in
  let e := red_e r in
  let k := red_k r in
  let t := red_t r in
  let w := fmul z z in
  let y :=
    fmul (fmul (fadd (fmul (fadd (fmul (fadd (fmul (fadd (fmul (fadd (fmul
      (fadd (fmul (fadd (fmul (fadd (fmul (fadd (fmul (fadd (fmul (fadd
      (fmul (fadd (fmul l15 z)
                  l14) z)
                 l13) z)
                l12) z)
               l11) z)
              l10) z)
             l9) z)
            l8) z)
           l7) z)
          l6) z)
         l5) z)
        l4) z)
       l3) z) w in
  let y := fsub y (fmul half w) in
  let y := fadd y (fmul (of_int e) ln2b) in
  let y := fadd y z in
  match tbl_read (k - 26) with
  | None => None
  | Some c =>
      let y := fadd y c in
      let y := fadd y (fsub t one) in
      let y := fadd y (fmul (of_int e) ln2a) in
      Some y
  end.

(** The whole routine; [None] stands for a read outside [logtbl]. *)
Definition __ieee754_logl (x : float128) : option float128 :=
  let u := x in
  let m := w0 u in
  (* Check for IEEE special cases.  *)
  let k := Z.land m 0x7fffffff in
  (* log(0) = -infinity. *)
  if Z.lor (Z.lor (Z.lor k (w1 u)) (w2 u)) (w3 u) =? 0 then
    Some (fdiv minus_half ZERO)
  (* log ( x < 0 ) = NaN *)
  else if negb (Z.land m 0x80000000 =? 0) then
    Some (fdiv (fsub x x) ZERO)
  (* log (infinity or NaN) *)
  else if 0x7fff0000 <=? k then
    Some (fadd x x)
  else
    match reduce x with
    | inl r => Some r
    | inr r => series_sum r
    end.

(** ** Vocabulary of the specification *)

(** Zero of either sign: all exponent and mantissa bits clear. *)
Definition is_zero (x : float128) : Prop :=
  biased_exp x = 0 /\ mantissa x = 0.

(** Positive, finite and non-zero: the inputs that reach range reduction. *)
Definition pos_finite (x : float128) : Prop :=
  wf x /\ sign_bit x = false /\ biased_exp x <> 32767 /\ ~ is_zero x.

Definition pos_finiteb (x : float128) : bool :=
  wfb x && negb (sign_bit x) && negb (biased_exp x =? 32767)
  && negb ((biased_exp x =? 0) && (mantissa x =? 0)).

(** The binary128 number nearest to a rational (+0 for 0). *)
Definition round_to_nearest (q : Q) : float128 :=
  if Qeq_bool q 0 then zero false else RN q.

(** The 13 coefficients, high degree first. *)
Definition coefficients : list float128 :=
  [l15; l14; l13; l12; l11; l10; l9; l8; l7; l6; l5; l4; l3].

(** Horner's scheme: nested multiply-add, high degree first. *)
Definition horner (cs : list float128) (z : float128) : float128 :=
  match cs with
  | [] => zero false
  | c :: cs' => fold_left (fun acc c' => fadd (fmul acc z) c') cs' c
  end.

(** The final accumulator as the specification orders it: the series
    [z^3 P(z)] (the polynomial scaled by [z], times [z^2]), then
    [- 0.5 z^2], [+ e ln2b], [+ z], [+ logtbl[i]], [+ (t - 1)] and last
    [+ e ln2a]; [i] is the index into the table. *)
Definition final_accumulator (z : float128) (e : Z) (i : Z) (t : float128)
  : option float128 :=
  match tbl_read i with
  | None => None
  | Some entry =>
      let z2 := fmul z z in
      let y := fmul (fmul (horner coefficients z) z) z2 in
      let y := fsub y (fmul half z2) in
      let y := fadd y (fmul (of_int e) ln2b) in
      let y := fadd y z in
      let y := fadd y entry in
      let y := fadd y (fsub t one) in
      let y := fadd y (fmul (of_int e) ln2a) in
      Some y
  end.

(** 3 and its successor in binary128. *)
Definition three : float128 := pack false 16384 (2 ^ 111).
Definition three_succ : float128 := pack false 16384 (2 ^ 111 + 1).

(** The power of two [2^n], [-16494 <= n <= 16383] (subnormal below
    [2^-16382]). *)
Definition pow2_float (n : Z) : float128 :=
  if n <? -16382 then pack false 0 (2 ^ (n + 16494))
  else pack false (n + 16383) 0.

(** A rational given by its sign and its magnitude. *)
Definition signed (s : bool) (v : Q) : Q := if s then (- v)%Q else v.

(** [x] is finite and non-zero, with sign [s] and magnitude [v]. *)
Definition has_value (x : float128) (s : bool) (v : Q) : Prop :=
  exists m e, decode x = V_fin s m e /\ 0 < m < 2 ^ 113 /\
              emin <= e <= 16271 /\ (inject_Z m * 2 ^ e == v)%Q.

(** The same value in the Standard Library's model of IEEE 754 formats
    ([SpecFloat], here with [prec = 113] and [emax = 16384]), used to
    cross-check the arithmetic above on sample operands. *)
Definition to_spec_float (x : float128) : SpecFloat.spec_float :=
  match decode x with
  | V_nan => SpecFloat.S754_nan
  | V_inf s => SpecFloat.S754_infinity s
  | V_fin s m e =>
      if m =? 0 then SpecFloat.S754_zero s
      else SpecFloat.S754_finite s (Z.to_pos m) e
  end.

(** ** Vocabulary of the further properties *)

Definition is_inf (x : float128) : bool :=
  match decode x with V_inf _ => true | _ => false end.

(** [x] is finite and [|x| <= 2^K]. *)
Definition bounded (x : float128) (K : Z) : Prop :=
  is_finite x = true /\ (Qabs (Qval x) <= 2 ^ K)%Q.

(** Every entry of a table is a well-formed pattern whose biased exponent
    is below [be]. *)
Definition exponents_below (be : Z) (tbl : list float128) : bool :=
  forallb (fun c => wfb c && (biased_exp c <? be)) tbl.

(** [x] is finite and [|x| <= N * 2^E]. *)
Definition within (x : float128) (N E : Z) : Prop :=
  is_finite x = true /\ (Qabs (Qval x) <= inject_Z N * 2 ^ E)%Q.


(** * Properties

    Facts about the format first, then about rounding, then about the
    routine, ending with the statements of the specification. *)

(** ** Words, fields and the special-case tests *)

Lemma land_low16 w : Z.land w 0xffff = w mod 2 ^ 16.
Proof. change 0xffff with (Z.ones 16). apply Z.land_ones. lia. Qed.

Lemma land_low31 w : Z.land w 0x7fffffff = w mod 2 ^ 31.
Proof. change 0x7fffffff with (Z.ones 31). apply Z.land_ones. lia. Qed.

Lemma lor_disjoint_add a b : Z.land a b = 0 -> Z.lor a b = a + b.
Proof.
  intros H. rewrite <- Z.lxor_lor by exact H.
  symmetry. apply Z.add_nocarry_lxor. exact H.
Qed.

Lemma land_low_pow2 a n : 0 <= n -> Z.land (a mod 2 ^ n) (2 ^ n) = 0.
Proof.
  intros Hn. apply Z.bits_inj'. intros i Hi.
  rewrite Z.land_spec, Z.bits_0, Z.pow2_bits_eqb by lia.
  destruct (Z.eqb_spec n i) as [->|Hne].
  - rewrite Z.mod_pow2_bits_high by lia. reflexivity.
  - apply andb_false_r.
Qed.

Lemma lor_bit16 a : 0 <= a < 2 ^ 16 -> Z.lor a 0x10000 = a + 2 ^ 16.
Proof.
  intros Ha. rewrite lor_disjoint_add; [reflexivity|].
  rewrite <- (Z.mod_small a (2 ^ 16)) by lia.
  apply (land_low_pow2 a 16). lia.
Qed.

Lemma land_bit31 w : 0 <= w < 2 ^ 32 -> Z.land w 0x80000000 = w - w mod 2 ^ 31.
Proof.
  intros Hw.
  assert (E : w = Z.lor (Z.land w (Z.ones 31)) (Z.land w (2 ^ 31))).
  { rewrite <- Z.land_lor_distr_r.
    change (Z.lor (Z.ones 31) (2 ^ 31)) with (Z.ones 32).
    rewrite Z.land_ones by lia. symmetry. apply Z.mod_small. lia. }
  rewrite lor_disjoint_add in E.
  - rewrite Z.land_ones in E by lia. change 0x80000000 with (2 ^ 31). lia.
  - rewrite Z.land_ones by lia.
    rewrite (Z.land_comm w), Z.land_assoc, land_low_pow2 by lia.
    apply Z.land_0_l.
Qed.

(** Powers of two with a literal exponent, evaluated. *)
Ltac norm_pow :=
  repeat match goal with
  | |- context [2 ^ Zpos ?n] =>
      let v := eval vm_compute in (2 ^ Zpos n) in
      change (2 ^ Zpos n) with v in *
  | H : context [2 ^ Zpos ?n] |- _ =>
      let v := eval vm_compute in (2 ^ Zpos n) in
      change (2 ^ Zpos n) with v in *
  end.

(** [lia] with division and remainder by constants. *)
Ltac divlia := norm_pow; Z.div_mod_to_equations; lia.

Lemma biased_exp_range x : 0 <= biased_exp x < 2 ^ 15.
Proof. unfold biased_exp. apply Z.mod_pos_bound. lia. Qed.

Lemma mantissa_range x : wf x -> 0 <= mantissa x < 2 ^ 112.
Proof.
  unfold wf, word32, mantissa. intros (H0 & H1 & H2 & H3).
  divlia.
Qed.

Lemma w0_fields x :
  wf x ->
  w0 x = (if sign_bit x then 2 ^ 31 else 0) + biased_exp x * 2 ^ 16
         + w0 x mod 2 ^ 16.
Proof.
  unfold wf, word32, sign_bit, biased_exp. intros (H0 & _).
  destruct (Z.leb_spec (2 ^ 31) (w0 x)); divlia.
Qed.

Lemma sign_bit_pack s be m :
  0 <= be < 2 ^ 15 -> 0 <= m < 2 ^ 112 -> sign_bit (pack s be m) = s.
Proof.
  intros Hbe Hm. unfold sign_bit, pack. cbn [w0].
  assert (0 <= m / 2 ^ 96 < 2 ^ 16).
  { split; [apply Z.div_pos; lia|apply Z.div_lt_upper_bound; lia]. }
  destruct s; [apply Z.leb_le | apply Z.leb_gt]; divlia.
Qed.

Lemma biased_exp_pack s be m :
  0 <= be < 2 ^ 15 -> 0 <= m < 2 ^ 112 -> biased_exp (pack s be m) = be.
Proof.
  intros Hbe Hm. unfold biased_exp, pack. cbn [w0].
  assert (0 <= m / 2 ^ 96 < 2 ^ 16).
  { split; [apply Z.div_pos; lia|apply Z.div_lt_upper_bound; lia]. }
  destruct s; divlia.
Qed.

Lemma mantissa_pack s be m :
  0 <= be < 2 ^ 15 -> 0 <= m < 2 ^ 112 -> mantissa (pack s be m) = m.
Proof.
  intros Hbe Hm. unfold mantissa, pack. cbn [w0 w1 w2 w3].
  assert (0 <= m / 2 ^ 96 < 2 ^ 16).
  { split; [apply Z.div_pos; lia|apply Z.div_lt_upper_bound; lia]. }
  destruct s; divlia.
Qed.

Lemma wf_pack s be m :
  0 <= be < 2 ^ 15 -> 0 <= m < 2 ^ 112 -> wf (pack s be m).
Proof.
  intros Hbe Hm. unfold wf, word32, pack. cbn [w0 w1 w2 w3].
  assert (0 <= m / 2 ^ 96 < 2 ^ 16).
  { split; [apply Z.div_pos; lia|apply Z.div_lt_upper_bound; lia]. }
  repeat split; try (apply Z.mod_pos_bound; lia); destruct s; divlia.
Qed.

Lemma pack_fields x :
  wf x -> pack (sign_bit x) (biased_exp x) (mantissa x) = x.
Proof.
  intros Hx. pose proof (w0_fields x Hx) as E.
  destruct x as [a b c d]. unfold wf, word32 in Hx. cbn [w0 w1 w2 w3] in *.
  unfold pack, mantissa. cbn [w0 w1 w2 w3].
  assert (0 <= a mod 2 ^ 16 < 2 ^ 16) by (apply Z.mod_pos_bound; lia).
  f_equal; divlia.
Qed.

Lemma lor_pow2 w n :
  0 <= n -> Z.lor w (2 ^ n) = w + 2 ^ n * (1 - (w / 2 ^ n) mod 2).
Proof.
  intros Hn. destruct (Z.testbit w n) eqn:B.
  - apply Z.testbit_true in B; [|exact Hn]. rewrite B, Z.mul_0_r, Z.add_0_r.
    apply Z.bits_inj'. intros i Hi.
    rewrite Z.lor_spec, Z.pow2_bits_eqb by lia.
    destruct (Z.eqb_spec n i) as [->|Hne]; [|apply orb_false_r].
    apply Z.testbit_true in B; [|exact Hi]. rewrite B. reflexivity.
  - assert (B' := B). apply Z.testbit_false in B; [|exact Hn].
    rewrite B, Z.sub_0_r, Z.mul_1_r.
    apply lor_disjoint_add. apply Z.bits_inj'. intros i Hi.
    rewrite Z.land_spec, Z.bits_0, Z.pow2_bits_eqb by lia.
    destruct (Z.eqb_spec n i) as [->|Hne]; [|apply andb_false_r].
    rewrite B'. reflexivity.
Qed.


Lemma zero_test_spec x :
  wf x ->
  (Z.lor (Z.lor (Z.lor (Z.land (w0 x) 0x7fffffff) (w1 x)) (w2 x)) (w3 x) = 0
   <-> is_zero x).
Proof.
  intros Hx. rewrite land_low31, !Z.lor_eq_0_iff.
  unfold is_zero, biased_exp, mantissa.
  destruct Hx as (H0 & H1 & H2 & H3). unfold word32 in *.
  split.
  - intros (((A & B) & C) & D). rewrite B, C, D. split; divlia.
  - intros (A & B). repeat split; divlia.
Qed.

Lemma sign_test_spec x :
  wf x -> (Z.land (w0 x) 0x80000000 =? 0) = negb (sign_bit x).
Proof.
  intros (H0 & _). unfold word32 in H0. rewrite land_bit31 by exact H0.
  unfold sign_bit.
  destruct (Z.leb_spec (2 ^ 31) (w0 x)); cbn [negb];
    [apply Z.eqb_neq | apply Z.eqb_eq]; divlia.
Qed.

Lemma exp_test_spec x :
  wf x -> sign_bit x = false ->
  (0x7fff0000 <=? Z.land (w0 x) 0x7fffffff) = (biased_exp x =? 32767).
Proof.
  intros (H0 & _) Hs. unfold word32 in H0. rewrite land_low31.
  unfold sign_bit in Hs. apply Z.leb_gt in Hs. unfold biased_exp.
  destruct (Z.eqb_spec ((w0 x / 2 ^ 16) mod 2 ^ 15) 32767);
    [apply Z.leb_le | apply Z.leb_gt]; divlia.
Qed.


Lemma logl_zero x :
  wf x -> is_zero x -> __ieee754_logl x = Some (fdiv minus_half ZERO).
Proof.
  intros Hx Hz. unfold __ieee754_logl.
  apply (zero_test_spec x Hx) in Hz. rewrite Hz. reflexivity.
Qed.

Lemma logl_negative x :
  wf x -> sign_bit x = true -> ~ is_zero x ->
  __ieee754_logl x = Some (fdiv (fsub x x) ZERO).
Proof.
  intros Hx Hs Hz. unfold __ieee754_logl.
  rewrite <- (zero_test_spec x Hx) in Hz. apply Z.eqb_neq in Hz. rewrite Hz.
  rewrite (sign_test_spec x Hx), Hs. reflexivity.
Qed.

Lemma logl_inf_nan x :
  wf x -> sign_bit x = false -> biased_exp x = 32767 ->
  __ieee754_logl x = Some (fadd x x).
Proof.
  intros Hx Hs He. unfold __ieee754_logl.
  assert (Hz : ~ is_zero x) by (unfold is_zero; lia).
  rewrite <- (zero_test_spec x Hx) in Hz. apply Z.eqb_neq in Hz. rewrite Hz.
  rewrite (sign_test_spec x Hx), Hs. cbn [negb].
  rewrite (exp_test_spec x Hx Hs), He. reflexivity.
Qed.

Lemma logl_general x :
  pos_finite x ->
  __ieee754_logl x =
  match reduce x with inl r => Some r | inr r => series_sum r end.
Proof.
  intros (Hx & Hs & He & Hz). unfold __ieee754_logl.
  rewrite <- (zero_test_spec x Hx) in Hz. apply Z.eqb_neq in Hz. rewrite Hz.
  rewrite (sign_test_spec x Hx), Hs. cbn [negb].
  rewrite (exp_test_spec x Hx Hs).
  apply Z.eqb_neq in He. rewrite He. reflexivity.
Qed.

(** *** NaNs *)

Lemma decode_nan_iff x :
  decode x = V_nan <-> biased_exp x = 32767 /\ mantissa x <> 0.
Proof.
  unfold decode.
  destruct (Z.eqb_spec (biased_exp x) 32767) as [E|E].
  - destruct (Z.eqb_spec (mantissa x) 0) as [M|M]; split;
      try discriminate; tauto.
  - destruct (biased_exp x =? 0); split; try discriminate; tauto.
Qed.

Lemma is_nan_decode x : is_nan x = true <-> decode x = V_nan.
Proof.
  unfold is_nan. destruct (decode x); split; congruence.
Qed.

Lemma quiet_fields x :
  wf x ->
  wf (quiet x) /\ sign_bit (quiet x) = sign_bit x /\
  biased_exp (quiet x) = biased_exp x /\
  payload (quiet x) = payload x /\ 2 ^ 111 <= mantissa (quiet x).
Proof.
  intros (H0 & H1 & H2 & H3). unfold word32 in *.
  unfold wf, word32, quiet, sign_bit, biased_exp, payload, mantissa.
  cbn [w0 w1 w2 w3]. change 32768 with (2 ^ 15).
  rewrite lor_pow2 by lia.
  assert (B : 0 <= (w0 x / 2 ^ 15) mod 2 < 2) by (apply Z.mod_pos_bound; lia).
  remember ((w0 x / 2 ^ 15) mod 2) as b eqn:Eb.
  assert (Hb : b = 0 \/ b = 1) by lia. clear B.
  destruct Hb as [Hb | Hb]; rewrite Hb in *;
    destruct (Z.leb_spec (2 ^ 31) (w0 x));
    repeat split;
    try (apply Z.leb_le); try (apply Z.leb_gt); divlia.
Qed.

Lemma quiet_is_nan x : wf x -> decode x = V_nan -> decode (quiet x) = V_nan.
Proof.
  intros Hx D. apply decode_nan_iff in D. destruct D as (E & _).
  destruct (quiet_fields x Hx) as (_ & _ & E' & _ & M).
  apply decode_nan_iff. split; [congruence | lia].
Qed.

Lemma quiet_idem x : quiet (quiet x) = quiet x.
Proof.
  unfold quiet. cbn [w0 w1 w2 w3]. rewrite <- Z.lor_assoc, Z.lor_diag.
  reflexivity.
Qed.

Lemma fadd_nan x y : decode x = V_nan -> fadd x y = quiet x.
Proof. intros D. unfold fadd. rewrite D. reflexivity. Qed.

Lemma fsub_nan x y : decode x = V_nan -> fsub x y = quiet x.
Proof. intros D. unfold fsub. rewrite D. reflexivity. Qed.

Lemma fdiv_nan x y : decode x = V_nan -> fdiv x y = quiet x.
Proof. intros D. unfold fdiv. rewrite D. reflexivity. Qed.

Lemma fsub_diag_fin x s m e :
  decode x = V_fin s m e -> fsub x x = zero false.
Proof.
  intros D. unfold fsub. rewrite D.
  assert (E : Qeq_bool (dyadic s m e - dyadic s m e) 0 = true).
  { apply Qeq_bool_iff. ring. }
  rewrite E. destruct s; reflexivity.
Qed.

Lemma fsub_diag_inf x s : decode x = V_inf s -> fsub x x = default_nan.
Proof.
  intros D. unfold fsub. rewrite D, eqb_reflx. reflexivity.
Qed.

(** [(x - x) / ZERO] is a NaN whatever [x] is. *)
Lemma invalid_idiom_is_nan x :
  wf x -> is_nan (fdiv (fsub x x) ZERO) = true.
Proof.
  intros Hx. destruct (decode x) as [|s|s m e] eqn:D.
  - rewrite (fsub_nan x x D).
    rewrite (fdiv_nan _ _ (quiet_is_nan x Hx D)), quiet_idem.
    apply is_nan_decode, quiet_is_nan; assumption.
  - rewrite (fsub_diag_inf x s D). reflexivity.
  - rewrite (fsub_diag_fin x s m e D). reflexivity.
Qed.

(** [-0.5 / ZERO] is the negative infinity. *)
Lemma div_by_zero_idiom : fdiv minus_half ZERO = infinity true.
Proof. reflexivity. Qed.

Lemma length_logtbl : List.length logtbl = 92%nat.
Proof. reflexivity. Qed.

Lemma tbl_read_some i :
  0 <= i <= 91 -> exists c, tbl_read i = Some c.
Proof.
  intros Hi. unfold tbl_read.
  replace ((0 <=? i) && (i <? 92)) with true
    by (symmetry; apply andb_true_iff; split;
        [apply Z.leb_le | apply Z.ltb_lt]; lia).
  destruct (nth_error logtbl (Z.to_nat i)) eqn:E; [eauto|].
  apply nth_error_None in E. rewrite length_logtbl in E. lia.
Qed.

Lemma table_index_range u e k t u' e' :
  table_index u e = (k, t, u', e') -> 26 <= k <= 116.
Proof.
  unfold table_index, significand_word. rewrite land_low16.
  assert (Hm : 0 <= w0 u mod 2 ^ 16 < 2 ^ 16) by (apply Z.mod_pos_bound; lia).
  rewrite lor_bit16 by exact Hm.
  set (m := w0 u mod 2 ^ 16 + 2 ^ 16) in *.
  assert (Hm' : 2 ^ 16 <= m < 2 ^ 17) by (subst m; lia).
  clearbody m. unfold u32. rewrite !Z.shiftr_div_pow2 by lia.
  destruct (Z.ltb_spec m 0x16800) as [Hlt|Hge]; intros E;
    apply (f_equal (fun p => fst (fst (fst p)))) in E; cbn [fst] in E;
    subst k; divlia.
Qed.

Lemma reduce_index_range x r : reduce x = inr r -> 26 <= red_k r <= 116.
Proof.
  unfold reduce. destruct (__frexpl x) as [u e].
  destruct (table_index u e) as [[[k t] u'] e'] eqn:T.
  apply table_index_range in T.
  destruct (fle x band_hi && fge x band_lo).
  - destruct (feq x one); [discriminate|].
    intros E. injection E as <-. cbn [red_k]. lia.
  - intros E. injection E as <-. cbn [red_k]. exact T.
Qed.

(** Claim C3.  Whenever range reduction hands a state to the final sum
    (so for every finite positive input other than 1, and in fact for every
    input), the index [k - 26] used to subscript [logtbl] lies in [0, 91]:
    the read [logtbl[k-26]] is inside the 92-entry table and the final sum
    yields a value. *)
Theorem logtbl_index_in_bounds x r :
  reduce x = inr r ->
  0 <= red_k r - 26 <= 91 /\
  (exists c, tbl_read (red_k r - 26) = Some c) /\
  (exists y, series_sum r = Some y).
Proof.
  intros H. apply reduce_index_range in H.
  destruct (tbl_read_some (red_k r - 26) ltac:(lia)) as (c & Hc).
  split; [lia|]. split; [eauto|].
  unfold series_sum. rewrite Hc. eauto.
Qed.

(** The routine never reads outside the table: it returns a value on every input. *)
Lemma logl_total x : wf x -> exists y, __ieee754_logl x = Some y.
Proof.
  intros Hx. unfold __ieee754_logl.
  destruct (_ =? 0); [eauto|]. destruct (negb _); [eauto|].
  destruct (_ <=? _); [eauto|].
  destruct (reduce x) as [y|r] eqn:R; [eauto|].
  apply reduce_index_range in R.
  destruct (tbl_read_some (red_k r - 26) ltac:(lia)) as (c & Hc).
  unfold series_sum. rewrite Hc. eauto.
Qed.

(** Claim C5.  For the input exactly 1.0 (sign 0, biased exponent 0x3fff,
    mantissa 0) the routine returns exactly +0.0: all 128 bits clear. *)
Theorem logl_one_is_exact_zero :
  __ieee754_logl (pack false 16383 0) = Some (mk_parts32 0 0 0 0).
Proof. vm_compute. reflexivity. Qed.


(** Claim C7.  For every input with the sign bit set and a non-zero
    magnitude (negative finite numbers, and also the negative infinity and
    the NaNs with the sign bit set) the routine returns the value of the
    expression [(x - x) / ZERO], and that value is a NaN. *)
Theorem logl_negative_is_nan x :
  wf x -> sign_bit x = true -> ~ is_zero x ->
  __ieee754_logl x = Some (fdiv (fsub x x) ZERO) /\
  is_nan (fdiv (fsub x x) ZERO) = true.
Proof.
  intros Hx Hs Hz. split; [apply logl_negative; assumption|].
  apply invalid_idiom_is_nan; assumption.
Qed.

(** On a NaN the expression of the sign test and the one of the exponent
    test deliver the same value. *)
Lemma negative_nan_same_value x :
  wf x -> is_nan x = true -> fdiv (fsub x x) ZERO = fadd x x.
Proof.
  intros Hx Hn. apply is_nan_decode in Hn.
  rewrite (fsub_nan x x Hn), (fadd_nan x x Hn).
  rewrite (fdiv_nan _ _ (quiet_is_nan x Hx Hn)). apply quiet_idem.
Qed.

(** Claim C8.  For every NaN input, whatever its sign and payload, the
    routine returns the value of [x + x]: a NaN with the payload and the
    sign of [x] (only the quiet bit is forced).  A NaN with the sign bit set
    is caught by the earlier sign test and evaluated as [(x - x) / ZERO],
    which propagates the same NaN ([negative_nan_same_value]). *)
Theorem logl_nan_is_self_addition x :
  wf x -> is_nan x = true ->
  __ieee754_logl x = Some (fadd x x) /\
  is_nan (fadd x x) = true /\
  payload (fadd x x) = payload x /\
  sign_bit (fadd x x) = sign_bit x.
Proof.
  intros Hx Hn. apply is_nan_decode in Hn.
  rewrite (fadd_nan x x Hn).
  destruct (quiet_fields x Hx) as (_ & S & _ & P & _).
  split; [|split; [apply is_nan_decode, quiet_is_nan; assumption | tauto]].
  destruct (proj1 (decode_nan_iff x) Hn) as (E & M).
  destruct (sign_bit x) eqn:Sx.
  - rewrite (logl_negative x Hx Sx) by (unfold is_zero; lia).
    rewrite (fsub_nan x x Hn).
    rewrite (fdiv_nan _ _ (quiet_is_nan x Hx Hn)), quiet_idem. reflexivity.
  - rewrite (logl_inf_nan x Hx Sx E), (fadd_nan x x Hn). reflexivity.
Qed.

(** ** Rationals, powers of two and rounding *)

(** *** Powers of two in Q *)
Open Scope Q_scope.

Lemma two_neq_0 : ~ 2 == 0.
Proof. discriminate. Qed.

Lemma pow2_add a b : 2 ^ (a + b) == 2 ^ a * 2 ^ b.
Proof. apply Qpower_plus, two_neq_0. Qed.

Lemma pow2_pos a : 0 < 2 ^ a.
Proof. apply Qpower_0_lt. reflexivity. Qed.

Lemma pow2_sub a b : 2 ^ (a - b) == 2 ^ a / 2 ^ b.
Proof. apply Qpower_minus, two_neq_0. Qed.

Lemma pow2_inject n : (0 <= n)%Z -> inject_Z (2 ^ n) == 2 ^ n.
Proof. intros H. apply (Zpower_Qpower 2 n H). Qed.

Lemma pow2_le a b : (a <= b)%Z -> 2 ^ a <= 2 ^ b.
Proof. intros H. apply Qpower_le_compat_l; [exact H | discriminate]. Qed.

Lemma pow2_lt a b : (a < b)%Z -> 2 ^ a < 2 ^ b.
Proof. intros H. apply Qpower_lt_compat_l; [exact H | reflexivity]. Qed.

Lemma pow2_lt_inv a b : 2 ^ a < 2 ^ b -> (a < b)%Z.
Proof.
  intros H. destruct (Z.lt_ge_cases a b) as [L|G]; [exact L|].
  apply pow2_le in G. lra.
Qed.

Lemma pow2_succ a : 2 ^ (a + 1) == 2 * 2 ^ a.
Proof. rewrite pow2_add. change (2 ^ 1) with 2. ring. Qed.

(** *** [Qlog2] is the floor of the binary logarithm *)

Lemma Zlog2_Q n : (0 < n)%Z ->
  2 ^ Z.log2 n <= inject_Z n /\ inject_Z n < 2 ^ (Z.log2 n + 1).
Proof.
  intros Hn. destruct (Z.log2_spec n Hn) as (A & B).
  pose proof (Z.log2_nonneg n) as P.
  rewrite <- !pow2_inject by lia. rewrite <- Zle_Qle, <- Zlt_Qlt.
  replace (Z.succ (Z.log2 n)) with (Z.log2 n + 1)%Z in B by lia. tauto.
Qed.

Lemma Qlog2_spec a : 0 < a -> 2 ^ Qlog2 a <= a /\ a < 2 ^ (Qlog2 a + 1).
Proof.
  intros Ha. unfold Qlog2.
  assert (Hn : (0 < Qnum a)%Z).
  { destruct a as [n d]. unfold Qlt in Ha. cbn in *. lia. }
  destruct (Zlog2_Q (Qnum a) Hn) as (N1 & N2).
  destruct (Zlog2_Q (Zpos (Qden a)) ltac:(lia)) as (D1 & D2).
  set (ln := Z.log2 (Qnum a)) in *. set (ld := Z.log2 (Zpos (Qden a))) in *.
  assert (E : a == inject_Z (Qnum a) / inject_Z (Zpos (Qden a))).
  { destruct a as [n d]. cbn [Qnum Qden]. rewrite Qmake_Qdiv. reflexivity. }
  assert (Dp : 0 < inject_Z (Zpos (Qden a))) by (pose proof (pow2_pos ld); lra).
  set (N := inject_Z (Qnum a)) in *. set (D := inject_Z (Zpos (Qden a))) in *.
  assert (Lo : 2 ^ (ln - ld - 1) < a).
  { rewrite E. apply Qlt_shift_div_l; [exact Dp|].
    replace (ln - ld - 1)%Z with (ln - (ld + 1))%Z by lia.
    rewrite pow2_sub.
    pose proof (pow2_pos ln). pose proof (pow2_pos (ld + 1)).
    apply Qlt_le_trans with (2 ^ ln); [|exact N1].
    setoid_replace (2 ^ ln) with (2 ^ ln / 2 ^ (ld + 1) * 2 ^ (ld + 1)) at 2
      by (field; lra).
    apply Qmult_lt_l; [|exact D2].
    apply Qlt_shift_div_l; lra. }
  assert (Hi : a < 2 ^ (ln - ld + 1)).
  { rewrite E. apply Qlt_shift_div_r; [exact Dp|].
    replace (ln - ld + 1)%Z with (ln + 1 - ld)%Z by lia.
    rewrite pow2_sub.
    pose proof (pow2_pos (ln + 1)). pose proof (pow2_pos ld).
    apply Qlt_le_trans with (2 ^ (ln + 1)); [exact N2|].
    setoid_replace (2 ^ (ln + 1)) with (2 ^ (ln + 1) / 2 ^ ld * 2 ^ ld) at 1
      by (field; lra).
    apply Qmult_le_l; [|exact D1].
    apply Qlt_shift_div_l; lra. }
  clearbody N D ln ld.
  destruct (Qle_bool (2 ^ (ln - ld)) a) eqn:T.
  - apply Qle_bool_iff in T. tauto.
  - assert (T' : ~ 2 ^ (ln - ld) <= a).
    { intros C. apply Qle_bool_iff in C. congruence. }
    apply Qnot_le_lt in T'.
    replace (ln - ld - 1 + 1)%Z with (ln - ld)%Z by lia.
    split; [apply Qlt_le_weak; exact Lo | exact T'].
Qed.

Lemma Qlog2_unique a k : 2 ^ k <= a -> a < 2 ^ (k + 1) -> Qlog2 a = k.
Proof.
  intros A B.
  assert (Ha : 0 < a) by (pose proof (pow2_pos k); lra).
  destruct (Qlog2_spec a Ha) as (C & D).
  assert (2 ^ k < 2 ^ (Qlog2 a + 1)) by lra.
  assert (2 ^ Qlog2 a < 2 ^ (k + 1)) by lra.
  apply pow2_lt_inv in H, H0. lia.
Qed.

Lemma Qlog2_comp a b : 0 < a -> a == b -> Qlog2 a = Qlog2 b.
Proof.
  intros Ha E. destruct (Qlog2_spec a Ha) as (A & B).
  symmetry. apply Qlog2_unique; rewrite <- E; assumption.
Qed.


(** *** Rounding to an integer *)

Lemma round_half_even_cases q :
  round_half_even q = Qfloor q \/
  (round_half_even q = (Qfloor q + 1)%Z /\ 1 # 2 <= q - inject_Z (Qfloor q)).
Proof.
  unfold round_half_even.
  destruct (Qcompare_spec (q - inject_Z (Qfloor q)) (1 # 2)) as [E|L|G].
  - destruct (Z.even (Qfloor q)); [left; reflexivity|right].
    split; [reflexivity | rewrite E; apply Qle_refl].
  - left; reflexivity.
  - right. split; [reflexivity | apply Qlt_le_weak; exact G].
Qed.

Lemma round_half_even_le q n : q <= inject_Z n -> (round_half_even q <= n)%Z.
Proof.
  intros H. pose proof (Qfloor_le q) as F.
  assert (Fn : (Qfloor q <= n)%Z).
  { rewrite <- (Qfloor_Z n). apply Qfloor_resp_le. exact H. }
  destruct (round_half_even_cases q) as [-> | (-> & R)]; [exact Fn|].
  assert (Qfloor q <> n); [|lia].
  intros E. rewrite E in R. lra.
Qed.

Lemma round_half_even_ge q n : inject_Z n <= q -> (n <= round_half_even q)%Z.
Proof.
  intros H.
  assert (Fn : (n <= Qfloor q)%Z).
  { rewrite <- (Qfloor_Z n). apply Qfloor_resp_le. exact H. }
  destruct (round_half_even_cases q) as [-> | (-> & R)]; lia.
Qed.

Lemma round_half_even_Z q n : q == inject_Z n -> round_half_even q = n.
Proof.
  intros E. apply Z.le_antisymm.
  - apply round_half_even_le. rewrite E. apply Qle_refl.
  - apply round_half_even_ge. rewrite E. apply Qle_refl.
Qed.

Lemma round_half_even_comp q r : q == r -> round_half_even q = round_half_even r.
Proof.
  intros E. unfold round_half_even.
  assert (F : Qfloor q = Qfloor r) by (apply Qfloor_comp; exact E).
  rewrite F.
  assert (C : (q - inject_Z (Qfloor r) ?= 1 # 2) = (r - inject_Z (Qfloor r) ?= 1 # 2)).
  { apply Qcompare_comp; [rewrite E|]; reflexivity. }
  rewrite C. reflexivity.
Qed.

(** *** The value of an encoded pattern *)

Lemma dyadic_zero s e : dyadic s 0 e == 0.
Proof. reflexivity. Qed.

(** [dyadic] is [(-1)^s * m * 2^e]; a zero significand is short-cut. *)
Lemma dyadic_eq s m e :
  dyadic s m e == inject_Z (if s then - m else m) * 2 ^ e.
Proof.
  unfold dyadic. destruct (Z.eqb_spec m 0) as [->|H]; [|reflexivity].
  destruct s; cbn [Z.opp]; ring.
Qed.

Lemma decode_pack_normal s be m :
  (0 < be < 32767)%Z -> (0 <= m < 2 ^ 112)%Z ->
  decode (pack s be m) = V_fin s (2 ^ 112 + m) (be - ebias).
Proof.
  intros Hbe Hm. unfold decode.
  rewrite sign_bit_pack, biased_exp_pack, mantissa_pack by lia.
  destruct (Z.eqb_spec be 32767); [lia|].
  destruct (Z.eqb_spec be 0); [lia|]. reflexivity.
Qed.

Lemma decode_pack_subnormal s m :
  (0 <= m < 2 ^ 112)%Z -> decode (pack s 0 m) = V_fin s m emin.
Proof.
  intros Hm. unfold decode.
  rewrite sign_bit_pack, biased_exp_pack, mantissa_pack by lia.
  reflexivity.
Qed.

Lemma dyadic_shift s m e : dyadic s (2 * m) e == dyadic s m (e + 1).
Proof.
  rewrite !dyadic_eq, pow2_succ.
  destruct s; [rewrite <- Z.mul_opp_r|]; rewrite inject_Z_mult; ring.
Qed.

(** No overflow: the pattern denotes exactly [(-1)^s * m * 2^e]. *)
Lemma encode_val s m e :
  (0 <= m <= 2 ^ 113)%Z -> (emin <= e)%Z -> (emin < e -> 2 ^ 112 <= m)%Z ->
  (2 ^ 112 <= m < 2 ^ 113 -> e <= 16271)%Z -> (m = 2 ^ 113 -> e < 16271)%Z ->
  exists m' e', decode (encode s m e) = V_fin s m' e' /\
                dyadic s m' e' == dyadic s m e /\
                (0 <= m' < 2 ^ 113)%Z /\ (emin <= e' <= 16271)%Z /\
                (0 < m -> 0 < m')%Z /\
                inject_Z m' * 2 ^ e' == inject_Z m * 2 ^ e.
Proof.
  intros Hm He Hn Ho1 Ho2. unfold encode, emin, ebias in *.
  destruct (Z.eqb_spec m 0) as [->|M0].
  - exists 0%Z, emin. split; [apply decode_pack_subnormal; lia|].
    split; [rewrite !dyadic_zero; reflexivity|]. unfold emin.
    repeat split; lia.
  - destruct (Z.leb_spec (2 ^ 113) m) as [Hbig|Hsmall].
    + assert (m = 2 ^ 113)%Z by lia. subst m.
      change (2 ^ 113 / 2)%Z with (2 ^ 112)%Z.
      change (2 ^ 112 <=? 2 ^ 112)%Z with true. cbv iota.
      specialize (Ho2 eq_refl).
      destruct (Z.leb_spec 32767 (e + 1 + 16495)); [lia|].
      exists (2 ^ 112)%Z, (e + 1)%Z. split.
      * rewrite decode_pack_normal by lia. unfold ebias. f_equal; lia.
      * split; [rewrite <- dyadic_shift; reflexivity|].
        split; [lia|]. split; [lia|]. split; [lia|].
        rewrite pow2_succ.
        change (inject_Z (2 ^ 113)) with (2 * inject_Z (2 ^ 112)). ring.
    + destruct (Z.leb_spec (2 ^ 112) m) as [Hnorm|Hsub].
      * specialize (Ho1 ltac:(lia)).
        destruct (Z.leb_spec 32767 (e + 16495)); [lia|].
        exists m, e.
        split; [|split; [reflexivity|]; repeat split; try lia; reflexivity].
        rewrite decode_pack_normal by lia. unfold ebias. f_equal; lia.
      * assert (e = -16494)%Z by lia. subst e.
        exists m, emin.
        split; [|split; [reflexivity|]; unfold emin; repeat split; try lia;
                 reflexivity].
        apply decode_pack_subnormal. lia.
Qed.


(** *** Properties of [RN] *)

Lemma Qabs_pos_nonzero q : ~ q == 0 -> 0 < Qabs q.
Proof.
  intros H. destruct (Qlt_le_dec q 0) as [L|G].
  - rewrite Qabs_neg by lra. lra.
  - rewrite Qabs_pos by exact G.
    destruct (Qeq_dec q 0) as [E|E]; [contradiction|]. lra.
Qed.

Lemma Qnum_neg_iff q : (Qnum q <? 0)%Z = true <-> q < 0.
Proof.
  destruct q as [n d]. unfold Qlt. cbn. rewrite Z.ltb_lt. lia.
Qed.

Lemma dyadic_abs q m e :
  Qabs q == inject_Z m * 2 ^ e -> dyadic (Qnum q <? 0)%Z m e == q.
Proof.
  intros E. rewrite dyadic_eq.
  destruct (Qnum q <? 0)%Z eqn:S.
  - apply Qnum_neg_iff in S. rewrite Qabs_neg in E by lra.
    rewrite inject_Z_opp. lra.
  - assert (~ q < 0) by (rewrite <- Qnum_neg_iff; congruence).
    rewrite Qabs_pos in E by lra. lra.
Qed.

Lemma Qabs_dyadic s m e : (0 <= m)%Z -> Qabs (dyadic s m e) == inject_Z m * 2 ^ e.
Proof.
  intros Hm. rewrite dyadic_eq, Qabs_Qmult.
  rewrite (Qabs_pos (2 ^ e)) by (apply Qlt_le_weak, pow2_pos).
  apply Qmult_comp; [|reflexivity].
  assert (0 <= inject_Z m) by (rewrite <- (Zle_Qle 0); exact Hm).
  destruct s; [rewrite inject_Z_opp, Qabs_opp|]; apply Qabs_pos; assumption.
Qed.

Section Rounding.
Variable q : Q.
Hypothesis q_nonzero : ~ q == 0.

Let a := Qabs q.
Let e := Z.max (Qlog2 a - 112) emin.
Let n := round_half_even (a / 2 ^ e).

Lemma RN_unfold : RN q = encode (Qnum q <? 0)%Z n e.
Proof. reflexivity. Qed.

Lemma RN_exp_ge : (emin <= e)%Z.
Proof. subst e. lia. Qed.

Lemma RN_scaled_lt : a / 2 ^ e < 2 ^ 113.
Proof.
  destruct (Qlog2_spec a (Qabs_pos_nonzero q q_nonzero)) as (_ & B).
  pose proof (pow2_pos e) as P.
  apply Qlt_shift_div_r; [exact P|]. rewrite <- pow2_add.
  apply Qlt_le_trans with (1 := B). apply pow2_le. subst e. lia.
Qed.

Lemma RN_mant_range : (0 <= n <= 2 ^ 113)%Z.
Proof.
  pose proof RN_scaled_lt as U. pose proof (pow2_pos e) as P.
  pose proof (Qabs_pos_nonzero q q_nonzero) as A. fold a in A.
  split.
  - apply round_half_even_ge. apply Qle_shift_div_l; [exact P|].
    change (inject_Z 0) with 0. lra.
  - apply round_half_even_le. rewrite pow2_inject by lia. lra.
Qed.

Lemma RN_mant_normal : (emin < e)%Z -> (2 ^ 112 <= n)%Z.
Proof.
  intros He.
  destruct (Qlog2_spec a (Qabs_pos_nonzero q q_nonzero)) as (B & _).
  pose proof (pow2_pos e) as P.
  apply round_half_even_ge. rewrite pow2_inject by lia.
  apply Qle_shift_div_l; [exact P|]. rewrite <- pow2_add.
  apply Qle_trans with (2 := B). apply pow2_le. subst e. lia.
Qed.

(** A magnitude of the form [N * 2^E] with at most 113 bits is kept. *)
Lemma RN_exact N E :
  a == inject_Z N * 2 ^ E -> (0 < N < 2 ^ 113)%Z ->
  (emin <= E <= 16271)%Z ->
  is_finite (RN q) = true /\ Qval (RN q) == q.
Proof.
  intros Ea HN HE.
  destruct (Qlog2_spec a (Qabs_pos_nonzero q q_nonzero)) as (B & _).
  pose proof (pow2_pos e) as P. pose proof (pow2_pos E) as PE.
  assert (HL : (Qlog2 a < 113 + E)%Z).
  { apply pow2_lt_inv. apply Qle_lt_trans with (1 := B).
    rewrite Ea, pow2_add. apply Qmult_lt_compat_r; [exact PE|].
    rewrite <- pow2_inject by lia. rewrite <- Zlt_Qlt. lia. }
  assert (HeE : (e <= E)%Z) by (subst e; unfold emin in *; lia).
  assert (Es : a / 2 ^ e == inject_Z (N * 2 ^ (E - e))).
  { rewrite inject_Z_mult, pow2_inject by lia.
    rewrite pow2_sub, Ea. field. lra. }
  assert (En : n = (N * 2 ^ (E - e))%Z).
  { subst n. apply round_half_even_Z. exact Es. }
  assert (Hn : (n < 2 ^ 113)%Z).
  { rewrite Zlt_Qlt, En, <- Es, pow2_inject by lia.
    exact RN_scaled_lt. }
  pose proof RN_mant_range as R. pose proof RN_mant_normal as Nm.
  destruct (encode_val (Qnum q <? 0)%Z n e) as (m' & e' & D & V & _);
    try lia; try exact RN_exp_ge.
  rewrite RN_unfold. unfold is_finite, Qval. rewrite D.
  split; [reflexivity|]. rewrite V.
  apply dyadic_abs. fold a. rewrite En, <- Es. field. lra.
Qed.

(** Rounding does not cross a power of two. *)
Lemma RN_bound K :
  a <= 2 ^ K -> (emin <= K <= 16383)%Z ->
  is_finite (RN q) = true /\ Qabs (Qval (RN q)) <= 2 ^ K.
Proof.
  intros Ha HK.
  destruct (Qlog2_spec a (Qabs_pos_nonzero q q_nonzero)) as (B & _).
  pose proof (pow2_pos e) as P.
  assert (HL : (Qlog2 a <= K)%Z).
  { assert (2 ^ Qlog2 a < 2 ^ (K + 1)).
    { apply Qle_lt_trans with (2 ^ K); [lra|]. apply pow2_lt. lia. }
    apply pow2_lt_inv in H. lia. }
  assert (HeK : (e <= K)%Z) by (subst e; lia).
  assert (Hn : (n <= 2 ^ (K - e))%Z).
  { apply round_half_even_le. rewrite pow2_inject by lia.
    apply Qle_shift_div_r; [exact P|]. rewrite <- pow2_add.
    replace (K - e + e)%Z with K by lia. exact Ha. }
  pose proof RN_mant_range as R. pose proof RN_mant_normal as Nm.
  assert (Hpow : forall j, (2 ^ j <= 2 ^ (K - e) -> j <= K - e)%Z).
  { intros j Hj. destruct (Z.le_gt_cases j (K - e)) as [L|G]; [exact L|].
    apply (Z.pow_lt_mono_r 2) in G; lia. }
  assert (Hpow' : forall j, (2 ^ j <= n -> j <= K - e)%Z).
  { intros j Hj. apply Hpow. lia. }
  destruct (encode_val (Qnum q <? 0)%Z n e) as (m' & e' & D & V & _);
    try lia; try exact RN_exp_ge.
  - intros H. specialize (Hpow' 112%Z ltac:(lia)). lia.
  - intros H. specialize (Hpow' 113%Z ltac:(lia)). lia.
  - rewrite RN_unfold. unfold is_finite, Qval. rewrite D.
    split; [reflexivity|]. rewrite V, Qabs_dyadic by lia.
    apply Qle_trans with (inject_Z (2 ^ (K - e)) * 2 ^ e).
    + apply Qmult_le_compat_r; [|lra]. rewrite <- Zle_Qle. exact Hn.
    + rewrite pow2_inject by lia. rewrite <- pow2_add.
      replace (K - e + e)%Z with K by lia. apply Qle_refl.
Qed.

(** The rounded magnitude does not exceed a representable upper bound
    of the exact one; no overflow then. *)
Lemma RN_upper N2 E2 :
  a <= inject_Z N2 * 2 ^ E2 -> (0 < N2 < 2 ^ 113)%Z ->
  (emin <= E2 <= 16271)%Z ->
  inject_Z n * 2 ^ e <= inject_Z N2 * 2 ^ E2 /\
  ((2 ^ 112 <= n < 2 ^ 113)%Z -> (e <= 16271)%Z) /\
  (n = (2 ^ 113)%Z -> (e < 16271)%Z).
Proof.
  intros Ha HN HE.
  destruct (Qlog2_spec a (Qabs_pos_nonzero q q_nonzero)) as (B & _).
  pose proof (pow2_pos e) as P. pose proof (pow2_pos E2) as P2.
  assert (HN2 : inject_Z N2 < 2 ^ 113).
  { rewrite <- pow2_inject by lia. rewrite <- Zlt_Qlt. lia. }
  assert (HeE : (e <= E2)%Z).
  { destruct (Z.le_gt_cases e E2) as [L|G]; [exact L|exfalso].
    assert (e = Qlog2 a - 112)%Z by (subst e; lia).
    assert (C : inject_Z N2 * 2 ^ E2 < 2 ^ 113 * 2 ^ E2)
      by (apply Qmult_lt_compat_r; assumption).
    rewrite <- pow2_add in C.
    assert (D : 2 ^ (113 + E2) <= 2 ^ Qlog2 a) by (apply pow2_le; lia).
    lra. }
  assert (Hn : (n <= N2 * 2 ^ (E2 - e))%Z).
  { apply round_half_even_le. rewrite inject_Z_mult, pow2_inject by lia.
    apply Qle_shift_div_r; [exact P|].
    rewrite <- Qmult_assoc, <- pow2_add.
    replace (E2 - e + e)%Z with E2 by lia. exact Ha. }
  assert (V : inject_Z n * 2 ^ e <= inject_Z N2 * 2 ^ E2).
  { apply Qle_trans with (inject_Z (N2 * 2 ^ (E2 - e)) * 2 ^ e).
    - apply Qmult_le_compat_r; [|lra]. rewrite <- Zle_Qle. exact Hn.
    - rewrite inject_Z_mult, pow2_inject by lia.
      rewrite <- Qmult_assoc, <- pow2_add.
      replace (E2 - e + e)%Z with E2 by lia. apply Qle_refl. }
  assert (W : forall j, (2 ^ j <= n)%Z -> (0 <= j)%Z -> (j + e < 113 + E2)%Z).
  { intros j Hj Hj0. apply pow2_lt_inv.
    apply Qle_lt_trans with (inject_Z n * 2 ^ e).
    - rewrite pow2_add. apply Qmult_le_compat_r; [|lra].
      rewrite <- pow2_inject by lia. rewrite <- Zle_Qle. exact Hj.
    - apply Qle_lt_trans with (1 := V). rewrite pow2_add.
      apply Qmult_lt_compat_r; assumption. }
  split; [exact V|]. split.
  - intros Hn'. specialize (W 112%Z ltac:(lia) ltac:(lia)). lia.
  - intros Hn'. specialize (W 113%Z ltac:(lia) ltac:(lia)). lia.
Qed.

(** Nor does it fall below a representable lower bound. *)
Lemma RN_lower N1 E1 :
  inject_Z N1 * 2 ^ E1 <= a -> (0 < N1 < 2 ^ 113)%Z -> (emin <= E1)%Z ->
  inject_Z N1 * 2 ^ E1 <= inject_Z n * 2 ^ e.
Proof.
  intros Ha HN HE.
  destruct (Qlog2_spec a (Qabs_pos_nonzero q q_nonzero)) as (B & _).
  pose proof (pow2_pos e) as P. pose proof (pow2_pos E1) as P1.
  destruct (Z.le_gt_cases e E1) as [L|G].
  - assert (Hn : (N1 * 2 ^ (E1 - e) <= n)%Z).
    { apply round_half_even_ge. rewrite inject_Z_mult, pow2_inject by lia.
      apply Qle_shift_div_l; [exact P|].
      rewrite <- Qmult_assoc, <- pow2_add.
      replace (E1 - e + e)%Z with E1 by lia. exact Ha. }
    apply Qle_trans with (inject_Z (N1 * 2 ^ (E1 - e)) * 2 ^ e).
    + rewrite inject_Z_mult, pow2_inject by lia.
      rewrite <- Qmult_assoc, <- pow2_add.
      replace (E1 - e + e)%Z with E1 by lia. apply Qle_refl.
    + apply Qmult_le_compat_r; [|lra]. rewrite <- Zle_Qle. exact Hn.
  - assert (He : e = (Qlog2 a - 112)%Z) by (subst e; lia).
    pose proof (RN_mant_normal ltac:(lia)) as Nm.
    assert (HN1 : inject_Z N1 < 2 ^ 113).
    { rewrite <- pow2_inject by lia. rewrite <- Zlt_Qlt. lia. }
    assert (C : inject_Z N1 * 2 ^ E1 < 2 ^ 113 * 2 ^ E1)
      by (apply Qmult_lt_compat_r; assumption).
    rewrite <- pow2_add in C.
    assert (D : 2 ^ (113 + E1) <= 2 ^ (112 + e)) by (apply pow2_le; lia).
    assert (F : 2 ^ 112 * 2 ^ e <= inject_Z n * 2 ^ e).
    { apply Qmult_le_compat_r; [|lra].
      rewrite <- pow2_inject by lia. rewrite <- Zle_Qle. exact Nm. }
    rewrite <- pow2_add in F. lra.
Qed.

(** Rounding keeps the magnitude between representable bounds. *)
Lemma RN_between N1 E1 N2 E2 :
  inject_Z N1 * 2 ^ E1 <= a -> a <= inject_Z N2 * 2 ^ E2 ->
  (0 < N1 < 2 ^ 113)%Z -> (emin <= E1)%Z ->
  (0 < N2 < 2 ^ 113)%Z -> (emin <= E2 <= 16271)%Z ->
  exists m' e',
    decode (RN q) = V_fin (Qnum q <? 0)%Z m' e' /\
    (0 < m' < 2 ^ 113)%Z /\ (emin <= e' <= 16271)%Z /\
    inject_Z N1 * 2 ^ E1 <= inject_Z m' * 2 ^ e' /\
    inject_Z m' * 2 ^ e' <= inject_Z N2 * 2 ^ E2.
Proof.
  intros Lo Hi HN1 HE1 HN2 HE2.
  destruct (RN_upper N2 E2 Hi HN2 HE2) as (U & O1 & O2).
  pose proof (RN_lower N1 E1 Lo HN1 HE1) as Lw.
  pose proof RN_mant_range as R. pose proof RN_mant_normal as Nm.
  pose proof (pow2_pos e) as P. pose proof (pow2_pos E1) as P1.
  assert (Hn : (0 < n)%Z).
  { destruct (Z.lt_ge_cases 0 n) as [L|G]; [exact L|exfalso].
    assert (n = 0)%Z by lia.
    assert (Z1 : 0 < inject_Z N1) by (rewrite <- (Zlt_Qlt 0); lia).
    assert (Z2 : 0 < inject_Z N1 * 2 ^ E1) by (apply Qmult_lt_0_compat; assumption).
    rewrite H in Lw. change (inject_Z 0) with 0 in Lw. lra. }
  destruct (encode_val (Qnum q <? 0)%Z n e R RN_exp_ge Nm O1 O2)
    as (m' & e' & D & _ & Rm & Re & Pm & V).
  exists m', e'. rewrite RN_unfold.
  split; [exact D|]. split; [lia|]. split; [exact Re|].
  rewrite V. split; assumption.
Qed.
End Rounding.

Lemma RN_comp q r : ~ q == 0 -> q == r -> RN q = RN r.
Proof.
  intros Hq E. unfold RN.
  assert (S : (Qnum q <? 0)%Z = (Qnum r <? 0)%Z).
  { apply eq_true_iff_eq. rewrite !Qnum_neg_iff, E. reflexivity. }
  assert (A : Qabs q == Qabs r) by (rewrite E; reflexivity).
  rewrite S, (Qlog2_comp _ _ (Qabs_pos_nonzero q Hq) A).
  f_equal. apply round_half_even_comp. rewrite A. reflexivity.
Qed.

Close Scope Q_scope.

(** ** [__frexpl], the table index and the realignment *)

(** [ring] on equations whose atoms are powers of two. *)
Ltac pow_ring :=
  repeat match goal with
  | |- context [(2 ^ ?k)%Q] =>
      let v := fresh "pw" in generalize (2 ^ k)%Q; intro v
  | |- context [inject_Z ?z] =>
      let v := fresh "iz" in generalize (inject_Z z); intro v
  end; ring.

(** *** Values of finite patterns *)

Lemma Qval_pack_normal s be m :
  0 < be < 32767 -> 0 <= m < 2 ^ 112 ->
  Qval (pack s be m) = dyadic s (2 ^ 112 + m) (be - ebias).
Proof.
  intros Hbe Hm. unfold Qval. rewrite decode_pack_normal by lia. reflexivity.
Qed.


(** *** [__frexpl] splits a positive finite number *)

Lemma frexpl_spec x u e :
  pos_finite x -> __frexpl x = (u, e) ->
  exists M, 0 <= M < 2 ^ 112 /\ u = pack false 16382 M /\
            (Qval x == 2 ^ e * dyadic false (2 ^ 112 + M) (-113))%Q.
Proof.
  intros (Hx & Hs & He & Hz) F. unfold __frexpl in F.
  pose proof (biased_exp_range x) as Be.
  pose proof (mantissa_range x Hx) as Bm.
  destruct (Z.eqb_spec (biased_exp x) 32767); [contradiction|].
  cbn [orb] in F.
  destruct (Z.eqb_spec (biased_exp x) 0) as [E0|E0].
  - destruct (Z.eqb_spec (mantissa x) 0) as [M0|M0].
    { exfalso. apply Hz. split; assumption. }
    cbn [andb] in F.
    apply (f_equal fst) in F as Fu. apply (f_equal snd) in F as Fe.
    cbn [fst snd] in Fu, Fe. clear F. rewrite Hs in Fu.
    set (p := Z.log2 (mantissa x) + 1) in *.
    assert (Hp : 1 <= p <= 112).
    { subst p. pose proof (Z.log2_nonneg (mantissa x)).
      assert (Z.log2 (mantissa x) < 112) by (apply Z.log2_lt_pow2; lia). lia. }
    assert (Hm : 2 ^ 112 <= mantissa x * 2 ^ (113 - p) < 2 ^ 113).
    { destruct (Z.log2_spec (mantissa x) ltac:(lia)) as (A & B).
      replace (Z.succ (Z.log2 (mantissa x))) with p in B by (subst p; lia).
      replace (Z.log2 (mantissa x)) with (p - 1) in A by (subst p; lia).
      assert (P : 0 < 2 ^ (113 - p)) by (apply Z.pow_pos_nonneg; lia).
      replace (2 ^ 112) with (2 ^ (p - 1) * 2 ^ (113 - p))
        by (rewrite <- Z.pow_add_r by lia; f_equal; lia).
      replace (2 ^ 113) with (2 ^ p * 2 ^ (113 - p))
        by (rewrite <- Z.pow_add_r by lia; f_equal; lia).
      split; [apply Z.mul_le_mono_nonneg_r | apply Z.mul_lt_mono_pos_r]; lia. }
    exists (mantissa x * 2 ^ (113 - p) - 2 ^ 112). split; [lia|].
    split; [symmetry; exact Fu|].
    unfold Qval, decode. rewrite E0. cbn [Z.eqb].
    rewrite Hs. rewrite !dyadic_eq. unfold emin.
    replace (2 ^ 112 + (mantissa x * 2 ^ (113 - p) - 2 ^ 112))
      with (mantissa x * 2 ^ (113 - p)) by lia.
    rewrite inject_Z_mult, pow2_inject by lia. rewrite <- Fe.
    replace (-16494) with ((p - 16494) + ((113 - p) + -113)) at 1 by lia.
    rewrite !pow2_add. pow_ring.
  - cbn [andb] in F.
    apply (f_equal fst) in F as Fu. apply (f_equal snd) in F as Fe.
    cbn [fst snd] in Fu, Fe. clear F. rewrite Hs in Fu.
    exists (mantissa x). split; [lia|]. split; [symmetry; exact Fu|].
    unfold Qval, decode.
    destruct (Z.eqb_spec (biased_exp x) 32767); [contradiction|].
    destruct (Z.eqb_spec (biased_exp x) 0); [contradiction|].
    rewrite Hs. rewrite !dyadic_eq. unfold ebias. rewrite <- Fe.
    replace (biased_exp x - 16495) with ((biased_exp x - 16382) + -113) by lia.
    rewrite pow2_add. pow_ring.
Qed.

(** The words of the significand [__frexpl] returns. *)
Lemma significand_words M :
  0 <= M < 2 ^ 112 ->
  w0 (pack false 16382 M) = 0x3ffe0000 + M / 2 ^ 96 /\
  0 <= M / 2 ^ 96 < 2 ^ 16.
Proof.
  intros HM. unfold pack. cbn [w0]. split; [reflexivity|]. divlia.
Qed.

Lemma realign_pack M :
  0 <= M < 2 ^ 112 ->
  set_w0 (pack false 16382 M) (w0 (pack false 16382 M) + 0x10000)
  = pack false 16383 M /\
  u32 (w0 (pack false 16382 M) + 0x10000) = w0 (pack false 16382 M) + 0x10000.
Proof.
  intros HM. destruct (significand_words M HM) as (W & B).
  unfold set_w0, u32. rewrite W.
  assert (E : (0x3ffe0000 + M / 2 ^ 96 + 0x10000) mod 2 ^ 32
              = 0x3ffe0000 + M / 2 ^ 96 + 0x10000).
  { apply Z.mod_small. divlia. }
  rewrite E. split; [|reflexivity].
  unfold pack. cbn [w0 w1 w2 w3]. f_equal. lia.
Qed.


(** The table argument [t] assembled in word 0. *)
Lemma grid_pack be j :
  0 <= be < 2 ^ 15 -> 0 <= j < 2 ^ 16 ->
  mk_parts32 (u32 (be * 2 ^ 16 + j)) 0 0 0 = pack false be (j * 2 ^ 96).
Proof.
  intros Hbe Hj. unfold pack, u32. f_equal; divlia.
Qed.


Lemma significand_word_pack M :
  0 <= M < 2 ^ 112 ->
  significand_word (pack false 16382 M) = M / 2 ^ 96 + 2 ^ 16.
Proof.
  intros HM. destruct (significand_words M HM) as (W & B).
  unfold significand_word. rewrite land_low16, W.
  replace ((0x3ffe0000 + M / 2 ^ 96) mod 2 ^ 16) with (M / 2 ^ 96) by divlia.
  apply lor_bit16. exact B.
Qed.

(** What lines 221-241 compute from the significand [pack false 16382 M]:
    in the fine tier the significand is realigned to [1, 1.40625) and
    [t = 1 + k0/128]; in the coarse tier [t = 1/2 + k/128].  In both the
    significand is within 1/256 of [t]. *)
Lemma table_index_spec M e k t u' e' :
  0 <= M < 2 ^ 112 ->
  table_index (pack false 16382 M) e = (k, t, u', e') ->
  (significand_word (pack false 16382 M) < 0x16800 /\
   u' = pack false 16383 M /\ e' = e - 1 /\ 64 <= k <= 116 /\
   t = pack false 16383 ((k - 64) * 2 ^ 105) /\
   - 2 ^ 104 <= M - (k - 64) * 2 ^ 105 < 2 ^ 104)
  \/
  (0x16800 <= significand_word (pack false 16382 M) /\
   u' = pack false 16382 M /\ e' = e /\ 26 <= k <= 64 /\
   t = (if k =? 64 then pack false 16383 0
        else pack false 16382 (k * 2 ^ 106)) /\
   - 2 ^ 105 <= M - k * 2 ^ 106 < 2 ^ 105).
Proof.
  intros HM T. pose proof (significand_word_pack M HM) as Em.
  destruct (significand_words M HM) as (W & B).
  unfold table_index in T.
  set (m := significand_word (pack false 16382 M)) in *.
  destruct (realign_pack M HM) as (R & _).
  unfold u32 in T. rewrite !Z.shiftr_div_pow2, !Z.shiftl_mul_pow2 in T by lia.
  destruct (Z.ltb_spec m 0x16800) as [Hlt|Hge].
  - left.
    apply (f_equal (fun p => fst (fst (fst p)))) in T as Tk.
    apply (f_equal (fun p => snd (fst (fst p)))) in T as Tt.
    apply (f_equal (fun p => snd (fst p))) in T as Tu.
    apply (f_equal snd) in T as Te. cbn [fst snd] in Tk, Tt, Tu, Te. clear T.
    set (k0 := (m - 65280) mod 2 ^ 32 / 2 ^ 9) in *.
    assert (Hk0 : k0 = (M / 2 ^ 96 + 256) / 512) by (subst k0; divlia).
    assert (Bk0 : 0 <= k0 <= 52) by divlia.
    split; [exact Hlt|]. split; [rewrite <- Tu; exact R|].
    split; [lia|]. split; [lia|]. split.
    + rewrite <- Tt, <- Tk.
      replace (1073676288 + k0 * 2 ^ 9) with (16383 * 2 ^ 16 + k0 * 512) by lia.
      fold (u32 (16383 * 2 ^ 16 + k0 * 512)).
      rewrite grid_pack by lia. f_equal. lia.
    + rewrite <- Tk. replace (k0 + 64 - 64) with k0 by lia. divlia.
  - right.
    apply (f_equal (fun p => fst (fst (fst p)))) in T as Tk.
    apply (f_equal (fun p => snd (fst (fst p)))) in T as Tt.
    apply (f_equal (fun p => snd (fst p))) in T as Tu.
    apply (f_equal snd) in T as Te. cbn [fst snd] in Tk, Tt, Tu, Te. clear T.
    assert (Hk : k = (M / 2 ^ 96 + 512) / 1024) by (subst k; divlia).
    assert (Bk : 26 <= k <= 64) by divlia.
    split; [exact Hge|]. split; [congruence|]. split; [congruence|].
    split; [lia|]. split; [|divlia].
    rewrite <- Tt. destruct (Z.eqb_spec k 64) as [K|K].
    + replace ((m - 65024) mod 2 ^ 32 / 2 ^ 10) with 64 by lia. reflexivity.
    + rewrite Tk.
      replace (1073610752 + k * 2 ^ 10) with (16382 * 2 ^ 16 + k * 1024) by lia.
      fold (u32 (16382 * 2 ^ 16 + k * 1024)).
      rewrite grid_pack by lia. f_equal. lia.
Qed.

(** A literal power of two in [Q], evaluated. *)
Ltac eval_pow2 k :=
  let v := eval vm_compute in (2 ^ k)%Q in change (2 ^ k)%Q with v in *.

Lemma significand_range M :
  0 <= M < 2 ^ 112 ->
  (1 # 2 <= dyadic false (2 ^ 112 + M) (-113) < 1)%Q.
Proof.
  intros HM. rewrite dyadic_eq.
  assert (A : (inject_Z (2 ^ 112) <= inject_Z (2 ^ 112 + M))%Q)
    by (rewrite <- Zle_Qle; lia).
  assert (B : (inject_Z (2 ^ 112 + M) < inject_Z (2 ^ 113))%Q)
    by (rewrite <- Zlt_Qlt; lia).
  revert A B. generalize (inject_Z (2 ^ 112 + M)). intros q A B.
  eval_pow2 (-113). norm_pow. unfold inject_Z in *. lra.
Qed.

(** Claim C10.  In the fine tier (significand word below 0x16800) the
    update [u.parts32.w0 += 0x10000] doubles [u.value]: [__frexpl] returns a
    significand in [0.5, 1) whose biased exponent field is 0x3ffe, the
    addition does not wrap and only moves that field to 0x3fff (sign and
    mantissa are kept), and together with [e -= 1] the relation
    [x = 2^e * u.value] is preserved. *)
Theorem realignment_doubles_significand x u e k t u' e' :
  pos_finite x -> __frexpl x = (u, e) ->
  significand_word u < 0x16800 ->
  table_index u e = (k, t, u', e') ->
  biased_exp u = 0x3ffe /\ (1 # 2 <= Qval u < 1)%Q /\
  u' = set_w0 u (w0 u + 0x10000) /\ w0 u' = w0 u + 0x10000 /\
  sign_bit u' = sign_bit u /\ mantissa u' = mantissa u /\
  biased_exp u' = 0x3fff /\
  (Qval u' == 2 * Qval u)%Q /\ e' = e - 1 /\
  (Qval x == 2 ^ e * Qval u)%Q /\ (Qval x == 2 ^ e' * Qval u')%Q.
Proof.
  intros Hx F Hm T.
  destruct (frexpl_spec x u e Hx F) as (M & HM & -> & V).
  destruct (table_index_spec M e k t u' e' HM T)
    as [(_ & -> & -> & _) | (Hge & _)]; [|lia].
  destruct (realign_pack M HM) as (R & W).
  assert (Vu : Qval (pack false 16382 M) = dyadic false (2 ^ 112 + M) (-113)).
  { rewrite Qval_pack_normal by lia. reflexivity. }
  assert (Vu' : Qval (pack false 16383 M) = dyadic false (2 ^ 112 + M) (-112)).
  { rewrite Qval_pack_normal by lia. reflexivity. }
  assert (D : (dyadic false (2 ^ 112 + M) (-112)
               == 2 * dyadic false (2 ^ 112 + M) (-113))%Q).
  { rewrite !dyadic_eq. change (-112) with (-113 + 1). rewrite pow2_succ.
    pow_ring. }
  rewrite Vu, Vu'.
  split; [apply biased_exp_pack; lia|].
  split; [apply significand_range; exact HM|].
  split; [symmetry; exact R|].
  split; [rewrite <- R; unfold set_w0; cbn [w0]; exact W|].
  split; [rewrite !sign_bit_pack by lia; reflexivity|].
  split; [rewrite !mantissa_pack by lia; reflexivity|].
  split; [apply biased_exp_pack; lia|].
  split; [exact D|]. split; [reflexivity|]. split; [exact V|].
  rewrite V, D. replace e with (e - 1 + 1) at 1 by lia.
  rewrite pow2_succ. pow_ring.
Qed.

(** ** Range reduction *)

Lemma decode_Qval x s m e : decode x = V_fin s m e -> Qval x = dyadic s m e.
Proof. intros D. unfold Qval. rewrite D. reflexivity. Qed.

Lemma decode_zero s : decode (zero s) = V_fin s 0 emin.
Proof. apply decode_pack_subnormal. lia. Qed.

Lemma Qval_zero s : (Qval (zero s) == 0)%Q.
Proof. rewrite (decode_Qval _ _ _ _ (decode_zero s)). apply dyadic_zero. Qed.

Lemma Qeq_bool_false q : Qeq_bool q 0 = false -> ~ (q == 0)%Q.
Proof. intros H E. apply Qeq_bool_iff in E. congruence. Qed.


Lemma Qabs_inject_mul N E :
  (Qabs (inject_Z N * 2 ^ E) == inject_Z (Z.abs N) * 2 ^ E)%Q.
Proof.
  rewrite Qabs_Qmult.
  rewrite (Qabs_pos (2 ^ E)) by (apply Qlt_le_weak, pow2_pos). reflexivity.
Qed.

Lemma inject_mul_zero N E : (inject_Z N * 2 ^ E == 0)%Q -> N = 0.
Proof.
  intros H. pose proof (pow2_pos E) as P.
  destruct (Z.eq_dec N 0) as [->|Hn]; [reflexivity|exfalso].
  apply Qmult_integral in H. destruct H as [H|H]; [|lra].
  apply Hn. apply (inject_Z_injective N 0). exact H.
Qed.

(** A subtraction whose exact result has at most 113 bits is exact. *)
Lemma fsub_exact x y N E :
  is_finite x = true -> is_finite y = true ->
  (Qval x - Qval y == inject_Z N * 2 ^ E)%Q ->
  Z.abs N < 2 ^ 113 -> emin <= E <= 16271 ->
  is_finite (fsub x y) = true /\ (Qval (fsub x y) == Qval x - Qval y)%Q.
Proof.
  unfold is_finite at 1 2.
  destruct (decode x) as [| |s1 m1 e1] eqn:Dx; try discriminate.
  destruct (decode y) as [| |s2 m2 e2] eqn:Dy; try discriminate.
  intros _ _ V HN HE.
  rewrite (decode_Qval _ _ _ _ Dx), (decode_Qval _ _ _ _ Dy) in *.
  unfold fsub. rewrite Dx, Dy.
  set (r := (dyadic s1 m1 e1 - dyadic s2 m2 e2)%Q) in *.
  destruct (Qeq_bool r 0) eqn:Z0.
  - apply Qeq_bool_iff in Z0.
    unfold is_finite. rewrite decode_zero, Qval_zero, Z0.
    split; reflexivity.
  - apply Qeq_bool_false in Z0.
    assert (N <> 0).
    { intros ->. apply Z0. rewrite V. ring. }
    destruct (RN_exact r Z0 (Z.abs N) E) as (F & W); try lia.
    + rewrite V. apply Qabs_inject_mul.
    + tauto.
Qed.

(** On positive finite operands subtraction rounds the exact difference. *)
Lemma fsub_positive x y m1 e1 m2 e2 :
  decode x = V_fin false m1 e1 -> decode y = V_fin false m2 e2 ->
  fsub x y = round_to_nearest (Qval x - Qval y).
Proof.
  intros Dx Dy. unfold fsub, round_to_nearest, Qval. rewrite Dx, Dy.
  reflexivity.
Qed.

(** A quotient of finite numbers is rounded; it stays within a power of
    two that bounds the exact quotient. *)
Lemma fdiv_bound x y s1 m1 e1 m2 e2 K :
  decode x = V_fin s1 m1 e1 -> decode y = V_fin false m2 e2 ->
  m1 <> 0 -> m2 <> 0 ->
  (Qabs (Qval x / Qval y) <= 2 ^ K)%Q -> emin <= K <= 16383 ->
  fdiv x y = RN (Qval x / Qval y) /\ ~ (Qval x / Qval y == 0)%Q /\
  is_finite (fdiv x y) = true /\ (Qabs (Qval (fdiv x y)) <= 2 ^ K)%Q.
Proof.
  intros Dx Dy H1 H2 B HK. unfold fdiv, Qval in *. rewrite Dx, Dy in *.
  destruct (Z.eqb_spec m2 0); [contradiction|].
  destruct (Z.eqb_spec m1 0); [contradiction|].
  assert (NZ : ~ (dyadic s1 m1 e1 / dyadic false m2 e2 == 0)%Q).
  { intros E. apply Qmult_integral in E.
    pose proof (pow2_pos e1). pose proof (pow2_pos e2).
    destruct E as [E|E].
    - rewrite dyadic_eq in E. apply inject_mul_zero in E. destruct s1; lia.
    - assert (E' : (dyadic false m2 e2 == 0)%Q).
      { rewrite <- (Qinv_involutive (dyadic false m2 e2)), E. reflexivity. }
      rewrite dyadic_eq in E'. apply inject_mul_zero in E'. lia. }
  split; [reflexivity|]. split; [exact NZ|].
  apply RN_bound; assumption.
Qed.

Lemma round_to_nearest_comp q r :
  (q == r)%Q -> round_to_nearest q = round_to_nearest r.
Proof.
  intros E. unfold round_to_nearest.
  destruct (Qeq_bool q 0) eqn:A; destruct (Qeq_bool r 0) eqn:B.
  - reflexivity.
  - apply Qeq_bool_iff in A. apply Qeq_bool_false in B.
    exfalso. apply B. rewrite <- E. exact A.
  - apply Qeq_bool_iff in B. apply Qeq_bool_false in A.
    exfalso. apply A. rewrite E. exact B.
  - apply RN_comp; [apply Qeq_bool_false; exact A | exact E].
Qed.

Lemma ratio_bound N T :
  0 < T -> Z.abs N * 128 <= T ->
  (Qabs (inject_Z N / inject_Z T) <= 1 # 128)%Q.
Proof.
  intros HT HN.
  assert (P : (0 < inject_Z T)%Q) by (rewrite <- (Zlt_Qlt 0); exact HT).
  unfold Qdiv. rewrite Qabs_Qmult, Qabs_Qinv, (Qabs_pos (inject_Z T)) by lra.
  apply Qle_shift_div_r; [exact P|].
  change (Qabs (inject_Z N)) with (inject_Z (Z.abs N)).
  assert (B : (inject_Z (Z.abs N * 128) <= inject_Z T)%Q)
    by (rewrite <- Zle_Qle; exact HN).
  rewrite inject_Z_mult in B. change (inject_Z 128) with (128 # 1)%Q in B.
  lra.
Qed.

(** The reduced argument of the general path: [t] and [u] are positive
    with significands [T] and [U] on a common exponent [E], and [u] is
    within [t/128] of [t]. *)
Lemma reduced_argument u t U T E mu eu mt et :
  decode u = V_fin false mu eu -> decode t = V_fin false mt et ->
  (Qval u == inject_Z U * 2 ^ E)%Q -> (Qval t == inject_Z T * 2 ^ E)%Q ->
  0 < T -> Z.abs (U - T) * 128 <= T -> Z.abs (U - T) < 2 ^ 113 ->
  emin <= E <= 16271 ->
  fdiv (fsub u t) t = round_to_nearest ((Qval u - Qval t) / Qval t) /\
  (Qabs ((Qval u - Qval t) / Qval t) <= 1 # 128)%Q /\
  is_finite (fdiv (fsub u t) t) = true /\
  (Qabs (Qval (fdiv (fsub u t) t)) <= 1 # 128)%Q.
Proof.
  intros Du Dt Vu Vt HT HB HU HE.
  assert (Fu : is_finite u = true) by (unfold is_finite; rewrite Du; reflexivity).
  assert (Ft : is_finite t = true) by (unfold is_finite; rewrite Dt; reflexivity).
  pose proof (pow2_pos E) as PE.
  assert (PT : (0 < inject_Z T)%Q) by (rewrite <- (Zlt_Qlt 0); exact HT).
  assert (Vd : (Qval u - Qval t == inject_Z (U - T) * 2 ^ E)%Q).
  { rewrite Vu, Vt. unfold Z.sub. rewrite inject_Z_plus, inject_Z_opp. ring. }
  assert (Vq : ((Qval u - Qval t) / Qval t == inject_Z (U - T) / inject_Z T)%Q).
  { rewrite Vd, Vt. field. split; lra. }
  assert (Bq : (Qabs ((Qval u - Qval t) / Qval t) <= 1 # 128)%Q).
  { rewrite Vq. apply ratio_bound; assumption. }
  destruct (fsub_exact u t (U - T) E Fu Ft Vd) as (Fd & Wd); try lia.
  pose proof (fsub_positive u t mu eu mt et Du Dt) as Ed.
  assert (Mt : mt <> 0).
  { intros ->. rewrite (decode_Qval _ _ _ _ Dt), dyadic_zero in Vt.
    symmetry in Vt. apply inject_mul_zero in Vt. lia. }
  split; [|split; [exact Bq|]].
  - unfold round_to_nearest in Ed.
    destruct (Qeq_bool (Qval u - Qval t) 0) eqn:Z0.
    + apply Qeq_bool_iff in Z0. rewrite Ed.
      unfold fdiv. rewrite decode_zero, Dt.
      destruct (Z.eqb_spec mt 0); [contradiction|]. cbn.
      unfold round_to_nearest.
      replace (Qeq_bool ((Qval u - Qval t) / Qval t) 0) with true;
        [reflexivity|].
      symmetry. apply Qeq_bool_iff. rewrite Z0. unfold Qdiv. ring.
    + apply Qeq_bool_false in Z0.
      unfold is_finite in Fd.
      destruct (decode (fsub u t)) as [| |sd md ed] eqn:Dd; try discriminate.
      assert (Md : md <> 0).
      { intros ->. apply Z0. rewrite <- Wd, (decode_Qval _ _ _ _ Dd).
        apply dyadic_zero. }
      destruct (fdiv_bound (fsub u t) t sd md ed mt et (-7) Dd Dt Md Mt)
        as (Ez & NZ & _); [|unfold emin; lia|].
      * rewrite Wd. exact Bq.
      * rewrite Ez. unfold round_to_nearest.
        replace (Qeq_bool ((Qval u - Qval t) / Qval t) 0) with false.
        -- apply RN_comp; [exact NZ | rewrite Wd; reflexivity].
        -- symmetry. destruct (Qeq_bool _ 0) eqn:C; [|reflexivity].
           apply Qeq_bool_iff in C. exfalso. apply NZ. rewrite Wd. exact C.
  - unfold round_to_nearest in Ed.
    destruct (Qeq_bool (Qval u - Qval t) 0) eqn:Z0.
    + rewrite Ed. unfold fdiv. rewrite decode_zero, Dt.
      destruct (Z.eqb_spec mt 0); [contradiction|]. cbn [Z.eqb xorb].
      unfold is_finite. rewrite decode_zero, Qval_zero.
      split; [reflexivity | discriminate].
    + apply Qeq_bool_false in Z0.
      unfold is_finite in Fd.
      destruct (decode (fsub u t)) as [| |sd md ed] eqn:Dd; try discriminate.
      assert (Md : md <> 0).
      { intros ->. apply Z0. rewrite <- Wd, (decode_Qval _ _ _ _ Dd).
        apply dyadic_zero. }
      destruct (fdiv_bound (fsub u t) t sd md ed mt et (-7) Dd Dt Md Mt)
        as (_ & _ & Fz & Bz); [|unfold emin; lia|].
      * rewrite Wd. exact Bq.
      * split; [exact Fz | exact Bz].
Qed.

Lemma fle_finite x y sx mx ex sy my ey :
  decode x = V_fin sx mx ex -> decode y = V_fin sy my ey ->
  fle x y = true -> (Qval x <= Qval y)%Q.
Proof.
  intros Dx Dy. unfold fle, fcompare, Qval. rewrite Dx, Dy.
  destruct (Qcompare_spec (dyadic sx mx ex) (dyadic sy my ey)) as [E|L|G];
    intros H; try discriminate; lra.
Qed.


Lemma decode_one : decode one = V_fin false (2 ^ 112) (-112).
Proof. reflexivity. Qed.

Lemma Qval_one : (Qval one == 1)%Q.
Proof. reflexivity. Qed.

Lemma Qval_band_hi : (Qval band_hi == 129 # 128)%Q.
Proof. reflexivity. Qed.

Lemma Qval_band_lo : (Qval band_lo == 127 # 128)%Q.
Proof. reflexivity. Qed.

(** A positive finite pattern: its significand and exponent. *)
Lemma decode_pos_finite x :
  pos_finite x ->
  exists m e, decode x = V_fin false m e /\ 0 < m < 2 ^ 113 /\
              emin <= e <= 16271 /\ (emin < e -> 2 ^ 112 <= m).
Proof.
  intros (Hx & Hs & He & Hz).
  pose proof (biased_exp_range x) as Be.
  pose proof (mantissa_range x Hx) as Bm. unfold decode.
  destruct (Z.eqb_spec (biased_exp x) 32767); [contradiction|].
  rewrite Hs. unfold is_zero in Hz.
  destruct (Z.eqb_spec (biased_exp x) 0) as [E0|E0].
  - exists (mantissa x), emin. unfold emin.
    repeat split; try lia. 
  - exists (2 ^ 112 + mantissa x), (biased_exp x - ebias). unfold emin, ebias.
    repeat split; try lia.
Qed.

(** Inside [0.9921875, 1.0078125] the exponent is that of 1/2 or of 1. *)
Lemma band_exponent m e :
  0 < m < 2 ^ 113 -> (emin < e -> 2 ^ 112 <= m) ->
  (127 # 128 <= dyadic false m e <= 129 # 128)%Q ->
  e = -113 \/ e = -112.
Proof.
  intros Hm Hn (Lo & Hi). rewrite dyadic_eq in Lo, Hi.
  pose proof (pow2_pos e) as P.
  assert (A : (inject_Z m < 2 ^ 113)%Q).
  { rewrite <- pow2_inject by lia. rewrite <- Zlt_Qlt. lia. }
  assert (L : -113 <= e).
  { destruct (Z.le_gt_cases (-113) e) as [G|G]; [exact G|exfalso].
    assert (B : (inject_Z m * 2 ^ e < 2 ^ 113 * 2 ^ e)%Q)
      by (apply Qmult_lt_compat_r; assumption).
    rewrite <- pow2_add in B.
    assert (C : (2 ^ (113 + e) <= 2 ^ (-1))%Q) by (apply pow2_le; lia).
    change (2 ^ (-1))%Q with (1 # 2)%Q in C. lra. }
  assert (U : e <= -112).
  { destruct (Z.le_gt_cases e (-112)) as [G|G]; [exact G|exfalso].
    assert (M : (2 ^ 112 <= inject_Z m)%Q).
    { rewrite <- pow2_inject by lia. rewrite <- Zle_Qle.
      apply Hn. unfold emin. lia. }
    assert (B : (2 ^ 112 * 2 ^ e <= inject_Z m * 2 ^ e)%Q)
      by (apply Qmult_le_compat_r; lra).
    rewrite <- pow2_add in B.
    assert (C : (2 ^ 1 <= 2 ^ (112 + e))%Q) by (apply pow2_le; lia).
    change (2 ^ 1)%Q with 2%Q in C. lra. }
  lia.
Qed.

(** The reduced argument of the interval around 1 is exact. *)
Lemma band_argument x :
  pos_finite x -> fle x band_hi = true -> fge x band_lo = true ->
  feq x one = false ->
  fsub x one = round_to_nearest (Qval x - 1) /\
  is_finite (fsub x one) = true /\
  (Qval (fsub x one) == Qval x - 1)%Q /\
  (Qabs (Qval x - 1) <= 1 # 128)%Q.
Proof.
  intros Hx Hhi Hlo Hne.
  destruct (decode_pos_finite x Hx) as (m & e & D & Hm & He & Hn).
  apply (fle_finite x band_hi _ _ _ false _ _ D eq_refl) in Hhi.
  unfold fge in Hlo.
  apply (fle_finite band_lo x false _ _ _ _ _ eq_refl D) in Hlo.
  rewrite Qval_band_hi in Hhi. rewrite Qval_band_lo in Hlo.
  assert (Fx : is_finite x = true) by (unfold is_finite; rewrite D; reflexivity).
  assert (B : (Qabs (Qval x - 1) <= 1 # 128)%Q).
  { apply Qabs_Qle_condition. lra. }
  assert (X : exists N E, (Qval x - Qval one == inject_Z N * 2 ^ E)%Q /\
                          Z.abs N < 2 ^ 113 /\ emin <= E <= 16271).
  { rewrite (decode_Qval _ _ _ _ D) in *.
    destruct (band_exponent m e Hm Hn (conj Hlo Hhi)) as [-> | ->].
    - exists (m - 2 ^ 113), (-113). split; [|unfold emin; lia].
      rewrite Qval_one, dyadic_eq. unfold Z.sub.
      rewrite inject_Z_plus, inject_Z_opp.
      change (inject_Z (2 ^ 113)) with (/ 2 ^ (-113))%Q.
      generalize (inject_Z m). intros q. field. discriminate.
    - exists (m - 2 ^ 112), (-112). split; [|unfold emin; lia].
      rewrite Qval_one, dyadic_eq. unfold Z.sub.
      rewrite inject_Z_plus, inject_Z_opp.
      change (inject_Z (2 ^ 112)) with (/ 2 ^ (-112))%Q.
      generalize (inject_Z m). intros q. field. discriminate. }
  destruct X as (N & E & V & HN & HE).
  destruct (fsub_exact x one N E Fx eq_refl V HN HE) as (Fz & Wz).
  split.
  - rewrite (fsub_positive x one m e _ _ D decode_one).
    apply round_to_nearest_comp. rewrite Qval_one. reflexivity.
  - split; [exact Fz|]. split; [|exact B]. rewrite Wz, Qval_one. reflexivity.
Qed.

Lemma grid_value T k E :
  T = (64 + k) * 2 ^ (- E - 7) -> -113 <= E <= -112 ->
  (inject_Z T * 2 ^ E == (1 # 2) + inject_Z k / 128)%Q.
Proof.
  intros -> HE. rewrite inject_Z_mult, inject_Z_plus, pow2_inject by lia.
  rewrite <- Qmult_assoc, <- pow2_add.
  replace (- E - 7 + E) with (-7) by lia.
  change (2 ^ (-7))%Q with (1 # 128)%Q. change (inject_Z 64) with (64 # 1)%Q.
  generalize (inject_Z k). intros q. field.
Qed.

(** General path: the facts range reduction establishes about
    [u], [t], [e] and [k]. *)
Lemma general_reduction x u e k t u' e' :
  pos_finite x -> __frexpl x = (u, e) -> table_index u e = (k, t, u', e') ->
  26 <= k <= 116 /\
  (Qval t == (1 # 2) + inject_Z k / 128)%Q /\
  (Qval x == 2 ^ e' * Qval u')%Q /\ (0 < Qval t)%Q /\
  fdiv (fsub u' t) t = round_to_nearest ((Qval u' - Qval t) / Qval t) /\
  (Qabs ((Qval u' - Qval t) / Qval t) <= 1 # 128)%Q /\
  is_finite (fdiv (fsub u' t) t) = true /\
  (Qabs (Qval (fdiv (fsub u' t) t)) <= 1 # 128)%Q.
Proof.
  intros Hx F T.
  destruct (frexpl_spec x u e Hx F) as (M & HM & -> & V).
  assert (Pk : forall j, 26 <= j -> (0 < (1 # 2) + inject_Z j / 128)%Q).
  { intros j Hj. assert (A : (inject_Z 26 <= inject_Z j)%Q)
      by (rewrite <- Zle_Qle; exact Hj).
    change (inject_Z 26) with (26 # 1)%Q in A.
    unfold Qdiv. change (/ 128)%Q with (1 # 128)%Q. lra. }
  destruct (table_index_spec M e k t u' e' HM T)
    as [(_ & -> & -> & Hk & -> & B) | (_ & -> & -> & Hk & Et & B)].
  - (* fine tier: significand realigned to [1, 1.40625) *)
    set (T0 := 2 ^ 112 + (k - 64) * 2 ^ 105).
    assert (Du : decode (pack false 16383 M) = V_fin false (2 ^ 112 + M) (-112))
      by (rewrite decode_pack_normal by lia; reflexivity).
    assert (Dt : decode (pack false 16383 ((k - 64) * 2 ^ 105))
                 = V_fin false T0 (-112))
      by (rewrite decode_pack_normal by lia; reflexivity).
    assert (Vt : (Qval (pack false 16383 ((k - 64) * 2 ^ 105))
                  == (1 # 2) + inject_Z k / 128)%Q).
    { rewrite (decode_Qval _ _ _ _ Dt), dyadic_eq.
      apply grid_value; subst T0; lia. }
    split; [lia|]. split; [exact Vt|]. split.
    { rewrite V, (decode_Qval _ _ _ _ Du), !dyadic_eq.
      replace e with (e - 1 + 1) at 1 by lia.
      change (-112) with (-113 + 1). rewrite !pow2_succ. pow_ring. }
    split; [rewrite Vt; apply Pk; lia|].
    apply (reduced_argument _ _ (2 ^ 112 + M) T0 (-112) _ _ _ _ Du Dt);
      try (subst T0; unfold emin; lia).
    + rewrite (decode_Qval _ _ _ _ Du). apply dyadic_eq.
    + rewrite (decode_Qval _ _ _ _ Dt). apply dyadic_eq.
  - (* coarse tier: significand in [0.703125, 1) *)
    set (T0 := 2 ^ 112 + k * 2 ^ 106).
    assert (Du : decode (pack false 16382 M) = V_fin false (2 ^ 112 + M) (-113))
      by (rewrite decode_pack_normal by lia; reflexivity).
    assert (Dt : exists mt et, decode t = V_fin false mt et /\
                               (Qval t == inject_Z T0 * 2 ^ (-113))%Q).
    { rewrite Et. destruct (Z.eqb_spec k 64) as [K|K].
      - exists (2 ^ 112), (-112). split; [reflexivity|].
        subst T0. rewrite K. reflexivity.
      - exists T0, (-113).
        assert (D : decode (pack false 16382 (k * 2 ^ 106))
                    = V_fin false T0 (-113))
          by (rewrite decode_pack_normal by lia; reflexivity).
        split; [exact D|]. rewrite (decode_Qval _ _ _ _ D). apply dyadic_eq. }
    destruct Dt as (mt & et & Dt & Vt0).
    assert (Vt : (Qval t == (1 # 2) + inject_Z k / 128)%Q).
    { rewrite Vt0. apply grid_value; subst T0; lia. }
    split; [lia|]. split; [exact Vt|]. split.
    { rewrite V, (decode_Qval _ _ _ _ Du). reflexivity. }
    split; [rewrite Vt; apply Pk; lia|].
    apply (reduced_argument _ _ (2 ^ 112 + M) T0 (-113) _ _ _ _ Du Dt);
      try (subst T0; unfold emin; lia).
    + rewrite (decode_Qval _ _ _ _ Du). apply dyadic_eq.
    + exact Vt0.
Qed.

(** Claim C2, amended.  For every positive finite input other than 1.0,
    range reduction yields [(z, e, k, t)] where [t] is the grid point
    [0.5 + (i+26)/128] of the table index [i = k - 26] in [0, 91], and
    [x = 2^e * t * (1 + zq)] holds exactly for the unrounded residual [zq]
    ([(u - t)/t] on the general path, [x - 1] around 1); the computed [z]
    is [zq] rounded to binary128, and both [|zq|] and [|z|] are at most
    1/128. *)
Theorem range_reduction_contract x :
  pos_finite x -> feq x one = false ->
  exists r zq,
    reduce x = inr r /\
    0 <= red_k r - 26 <= 91 /\
    (Qval (red_t r) == (1 # 2) + inject_Z (red_k r - 26 + 26) / 128)%Q /\
    (Qval x == 2 ^ red_e r * Qval (red_t r) * (1 + zq))%Q /\
    red_z r = round_to_nearest zq /\
    is_finite (red_z r) = true /\
    (Qabs zq <= 1 # 128)%Q /\
    (Qabs (Qval (red_z r)) <= 1 # 128)%Q.
Proof.
  intros Hx Hne. unfold reduce.
  destruct (__frexpl x) as [u e] eqn:F.
  destruct (table_index u e) as [[[k t] u'] e'] eqn:T.
  destruct (fle x band_hi && fge x band_lo) eqn:Band.
  - apply andb_true_iff in Band. destruct Band as (Hhi & Hlo).
    rewrite Hne.
    destruct (band_argument x Hx Hhi Hlo Hne) as (Ez & Fz & Wz & Bz).
    exists (mk_reduction (fsub x one) 0 64 one), (Qval x - 1)%Q.
    cbn [red_z red_e red_k red_t].
    split; [reflexivity|]. split; [lia|]. split; [reflexivity|].
    split; [rewrite Qval_one; change (2 ^ 0)%Q with 1%Q; ring|].
    split; [exact Ez|]. split; [exact Fz|]. split; [exact Bz|].
    rewrite Wz. exact Bz.
  - destruct (general_reduction x u e k t u' e' Hx F T)
      as (Hk & Vt & Vx & Pt & Ez & Bq & Fz & Bz).
    exists (mk_reduction (fdiv (fsub u' t) t) e' k t),
           ((Qval u' - Qval t) / Qval t)%Q.
    cbn [red_z red_e red_k red_t].
    split; [reflexivity|]. split; [lia|].
    split; [replace (k - 26 + 26) with k by lia; exact Vt|].
    split; [|tauto].
    rewrite Vx. field. lra.
Qed.

(** ** The final sum and the interval around 1 *)




Lemma series_sum_final_accumulator r :
  series_sum r = final_accumulator (red_z r) (red_e r) (red_k r - 26) (red_t r).
Proof.
  unfold series_sum, final_accumulator.
  cbv [horner coefficients fold_left].
  destruct (tbl_read (red_k r - 26)); reflexivity.
Qed.

Lemma reduce_not_one x :
  feq x one = false -> exists r, reduce x = inr r.
Proof.
  intros H. unfold reduce. destruct (__frexpl x) as [u e].
  destruct (table_index u e) as [[[k t] u'] e'].
  rewrite H. destruct (fle x band_hi && fge x band_lo); eauto.
Qed.

(** Claim C1.  For every positive finite input that takes no special-case
    branch (so other than 1.0), the returned value is the result of the
    ordered sequence of the final accumulator: [z^3 P(z)] with [P] by
    Horner's scheme over [l15 .. l3], then [- 0.5 z^2], [+ e ln2b], [+ z],
    [+ logtbl[k-26]], [+ (t - 1)] and finally [+ e ln2a]. *)
Theorem logl_final_sum_order x :
  pos_finite x -> feq x one = false ->
  exists r y,
    reduce x = inr r /\
    __ieee754_logl x = Some y /\
    final_accumulator (red_z r) (red_e r) (red_k r - 26) (red_t r) = Some y.
Proof.
  intros Hx Hne. destruct (reduce_not_one x Hne) as (r & R).
  destruct (logl_total x (proj1 Hx)) as (y & Y).
  exists r, y. split; [exact R|]. split; [exact Y|].
  rewrite <- Y, (logl_general x Hx), R. symmetry.
  apply series_sum_final_accumulator.
Qed.

(** Claim C4, amended.  For every input [x] with
    [0.9921875 <= x <= 1.0078125] other than exactly 1.0 the general
    reduction is overridden: [z = x - 1], [e = 0], [t] is exactly 1 and
    [k = 64], whose table entry [logtbl[38]] is the zero anchor.  (For
    [x = 1.0] the routine returns 0 before the override.) *)
Theorem band_override x :
  fle x band_hi = true -> fge x band_lo = true -> feq x one = false ->
  reduce x = inr (mk_reduction (fsub x one) 0 64 one) /\
  tbl_read (64 - 26) = Some ZERO /\ ZERO = zero false /\
  one = pack false 16383 0 /\
  (Qval band_lo == 127 # 128)%Q /\ (Qval band_hi == 129 # 128)%Q /\
  (Qval one == 1)%Q.
Proof.
  intros Hhi Hlo Hne. unfold reduce. destruct (__frexpl x) as [u e].
  destruct (table_index u e) as [[[k t] u'] e'].
  rewrite Hhi, Hlo, Hne. repeat split.
Qed.

Lemma band_one_returns_zero : reduce one = inl (zero false).
Proof. vm_compute. reflexivity. Qed.

(** Claim C4 as stated fails at [x = 1.0]: the routine returns 0 there and
    no reduced state is produced. *)
Lemma band_override_counterexample :
  ~ (forall x, pos_finite x ->
       fle x band_hi = true -> fge x band_lo = true ->
       reduce x = inr (mk_reduction (fsub x one) 0 64 one)).
Proof.
  intros H. specialize (H one).
  rewrite band_one_returns_zero in H.
  assert (P : pos_finite one).
  { unfold pos_finite, wf, word32, is_zero. cbn.
    repeat split; try lia; try discriminate. }
  specialize (H P eq_refl eq_refl). discriminate.
Qed.


Lemma wfb_wf x : wfb x = true -> wf x.
Proof.
  unfold wfb, wf, word32. cbn [forallb]. rewrite !andb_true_iff.
  rewrite !Z.leb_le, !Z.ltb_lt. tauto.
Qed.

Lemma pos_finiteb_correct x : pos_finiteb x = true -> pos_finite x.
Proof.
  unfold pos_finiteb, pos_finite, is_zero.
  rewrite !andb_true_iff, !negb_true_iff, andb_false_iff.
  rewrite !Z.eqb_neq. intros (((W & S) & E) & Z0).
  split; [apply wfb_wf; exact W|]. split; [exact S|]. split; [exact E|].
  intros (A & B). destruct Z0; contradiction.
Qed.



(** Claim C2 as stated fails with the computed [z]: for [x = 257] the
    reduction gives [e = 8], [t = 129/128] and [z] the rounding of
    [-1/258], so [2^e * t * (1 + z)] is not 257. *)
Lemma range_reduction_not_exact :
  ~ (forall x r,
       pos_finite x -> feq x one = false -> reduce x = inr r ->
       (Qval x == 2 ^ red_e r * Qval (red_t r) * (1 + Qval (red_z r)))%Q).
Proof.
  intros H.
  pose (r := mk_reduction
               (mk_parts32 0xbff6fc07 0xf01fc07f 0x01fc07f0 0x1fc07f02)
               8 65 (mk_parts32 0x3fff0200 0 0 0)).
  specialize (H (of_int 257) r).
  assert (A : pos_finite (of_int 257)) by (apply pos_finiteb_correct; vm_compute; reflexivity).
  assert (B : feq (of_int 257) one = false) by (vm_compute; reflexivity).
  assert (C : reduce (of_int 257) = inr r) by (vm_compute; reflexivity).
  specialize (H A B C). clear A B C.
  vm_compute in H. discriminate H.
Qed.

(** ** Sign and magnitude of rounded sums and products *)

Lemma flt_finite x y sx mx ex sy my ey :
  decode x = V_fin sx mx ex -> decode y = V_fin sy my ey ->
  (Qval x < Qval y)%Q -> flt x y = true.
Proof.
  intros Dx Dy. unfold flt, fcompare, Qval. rewrite Dx, Dy.
  destruct (Qcompare_spec (dyadic sx mx ex) (dyadic sy my ey)) as [E|L|G];
    intros H; try reflexivity; lra.
Qed.

(** The magnitude [m * 2^e] of a finite pattern. *)
Lemma magnitude_pos m e : 0 < m -> (0 < inject_Z m * 2 ^ e)%Q.
Proof.
  intros Hm. apply Qmult_lt_0_compat; [|apply pow2_pos].
  rewrite <- (Zlt_Qlt 0). exact Hm.
Qed.

Lemma dyadic_signed (s : bool) m e :
  (dyadic s m e == signed s (inject_Z m * 2 ^ e))%Q.
Proof.
  rewrite dyadic_eq. unfold signed.
  destruct s; [rewrite inject_Z_opp; ring | reflexivity].
Qed.

#[local] Instance signed_Proper : Proper (eq ==> Qeq ==> Qeq) signed.
Proof.
  intros s s' <- v w E. unfold signed. destruct s; rewrite E; reflexivity.
Qed.

Lemma sign_of_signed (s : bool) (v : Q) :
  (0 < v)%Q -> (Qnum (signed s v) <? 0) = s.
Proof.
  intros Hv. unfold signed. destruct s.
  - apply Qnum_neg_iff. lra.
  - destruct (Qnum v <? 0) eqn:E; [|reflexivity].
    apply Qnum_neg_iff in E. lra.
Qed.

Lemma Qnum_sign_comp q r : (q == r)%Q -> (Qnum q <? 0) = (Qnum r <? 0).
Proof.
  intros E. apply eq_true_iff_eq. rewrite !Qnum_neg_iff, E. reflexivity.
Qed.

Lemma signed_facts q s v :
  (q == signed s v)%Q -> (0 < v)%Q ->
  ~ (q == 0)%Q /\ (Qabs q == v)%Q /\ (Qnum q <? 0) = s.
Proof.
  intros E Hv. unfold signed in E. split; [|split].
  - rewrite E. destruct s; lra.
  - rewrite E. destruct s; [rewrite Qabs_neg | rewrite Qabs_pos]; lra.
  - rewrite (Qnum_sign_comp _ _ E). apply sign_of_signed. exact Hv.
Qed.

Lemma RN_signed_between q s v N1 E1 N2 E2 :
  (q == signed s v)%Q ->
  (inject_Z N1 * 2 ^ E1 <= v)%Q -> (v <= inject_Z N2 * 2 ^ E2)%Q ->
  0 < N1 < 2 ^ 113 -> emin <= E1 ->
  0 < N2 < 2 ^ 113 -> emin <= E2 <= 16271 ->
  exists m e,
    decode (RN q) = V_fin s m e /\ 0 < m < 2 ^ 113 /\ emin <= e <= 16271 /\
    (inject_Z N1 * 2 ^ E1 <= inject_Z m * 2 ^ e)%Q /\
    (inject_Z m * 2 ^ e <= inject_Z N2 * 2 ^ E2)%Q.
Proof.
  intros E Lo Hi HN1 HE1 HN2 HE2.
  assert (Hv : (0 < v)%Q).
  { pose proof (magnitude_pos N1 E1 ltac:(lia)). lra. }
  destruct (signed_facts q s v E Hv) as (Hq & Ha & Hs). subst s.
  apply (RN_between q Hq N1 E1 N2 E2); try assumption; rewrite Ha; assumption.
Qed.

(** *** Operations on finite non-zero operands, by sign and magnitude *)

Lemma has_value_Qval x s v :
  has_value x s v ->
  is_finite x = true /\ (Qval x == signed s v)%Q /\ (0 < v)%Q.
Proof.
  intros (m & e & D & Hm & He & V). unfold is_finite, Qval. rewrite D.
  split; [reflexivity|]. split.
  - rewrite dyadic_signed, V. reflexivity.
  - rewrite <- V. apply magnitude_pos. lia.
Qed.

Lemma RN_value q s v N1 E1 N2 E2 :
  (q == signed s v)%Q ->
  (inject_Z N1 * 2 ^ E1 <= v)%Q -> (v <= inject_Z N2 * 2 ^ E2)%Q ->
  0 < N1 < 2 ^ 113 -> emin <= E1 ->
  0 < N2 < 2 ^ 113 -> emin <= E2 <= 16271 ->
  exists v', has_value (RN q) s v' /\
             (inject_Z N1 * 2 ^ E1 <= v')%Q /\ (v' <= inject_Z N2 * 2 ^ E2)%Q.
Proof.
  intros E Lo Hi HN1 HE1 HN2 HE2.
  destruct (RN_signed_between q s v N1 E1 N2 E2 E Lo Hi HN1 HE1 HN2 HE2)
    as (m & e & D & Hm & He & L & U).
  exists (inject_Z m * 2 ^ e)%Q. split; [|split; assumption].
  exists m, e. repeat split; try lia; try assumption. 
Qed.

Lemma RN_value_exact q s N E :
  (q == signed s (inject_Z N * 2 ^ E))%Q ->
  0 < N < 2 ^ 113 -> emin <= E <= 16271 ->
  has_value (RN q) s (inject_Z N * 2 ^ E).
Proof.
  intros Eq HN HE.
  destruct (RN_value q s _ N E N E Eq) as (v' & (m & e & D & Hm & He & V) & L & U);
    try lia; try apply Qle_refl.
  exists m, e. repeat split; try lia; try assumption.
  rewrite V. apply Qle_antisym; assumption.
Qed.

Lemma signed_mul s1 s2 v1 v2 :
  (signed s1 v1 * signed s2 v2 == signed (xorb s1 s2) (v1 * v2))%Q.
Proof. unfold signed. destruct s1, s2; cbn [xorb]; ring. Qed.

Lemma signed_add s v1 v2 :
  (signed s v1 + signed s v2 == signed s (v1 + v2))%Q.
Proof. unfold signed. destruct s; ring. Qed.

Lemma of_int_value n :
  n <> 0 -> Z.abs n < 2 ^ 113 ->
  has_value (of_int n) (n <? 0) (inject_Z (Z.abs n)).
Proof.
  intros Hn Hb. unfold of_int.
  destruct (Z.eqb_spec n 0); [contradiction|].
  assert (E : (inject_Z n == signed (n <? 0) (inject_Z (Z.abs n) * 2 ^ 0))%Q).
  { unfold signed. change (2 ^ 0)%Q with 1%Q.
    destruct (Z.ltb_spec n 0).
    - rewrite Z.abs_neq by lia. rewrite inject_Z_opp. ring.
    - rewrite Z.abs_eq by lia. ring. }
  destruct (RN_value_exact _ _ _ _ E) as (m & e & D & Hm & He & V);
    try (unfold emin; lia).
  exists m, e. repeat split; try lia; try assumption.
  rewrite V. change (2 ^ 0)%Q with 1%Q. ring.
Qed.

Lemma fmul_value x y s1 v1 s2 v2 N1 E1 N2 E2 :
  has_value x s1 v1 -> has_value y s2 v2 ->
  (inject_Z N1 * 2 ^ E1 <= v1 * v2)%Q -> (v1 * v2 <= inject_Z N2 * 2 ^ E2)%Q ->
  0 < N1 < 2 ^ 113 -> emin <= E1 ->
  0 < N2 < 2 ^ 113 -> emin <= E2 <= 16271 ->
  exists v, has_value (fmul x y) (xorb s1 s2) v /\
            (inject_Z N1 * 2 ^ E1 <= v)%Q /\ (v <= inject_Z N2 * 2 ^ E2)%Q.
Proof.
  intros (m1 & e1 & D1 & Hm1 & He1 & V1) (m2 & e2 & D2 & Hm2 & He2 & V2).
  intros Lo Hi HN1 HE1 HN2 HE2. unfold fmul. rewrite D1, D2.
  destruct (Z.eqb_spec m1 0); [lia|]. destruct (Z.eqb_spec m2 0); [lia|].
  cbn [orb].
  apply (RN_value _ _ (v1 * v2)); try assumption.
  rewrite !dyadic_signed, V1, V2. apply signed_mul.
Qed.

Lemma fadd_value x y s v1 v2 N1 E1 N2 E2 :
  has_value x s v1 -> has_value y s v2 ->
  (inject_Z N1 * 2 ^ E1 <= v1 + v2)%Q -> (v1 + v2 <= inject_Z N2 * 2 ^ E2)%Q ->
  0 < N1 < 2 ^ 113 -> emin <= E1 ->
  0 < N2 < 2 ^ 113 -> emin <= E2 <= 16271 ->
  exists v, has_value (fadd x y) s v /\
            (inject_Z N1 * 2 ^ E1 <= v)%Q /\ (v <= inject_Z N2 * 2 ^ E2)%Q.
Proof.
  intros Hx Hy Lo Hi HN1 HE1 HN2 HE2.
  destruct (has_value_Qval _ _ _ Hx) as (_ & _ & P1).
  destruct (has_value_Qval _ _ _ Hy) as (_ & _ & P2).
  destruct Hx as (m1 & e1 & D1 & Hm1 & He1 & V1).
  destruct Hy as (m2 & e2 & D2 & Hm2 & He2 & V2).
  unfold fadd. rewrite D1, D2.
  assert (E : (dyadic s m1 e1 + dyadic s m2 e2 == signed s (v1 + v2))%Q).
  { rewrite !dyadic_signed, V1, V2. apply signed_add. }
  assert (NZ : Qeq_bool (dyadic s m1 e1 + dyadic s m2 e2) 0 = false).
  { destruct (Qeq_bool _ 0) eqn:C; [|reflexivity].
    apply Qeq_bool_iff in C. rewrite E in C. unfold signed in C.
    destruct s; lra. }
  rewrite NZ. apply (RN_value _ _ (v1 + v2)); assumption.
Qed.

(** Adding a zero changes nothing. *)
Lemma fadd_zero_r x z s v sz ez :
  has_value x s v -> decode z = V_fin sz 0 ez -> has_value (fadd x z) s v.
Proof.
  intros Hx Dz.
  destruct (has_value_Qval _ _ _ Hx) as (_ & _ & P1).
  destruct Hx as (m & e & D & Hm & He & V).
  unfold fadd. rewrite D, Dz.
  assert (E : (dyadic s m e + dyadic sz 0 ez == signed s (inject_Z m * 2 ^ e))%Q).
  { rewrite dyadic_zero, dyadic_signed. ring. }
  assert (NZ : Qeq_bool (dyadic s m e + dyadic sz 0 ez) 0 = false).
  { destruct (Qeq_bool _ 0) eqn:C; [|reflexivity].
    apply Qeq_bool_iff in C. rewrite E, V in C. unfold signed in C.
    destruct s; lra. }
  rewrite NZ.
  destruct (RN_value_exact _ _ _ _ E) as (m' & e' & D' & Hm' & He' & V');
    try lia.
  exists m', e'. repeat split; try lia; try assumption. rewrite V'. exact V.
Qed.

Lemma fadd_zero_l x z s v sz ez :
  has_value x s v -> decode z = V_fin sz 0 ez -> has_value (fadd z x) s v.
Proof.
  intros Hx Dz.
  destruct (has_value_Qval _ _ _ Hx) as (_ & _ & P1).
  destruct Hx as (m & e & D & Hm & He & V).
  unfold fadd. rewrite D, Dz.
  assert (E : (dyadic sz 0 ez + dyadic s m e == signed s (inject_Z m * 2 ^ e))%Q).
  { rewrite dyadic_zero, dyadic_signed. ring. }
  assert (NZ : Qeq_bool (dyadic sz 0 ez + dyadic s m e) 0 = false).
  { destruct (Qeq_bool _ 0) eqn:C; [|reflexivity].
    apply Qeq_bool_iff in C. rewrite E, V in C. unfold signed in C.
    destruct s; lra. }
  rewrite NZ.
  destruct (RN_value_exact _ _ _ _ E) as (m' & e' & D' & Hm' & He' & V');
    try lia.
  exists m', e'. repeat split; try lia; try assumption. rewrite V'. exact V.
Qed.

(** ** The powers of two *)

Lemma pow2_float_spec n :
  -16494 <= n <= 16383 ->
  pos_finite (pow2_float n) /\
  __frexpl (pow2_float n) = (pack false 16382 0, n + 1) /\
  (Qval (pow2_float n) == 2 ^ n)%Q.
Proof.
  intros Hn. unfold pow2_float.
  destruct (Z.ltb_spec n (-16382)) as [Hs|Hs].
  - set (M := 2 ^ (n + 16494)).
    assert (HM : 0 < M < 2 ^ 112).
    { subst M. split; [apply Z.pow_pos_nonneg; lia|].
      apply Z.pow_lt_mono_r; lia. }
    assert (S : sign_bit (pack false 0 M) = false) by (apply sign_bit_pack; lia).
    assert (B : biased_exp (pack false 0 M) = 0) by (apply biased_exp_pack; lia).
    assert (Mt : mantissa (pack false 0 M) = M) by (apply mantissa_pack; lia).
    split; [|split].
    + unfold pos_finite, is_zero. rewrite S, B, Mt.
      split; [apply wf_pack; lia|]. repeat split; lia.
    + unfold __frexpl. rewrite S, B, Mt. cbn [Z.eqb orb andb].
      destruct (Z.eqb_spec M 0); [lia|].
      assert (L : Z.log2 M = n + 16494) by (subst M; apply Z.log2_pow2; lia).
      rewrite L.
      replace (M * 2 ^ (113 - (n + 16494 + 1)) - 2 ^ 112) with 0.
      * f_equal. lia.
      * subst M. rewrite <- Z.pow_add_r by lia.
        replace (n + 16494 + (113 - (n + 16494 + 1))) with 112 by lia. lia.
    + unfold Qval. rewrite decode_pack_subnormal by lia.
      rewrite dyadic_eq. subst M. rewrite pow2_inject by lia.
      unfold emin. rewrite <- pow2_add.
      replace (n + 16494 + -16494) with n by lia. reflexivity.
  - assert (S : sign_bit (pack false (n + 16383) 0) = false)
      by (apply sign_bit_pack; lia).
    assert (B : biased_exp (pack false (n + 16383) 0) = n + 16383)
      by (apply biased_exp_pack; lia).
    assert (Mt : mantissa (pack false (n + 16383) 0) = 0)
      by (apply mantissa_pack; lia).
    split; [|split].
    + unfold pos_finite, is_zero. rewrite S, B, Mt.
      split; [apply wf_pack; lia|]. repeat split; lia.
    + unfold __frexpl. rewrite S, B, Mt.
      destruct (Z.eqb_spec (n + 16383) 32767); [lia|].
      destruct (Z.eqb_spec (n + 16383) 0); [lia|].
      cbn [orb andb]. f_equal. lia.
    + unfold Qval. rewrite decode_pack_normal by lia.
      rewrite dyadic_eq. unfold ebias.
      replace (2 ^ 112 + 0) with (2 ^ 112) by lia.
      rewrite pow2_inject by lia. rewrite <- pow2_add.
      replace (112 + (n + 16383 - 16495)) with n by lia. reflexivity.
Qed.

Lemma table_index_half e :
  table_index (pack false 16382 0) e = (64, one, one, e - 1).
Proof. reflexivity. Qed.

Lemma pow2_outside_band n :
  -16494 <= n <= 16383 -> n <> 0 ->
  fle (pow2_float n) band_hi && fge (pow2_float n) band_lo = false.
Proof.
  intros Hn Hn0. destruct (pow2_float_spec n Hn) as (P & _ & V).
  destruct (decode_pos_finite _ P) as (m & e & D & _).
  apply andb_false_iff.
  destruct (Z.lt_ge_cases n 0) as [Neg|Pos].
  - right. destruct (fge (pow2_float n) band_lo) eqn:C; [exfalso|reflexivity].
    unfold fge in C.
    apply (fle_finite band_lo _ false _ _ _ _ _ eq_refl D) in C.
    rewrite Qval_band_lo, V in C.
    assert (A : (2 ^ n <= 2 ^ (-1))%Q) by (apply pow2_le; lia).
    change (2 ^ (-1))%Q with (1 # 2)%Q in A. lra.
  - left. destruct (fle (pow2_float n) band_hi) eqn:C; [exfalso|reflexivity].
    apply (fle_finite _ band_hi _ _ _ false _ _ D eq_refl) in C.
    rewrite Qval_band_hi, V in C.
    assert (A : (2 ^ 1 <= 2 ^ n)%Q) by (apply pow2_le; lia).
    change (2 ^ 1)%Q with 2%Q in A. lra.
Qed.

Lemma reduced_one : fdiv (fsub one one) one = zero false.
Proof. vm_compute. reflexivity. Qed.

Lemma reduce_pow2 n :
  -16494 <= n <= 16383 -> n <> 0 ->
  reduce (pow2_float n) = inr (mk_reduction (zero false) n 64 one).
Proof.
  intros Hn Hn0. destruct (pow2_float_spec n Hn) as (_ & F & _).
  unfold reduce. rewrite F, table_index_half, (pow2_outside_band n Hn Hn0).
  rewrite reduced_one. replace (n + 1 - 1) with n by lia. reflexivity.
Qed.

(** The constants of the exponent term. *)
Lemma ln2a_value : has_value ln2a false (inject_Z 90852 * 2 ^ (-17)).
Proof.
  exists (0x162e4 * 2 ^ 96), (-113).
  split; [reflexivity|]. split; [lia|]. split; [unfold emin; lia|]. reflexivity.
Qed.

Lemma ln2b_value :
  exists v, has_value ln2b false v /\
            (inject_Z 1 * 2 ^ (-20) <= v)%Q /\ (v <= inject_Z 1 * 2 ^ (-19))%Q.
Proof.
  destruct (decode ln2b) as [| |s m e] eqn:D; try (vm_compute in D; discriminate D).
  exists (inject_Z m * 2 ^ e)%Q.
  vm_compute in D. injection D as <- <- <-.
  split; [|split].
  - eexists _, _. split; [vm_compute; reflexivity|].
    split; [lia|]. split; [unfold emin; lia | reflexivity].
  - apply Qle_bool_iff. vm_compute. reflexivity.
  - apply Qle_bool_iff. vm_compute. reflexivity.
Qed.

(** The series and the [- 0.5 z^2] term vanish at [z = 0]. *)
Lemma series_at_zero :
  fsub (fmul (fmul (horner coefficients (zero false)) (zero false))
             (fmul (zero false) (zero false)))
       (fmul half (fmul (zero false) (zero false))) = zero false.
Proof. vm_compute. reflexivity. Qed.

Lemma abs_bounds n :
  -16494 <= n <= 16383 -> n <> 0 ->
  (1 <= inject_Z (Z.abs n))%Q /\ (inject_Z (Z.abs n) <= 32768)%Q.
Proof.
  intros Hn Hn0. split.
  - change 1%Q with (inject_Z 1). rewrite <- Zle_Qle. lia.
  - change 32768%Q with (inject_Z 32768). rewrite <- Zle_Qle. lia.
Qed.

(** [f(2^n)]: sign of [n], magnitude within 1/16 above [|n| * ln2a]. *)
Lemma logl_pow2_value n :
  -16494 <= n <= 16383 -> n <> 0 ->
  exists y v,
    __ieee754_logl (pow2_float n) = Some y /\ has_value y (n <? 0) v /\
    (inject_Z (Z.abs n * 90852) * 2 ^ (-17) <= v)%Q /\
    (v <= inject_Z (Z.abs n * 90852 + 8192) * 2 ^ (-17))%Q.
Proof.
  intros Hn Hn0. destruct (pow2_float_spec n Hn) as (P & _ & _).
  destruct (abs_bounds n Hn Hn0) as (A1 & A2).
  rewrite (logl_general _ P), (reduce_pow2 n Hn Hn0).
  rewrite series_sum_final_accumulator. cbn [red_z red_e red_k red_t].
  unfold final_accumulator.
  change (tbl_read (64 - 26)) with (Some (zero false)).
  cbv zeta. rewrite series_at_zero.
  change (fsub one one) with (zero false).
  pose proof (of_int_value n Hn0 ltac:(lia)) as Vn.
  destruct ln2b_value as (vb & Vb & Lb & Ub).
  change (inject_Z 1) with 1%Q in Lb, Ub.
  change (2 ^ (-20))%Q with (1 # 1048576)%Q in Lb.
  change (2 ^ (-19))%Q with (1 # 524288)%Q in Ub.
  (* e * ln2b *)
  destruct (fmul_value _ _ _ _ _ _ 1 (-20) 1 (-4) Vn Vb)
    as (va & Va & La & Ua); try (unfold emin; lia).
  { change (inject_Z 1 * 2 ^ (-20))%Q with (1 # 1048576)%Q. nra. }
  { change (inject_Z 1 * 2 ^ (-4))%Q with (1 # 16)%Q. nra. }
  rewrite xorb_false_r in Va.
  change (inject_Z 1 * 2 ^ (-20))%Q with (1 # 1048576)%Q in La.
  change (inject_Z 1 * 2 ^ (-4))%Q with (1 # 16)%Q in Ua.
  (* e * ln2a, exact *)
  destruct (fmul_value _ _ _ _ _ _ (Z.abs n * 90852) (-17) (Z.abs n * 90852) (-17)
              Vn ln2a_value)
    as (vc & Vc & Lc & Uc); try (unfold emin; lia).
  { rewrite inject_Z_mult. rewrite Qmult_assoc. apply Qle_refl. }
  { rewrite inject_Z_mult. rewrite Qmult_assoc. apply Qle_refl. }
  rewrite xorb_false_r in Vc.
  (* the zero terms *)
  pose proof (fadd_zero_l _ (zero false) _ _ false emin Va eq_refl) as V2.
  pose proof (fadd_zero_r _ (zero false) _ _ false emin V2 eq_refl) as V3.
  pose proof (fadd_zero_r _ (zero false) _ _ false emin V3 eq_refl) as V4.
  pose proof (fadd_zero_r _ (zero false) _ _ false emin V4 eq_refl) as V5.
  (* the exponent term, added last *)
  destruct (fadd_value _ _ _ _ _ (Z.abs n * 90852) (-17)
              (Z.abs n * 90852 + 8192) (-17) V5 Vc)
    as (v & V & L & U); try (unfold emin; lia).
  { lra. }
  { rewrite inject_Z_plus, Qmult_plus_distr_l.
    change (inject_Z 8192 * 2 ^ (-17))%Q with (8192 # 131072)%Q. lra. }
  eexists _, v. split; [reflexivity|]. split; [exact V|]. split; assumption.
Qed.

Lemma flt_of_Qval x y :
  is_finite x = true -> is_finite y = true -> (Qval x < Qval y)%Q ->
  flt x y = true.
Proof.
  unfold is_finite.
  destruct (decode x) as [| |sx mx ex] eqn:Dx; try discriminate.
  destruct (decode y) as [| |sy my ey] eqn:Dy; try discriminate.
  intros _ _. apply (flt_finite x y _ _ _ _ _ _ Dx Dy).
Qed.

Lemma logl_of_one : __ieee754_logl (pack false 16383 0) = Some (zero false).
Proof. vm_compute. reflexivity. Qed.

(** [f(2^n)] is within 1/16 of [n * ln2a]. *)
Lemma logl_pow2_bounds n :
  -16494 <= n <= 16383 ->
  exists y,
    __ieee754_logl (pow2_float n) = Some y /\ is_finite y = true /\
    (inject_Z n * (90852 # 131072) - (1 # 16) <= Qval y)%Q /\
    (Qval y <= inject_Z n * (90852 # 131072) + (1 # 16))%Q.
Proof.
  intros Hn. destruct (Z.eq_dec n 0) as [->|Hn0].
  - exists (zero false). split; [exact logl_of_one|].
    split; [reflexivity|]. rewrite Qval_zero. split; discriminate.
  - destruct (logl_pow2_value n Hn Hn0) as (y & v & Y & V & L & U).
    destruct (has_value_Qval _ _ _ V) as (F & Q & P).
    exists y. split; [exact Y|]. split; [exact F|].
    rewrite Q. unfold signed.
    rewrite inject_Z_plus, !inject_Z_mult in U.
    rewrite inject_Z_mult in L.
    change (2 ^ (-17))%Q with (1 # 131072)%Q in L, U.
    change (inject_Z 90852) with (90852 # 1)%Q in L, U.
    change (inject_Z 8192) with (8192 # 1)%Q in U.
    destruct (Z.ltb_spec n 0) as [Neg|Pos].
    + rewrite Z.abs_neq in L, U by lia. rewrite inject_Z_opp in L, U.
      split; lra.
    + rewrite Z.abs_eq in L, U by lia. split; lra.
Qed.

(** On the powers of two the routine is strictly increasing: for all
    exponents [i < j] of finite positive binary128 powers of two
    (subnormal ones included), [f(2^i) < f(2^j)]. *)
Lemma logl_increasing_on_powers_of_two i j :
  -16494 <= i -> i < j -> j <= 16383 ->
  exists a b,
    flt (pow2_float i) (pow2_float j) = true /\
    __ieee754_logl (pow2_float i) = Some a /\
    __ieee754_logl (pow2_float j) = Some b /\
    flt a b = true.
Proof.
  intros Hi Hij Hj.
  destruct (logl_pow2_bounds i ltac:(lia)) as (a & Ya & Fa & _ & Ua).
  destruct (logl_pow2_bounds j ltac:(lia)) as (b & Yb & Fb & Lb & _).
  destruct (pow2_float_spec i ltac:(lia)) as (Pi & _ & Vi).
  destruct (pow2_float_spec j ltac:(lia)) as (Pj & _ & Vj).
  exists a, b. split; [|split; [exact Ya|split; [exact Yb|]]].
  - destruct (decode_pos_finite _ Pi) as (mi & ei & Di & _).
    destruct (decode_pos_finite _ Pj) as (mj & ej & Dj & _).
    apply (flt_finite _ _ _ _ _ _ _ _ Di Dj). rewrite Vi, Vj.
    apply pow2_lt. exact Hij.
  - apply flt_of_Qval; try assumption.
    assert (S : (inject_Z i + 1 <= inject_Z j)%Q).
    { change 1%Q with (inject_Z 1). rewrite <- inject_Z_plus, <- Zle_Qle. lia. }
    lra.
Qed.

(** ** The arithmetic agrees with [SpecFloat] on sample operands *)

Example fadd_agrees :
  to_spec_float (fadd l3 ln2b)
  = SpecFloat.SFadd 113 16384 (to_spec_float l3) (to_spec_float ln2b).
Proof. vm_compute. reflexivity. Qed.

Example fsub_agrees :
  to_spec_float (fsub l7 l12)
  = SpecFloat.SFsub 113 16384 (to_spec_float l7) (to_spec_float l12).
Proof. vm_compute. reflexivity. Qed.

Example fmul_agrees :
  to_spec_float (fmul l15 ln2b)
  = SpecFloat.SFmul 113 16384 (to_spec_float l15) (to_spec_float ln2b).
Proof. vm_compute. reflexivity. Qed.

Example fdiv_agrees :
  to_spec_float (fdiv l4 l9)
  = SpecFloat.SFdiv 113 16384 (to_spec_float l4) (to_spec_float l9).
Proof. vm_compute. reflexivity. Qed.

Example fdiv_by_zero_agrees :
  to_spec_float (fdiv minus_half ZERO)
  = SpecFloat.SFdiv 113 16384 (to_spec_float minus_half) (to_spec_float ZERO).
Proof. vm_compute. reflexivity. Qed.

Example frexpl_agrees :
  (to_spec_float (fst (__frexpl three)), snd (__frexpl three))
  = SpecFloat.SFfrexp 113 16384 (to_spec_float three).
Proof. vm_compute. reflexivity. Qed.

(** ** The theorems at concrete inputs *)

(** C1 at the successor of 3. *)
Lemma logl_final_sum_order_witness :
  exists r y,
    reduce three_succ = inr r /\
    __ieee754_logl three_succ = Some y /\
    final_accumulator (red_z r) (red_e r) (red_k r - 26) (red_t r) = Some y.
Proof.
  apply (logl_final_sum_order three_succ).
  - apply pos_finiteb_correct. vm_compute. reflexivity.
  - vm_compute. reflexivity.
Defined.

(** C2 at 257. *)
Lemma range_reduction_contract_witness :
  exists r zq,
    reduce (of_int 257) = inr r /\
    0 <= red_k r - 26 <= 91 /\
    (Qval (red_t r) == (1 # 2) + inject_Z (red_k r - 26 + 26) / 128)%Q /\
    (Qval (of_int 257) == 2 ^ red_e r * Qval (red_t r) * (1 + zq))%Q /\
    red_z r = round_to_nearest zq /\
    is_finite (red_z r) = true /\
    (Qabs zq <= 1 # 128)%Q /\
    (Qabs (Qval (red_z r)) <= 1 # 128)%Q.
Proof.
  apply (range_reduction_contract (of_int 257)).
  - apply pos_finiteb_correct. vm_compute. reflexivity.
  - vm_compute. reflexivity.
Defined.

(** C3 at 257, whose reduced state has [k = 65]. *)
Lemma logtbl_index_in_bounds_witness :
  let r := mk_reduction
             (mk_parts32 0xbff6fc07 0xf01fc07f 0x01fc07f0 0x1fc07f02)
             8 65 (mk_parts32 0x3fff0200 0 0 0) in
  0 <= red_k r - 26 <= 91 /\
  (exists c, tbl_read (red_k r - 26) = Some c) /\
  (exists y, series_sum r = Some y).
Proof.
  intros r. apply (logtbl_index_in_bounds (of_int 257) r).
  vm_compute. reflexivity.
Defined.

(** C4 at the upper end of the interval, 1.0078125. *)
Lemma band_override_witness :
  reduce band_hi = inr (mk_reduction (fsub band_hi one) 0 64 one) /\
  tbl_read (64 - 26) = Some ZERO /\ ZERO = zero false /\
  one = pack false 16383 0 /\
  (Qval band_lo == 127 # 128)%Q /\ (Qval band_hi == 129 # 128)%Q /\
  (Qval one == 1)%Q.
Proof.
  apply (band_override band_hi); vm_compute; reflexivity.
Defined.


(** C7 at -0.5. *)
Lemma logl_negative_is_nan_witness :
  __ieee754_logl minus_half = Some (fdiv (fsub minus_half minus_half) ZERO) /\
  is_nan (fdiv (fsub minus_half minus_half) ZERO) = true.
Proof.
  apply (logl_negative_is_nan minus_half).
  - apply wfb_wf. vm_compute. reflexivity.
  - vm_compute. reflexivity.
  - intros (A & _). vm_compute in A. discriminate A.
Defined.

(** C8 at a signalling NaN with the sign bit set and payload 42. *)
Lemma logl_nan_is_self_addition_witness :
  let x := mk_parts32 0xffff0000 0 0 42 in
  __ieee754_logl x = Some (fadd x x) /\
  is_nan (fadd x x) = true /\
  payload (fadd x x) = payload x /\
  sign_bit (fadd x x) = sign_bit x.
Proof.
  intros x. apply (logl_nan_is_self_addition x).
  - apply wfb_wf. vm_compute. reflexivity.
  - vm_compute. reflexivity.
Defined.

(** C10 at 2, whose significand 0.5 is realigned to 1. *)
Lemma realignment_doubles_significand_witness :
  let x := pow2_float 1 in
  let u := pack false 16382 0 in
  let u' := one in
  biased_exp u = 0x3ffe /\ (1 # 2 <= Qval u < 1)%Q /\
  u' = set_w0 u (w0 u + 0x10000) /\ w0 u' = w0 u + 0x10000 /\
  sign_bit u' = sign_bit u /\ mantissa u' = mantissa u /\
  biased_exp u' = 0x3fff /\
  (Qval u' == 2 * Qval u)%Q /\ 1 = 2 - 1 /\
  (Qval x == 2 ^ 2 * Qval u)%Q /\ (Qval x == 2 ^ 1 * Qval u')%Q.
Proof.
  intros x u u'.
  apply (realignment_doubles_significand x u 2 64 one u' 1).
  - apply pos_finiteb_correct. vm_compute. reflexivity.
  - vm_compute. reflexivity.
  - vm_compute. reflexivity.
  - vm_compute. reflexivity.
Defined.

(** * Further properties of the routine

    What the code shows beyond the statements above: no overflow on the
    way to the result, which arguments give a NaN or an infinity, the
    geometry of the reduction, and the terms of the final sum that are
    exact. *)

(** ** Magnitude bounds through the operations *)

Lemma finite_decode x :
  is_finite x = true -> exists s m e, decode x = V_fin s m e.
Proof.
  unfold is_finite. destruct (decode x) as [| |s m e]; try discriminate. eauto.
Qed.

Lemma bounded_zero s K : bounded (zero s) K.
Proof.
  split; [unfold is_finite; rewrite decode_zero; reflexivity|].
  rewrite Qval_zero. apply Qlt_le_weak, pow2_pos.
Qed.

Lemma bounded_weaken x a b : bounded x a -> a <= b -> bounded x b.
Proof.
  intros (F & B) H. split; [exact F|].
  apply Qle_trans with (1 := B). apply pow2_le. exact H.
Qed.

Lemma dyadic_nonzero s m e : m <> 0 -> ~ (dyadic s m e == 0)%Q.
Proof.
  intros Hm E. rewrite dyadic_eq in E. apply inject_mul_zero in E.
  destruct s; lia.
Qed.

Lemma pow2_double a K : a < K -> (2 ^ a + 2 ^ a <= 2 ^ K)%Q.
Proof.
  intros H. assert (E : (2 ^ a + 2 ^ a == 2 ^ (a + 1))%Q) by (rewrite pow2_succ; ring).
  rewrite E. apply pow2_le. lia.
Qed.

Lemma fmul_bounded x y a b K :
  bounded x a -> bounded y b -> a + b <= K -> emin <= K <= 16383 ->
  bounded (fmul x y) K.
Proof.
  intros (Fx & Bx) (Fy & By) HK HR.
  destruct (finite_decode x Fx) as (s1 & m1 & e1 & D1).
  destruct (finite_decode y Fy) as (s2 & m2 & e2 & D2).
  rewrite (decode_Qval _ _ _ _ D1) in Bx. rewrite (decode_Qval _ _ _ _ D2) in By.
  unfold fmul. rewrite D1, D2.
  destruct (Z.eqb_spec m1 0) as [Z1|N1]; [apply bounded_zero|].
  destruct (Z.eqb_spec m2 0) as [Z2|N2]; [apply bounded_zero|].
  cbn [orb]. apply RN_bound; [|  |exact HR].
  - intros E. apply Qmult_integral in E.
    destruct E as [E|E]; [exact (dyadic_nonzero _ _ _ N1 E)
                         | exact (dyadic_nonzero _ _ _ N2 E)].
  - rewrite Qabs_Qmult.
    apply Qle_trans with (2 ^ a * 2 ^ b)%Q.
    + pose proof (Qabs_nonneg (dyadic s1 m1 e1)).
      pose proof (Qabs_nonneg (dyadic s2 m2 e2)).
      pose proof (pow2_pos a). pose proof (pow2_pos b). nra.
    + rewrite <- pow2_add. apply pow2_le. exact HK.
Qed.

Lemma fadd_bounded x y a b K :
  bounded x a -> bounded y b -> a < K -> b < K -> emin <= K <= 16383 ->
  bounded (fadd x y) K.
Proof.
  intros (Fx & Bx) (Fy & By) Ha Hb HR.
  destruct (finite_decode x Fx) as (s1 & m1 & e1 & D1).
  destruct (finite_decode y Fy) as (s2 & m2 & e2 & D2).
  rewrite (decode_Qval _ _ _ _ D1) in Bx. rewrite (decode_Qval _ _ _ _ D2) in By.
  unfold fadd. rewrite D1, D2.
  destruct (Qeq_bool _ 0) eqn:Z0; [apply bounded_zero|].
  apply RN_bound; [apply Qeq_bool_false; exact Z0| |exact HR].
  apply Qle_trans with (1 := Qabs_triangle _ _).
  pose proof (pow2_double (Z.max a b) K ltac:(lia)).
  pose proof (pow2_le a (Z.max a b) ltac:(lia)).
  pose proof (pow2_le b (Z.max a b) ltac:(lia)). lra.
Qed.

Lemma fsub_bounded x y a b K :
  bounded x a -> bounded y b -> a < K -> b < K -> emin <= K <= 16383 ->
  bounded (fsub x y) K.
Proof.
  intros (Fx & Bx) (Fy & By) Ha Hb HR.
  destruct (finite_decode x Fx) as (s1 & m1 & e1 & D1).
  destruct (finite_decode y Fy) as (s2 & m2 & e2 & D2).
  rewrite (decode_Qval _ _ _ _ D1) in Bx. rewrite (decode_Qval _ _ _ _ D2) in By.
  unfold fsub. rewrite D1, D2.
  destruct (Qeq_bool _ 0) eqn:Z0; [apply bounded_zero|].
  apply RN_bound; [apply Qeq_bool_false; exact Z0| |exact HR].
  unfold Qminus.
  apply Qle_trans with (1 := Qabs_triangle _ _). rewrite Qabs_opp.
  pose proof (pow2_double (Z.max a b) K ltac:(lia)).
  pose proof (pow2_le a (Z.max a b) ltac:(lia)).
  pose proof (pow2_le b (Z.max a b) ltac:(lia)). lra.
Qed.

Lemma of_int_bounded n K :
  Z.abs n <= 2 ^ K -> 0 <= K <= 16383 -> bounded (of_int n) K.
Proof.
  intros Hn HK. unfold of_int.
  destruct (Z.eqb_spec n 0) as [->|N]; [apply bounded_zero|].
  apply RN_bound.
  - intros E. apply (inject_Z_injective n 0) in E. contradiction.
  - change (Qabs (inject_Z n)) with (inject_Z (Z.abs n)).
    rewrite <- pow2_inject by lia. rewrite <- Zle_Qle. exact Hn.
  - unfold emin. lia.
Qed.

(** A pattern whose biased exponent is below [be] is finite and below
    [2^(be - 16383)] in magnitude. *)
Lemma bounded_by_exponent x be :
  wf x -> biased_exp x < be -> be <= 32767 -> bounded x (be - 16383).
Proof.
  intros Hx Hb Hbe. pose proof (biased_exp_range x) as Be.
  pose proof (mantissa_range x Hx) as Bm.
  assert (G : forall s m e p, 0 <= p -> 0 <= m < 2 ^ p -> e + p <= be - 16383 ->
              (Qabs (dyadic s m e) <= 2 ^ (be - 16383))%Q).
  { intros s m e p Hp Hm He. rewrite Qabs_dyadic by lia.
    apply Qle_trans with (2 ^ p * 2 ^ e)%Q.
    - apply Qmult_le_compat_r; [|apply Qlt_le_weak, pow2_pos].
      rewrite <- pow2_inject by lia. rewrite <- Zle_Qle. lia.
    - rewrite <- pow2_add. apply pow2_le. lia. }
  unfold bounded, is_finite, Qval, decode.
  destruct (Z.eqb_spec (biased_exp x) 32767); [lia|].
  destruct (Z.eqb_spec (biased_exp x) 0).
  - split; [reflexivity|]. apply (G _ _ _ 112); unfold emin; lia.
  - split; [reflexivity|]. apply (G _ _ _ 113); unfold ebias; lia.
Qed.

Lemma bounded_by_table x be tbl :
  exponents_below be tbl = true -> In x tbl -> be <= 32767 ->
  bounded x (be - 16383).
Proof.
  intros H Hin Hbe. unfold exponents_below in H.
  rewrite forallb_forall in H. specialize (H x Hin).
  apply andb_true_iff in H. destruct H as (W & B).
  apply bounded_by_exponent; [apply wfb_wf; exact W | | exact Hbe].
  apply Z.ltb_lt. exact B.
Qed.

(** ** The exponent range and the size of the constants *)

Lemma frexpl_exp_range x u e :
  pos_finite x -> __frexpl x = (u, e) -> -16493 <= e <= 16384.
Proof.
  intros (Hw & Hs & Hinf & Hz) F. unfold __frexpl in F.
  pose proof (biased_exp_range x) as Be. pose proof (mantissa_range x Hw) as Bm.
  destruct (Z.eqb_spec (biased_exp x) 32767) as [|_]; [contradiction|].
  destruct (Z.eqb_spec (biased_exp x) 0) as [E0|N0]; cbn [orb andb] in F.
  - destruct (Z.eqb_spec (mantissa x) 0) as [M0|NM].
    + exfalso. apply Hz. split; assumption.
    + apply (f_equal snd) in F. cbn [snd] in F. subst e.
      assert (0 <= Z.log2 (mantissa x) < 112).
      { split; [apply Z.log2_nonneg|]. apply Z.log2_lt_pow2; lia. }
      lia.
  - apply (f_equal snd) in F. cbn [snd] in F. norm_pow. lia.
Qed.

Lemma table_index_exp u e k t u' e' :
  table_index u e = (k, t, u', e') -> e - 1 <= e' <= e.
Proof.
  unfold table_index. intros T.
  destruct (significand_word u <? 0x16800);
    apply (f_equal snd) in T; cbn [snd] in T; lia.
Qed.

Lemma coefficients_below : exponents_below 16382 coefficients = true.
Proof. reflexivity. Qed.

Lemma logtbl_below : exponents_below 16380 logtbl = true.
Proof. reflexivity. Qed.

Lemma bounded_coefficient c : In c coefficients -> bounded c (-1).
Proof.
  intros H. apply (bounded_by_table c 16382 coefficients coefficients_below H).
  lia.
Qed.

Lemma tbl_read_bounded i c : tbl_read i = Some c -> bounded c (-3).
Proof.
  unfold tbl_read. destruct (_ && _); [|discriminate].
  intros H. apply nth_error_In in H.
  apply (bounded_by_table c 16380 logtbl logtbl_below H). lia.
Qed.

Lemma bounded_half : bounded half 0.
Proof.
  apply (bounded_by_exponent half 16383); [apply wfb_wf; reflexivity| |lia].
  vm_compute. reflexivity.
Qed.

Lemma bounded_ln2b : bounded ln2b (-19).
Proof.
  apply (bounded_by_exponent ln2b 16364); [apply wfb_wf; reflexivity| |lia].
  vm_compute. reflexivity.
Qed.

Lemma horner_step acc z c :
  bounded acc 0 -> bounded z (-7) -> In c coefficients ->
  bounded (fadd (fmul acc z) c) 0.
Proof.
  intros Ha Hz Hc.
  apply fadd_bounded with (a := -7) (b := -1);
    [|apply bounded_coefficient; exact Hc|lia|lia|unfold emin; lia].
  apply fmul_bounded with (a := 0) (b := -7);
    [exact Ha|exact Hz|lia|unfold emin; lia].
Qed.

Lemma finite_of_positive x : (0 < Qval x)%Q -> is_finite x = true.
Proof.
  unfold Qval, is_finite. destruct (decode x); [|  |reflexivity];
    intros H; exfalso; revert H; apply Qlt_irrefl.
Qed.

Lemma pow2_m7 : (2 ^ (-7) == 1 # 128)%Q.
Proof. reflexivity. Qed.

(** ** The geometry of the general reduction *)

(** The realigned significand and the table argument on a common scale
    [2^E]: [u' = U 2^E] and [t = (64 + k) 2^(-E-7) 2^E], at most half a grid
    step apart, with [U] between the ends of the table's domain. *)
Lemma reduction_geometry x u e k t u' e' :
  pos_finite x -> __frexpl x = (u, e) -> table_index u e = (k, t, u', e') ->
  exists U E mu eu mt et,
    -113 <= E <= -112 /\ 26 <= k <= 116 /\
    decode u' = V_fin false mu eu /\ decode t = V_fin false mt et /\
    (Qval u' == inject_Z U * 2 ^ E)%Q /\
    (Qval t == inject_Z ((64 + k) * 2 ^ (- E - 7)) * 2 ^ E)%Q /\
    - 2 ^ (- E - 8) <= U - (64 + k) * 2 ^ (- E - 7) < 2 ^ (- E - 8) /\
    45 * 2 ^ (- E - 6) <= U < 45 * 2 ^ (- E - 5).
Proof.
  intros Hx F T.
  destruct (frexpl_spec x u e Hx F) as (M & HM & -> & V).
  pose proof (significand_word_pack M HM) as Em.
  destruct (table_index_spec M e k t u' e' HM T)
    as [(Hm & -> & -> & Hk & -> & B) | (Hm & -> & -> & Hk & Et & B)].
  - exists (2 ^ 112 + M), (-112), (2 ^ 112 + M), (-112),
           (2 ^ 112 + (k - 64) * 2 ^ 105), (-112).
    assert (Du : decode (pack false 16383 M) = V_fin false (2 ^ 112 + M) (-112))
      by (rewrite decode_pack_normal by lia; reflexivity).
    assert (Dt : decode (pack false 16383 ((k - 64) * 2 ^ 105))
                 = V_fin false (2 ^ 112 + (k - 64) * 2 ^ 105) (-112))
      by (rewrite decode_pack_normal by lia; reflexivity).
    split; [lia|]. split; [lia|]. split; [exact Du|]. split; [exact Dt|].
    split; [rewrite (decode_Qval _ _ _ _ Du); apply dyadic_eq|].
    split.
    { rewrite (decode_Qval _ _ _ _ Dt), dyadic_eq.
      replace ((64 + k) * 2 ^ (- -112 - 7)) with (2 ^ 112 + (k - 64) * 2 ^ 105)
        by lia. reflexivity. }
    rewrite Em in Hm. change (- -112 - 7) with 105. change (- -112 - 8) with 104.
    change (- -112 - 6) with 106. change (- -112 - 5) with 107.
    split; [lia|]. divlia.
  - assert (Du : decode (pack false 16382 M) = V_fin false (2 ^ 112 + M) (-113))
      by (rewrite decode_pack_normal by lia; reflexivity).
    assert (Dt : exists mt et, decode t = V_fin false mt et /\
               (Qval t == inject_Z (2 ^ 112 + k * 2 ^ 106) * 2 ^ (-113))%Q).
    { rewrite Et. destruct (Z.eqb_spec k 64) as [K|K].
      - exists (2 ^ 112), (-112). split; [reflexivity|].
        rewrite K. reflexivity.
      - exists (2 ^ 112 + k * 2 ^ 106), (-113).
        assert (D : decode (pack false 16382 (k * 2 ^ 106))
                    = V_fin false (2 ^ 112 + k * 2 ^ 106) (-113))
          by (rewrite decode_pack_normal by lia; reflexivity).
        split; [exact D|]. rewrite (decode_Qval _ _ _ _ D). apply dyadic_eq. }
    destruct Dt as (mt & et & Dt & Vt).
    exists (2 ^ 112 + M), (-113), (2 ^ 112 + M), (-113), mt, et.
    split; [lia|]. split; [lia|]. split; [exact Du|]. split; [exact Dt|].
    split; [rewrite (decode_Qval _ _ _ _ Du); apply dyadic_eq|].
    split.
    { rewrite Vt.
      replace ((64 + k) * 2 ^ (- -113 - 7)) with (2 ^ 112 + k * 2 ^ 106)
        by lia. reflexivity. }
    rewrite Em in Hm. change (- -113 - 7) with 106. change (- -113 - 8) with 105.
    change (- -113 - 6) with 107. change (- -113 - 5) with 108.
    split; [lia|]. divlia.
Qed.

Lemma scale_le U N E j :
  -113 <= E <= -112 -> N * 2 ^ (- E - j) <= U -> 0 <= j <= 100 ->
  (inject_Z N * 2 ^ (- j) <= inject_Z U * 2 ^ E)%Q.
Proof.
  intros HE H Hj. pose proof (pow2_pos E) as P.
  apply Qle_trans with (inject_Z (N * 2 ^ (- E - j)) * 2 ^ E)%Q.
  - rewrite inject_Z_mult, pow2_inject by lia.
    rewrite <- Qmult_assoc, <- pow2_add.
    replace (- E - j + E) with (- j) by lia. apply Qle_refl.
  - apply Qmult_le_compat_r; [|lra]. rewrite <- Zle_Qle. exact H.
Qed.

Lemma scale_lt U N E j :
  -113 <= E <= -112 -> U < N * 2 ^ (- E - j) -> 0 <= j <= 100 ->
  (inject_Z U * 2 ^ E < inject_Z N * 2 ^ (- j))%Q.
Proof.
  intros HE H Hj. pose proof (pow2_pos E) as P.
  apply Qlt_le_trans with (inject_Z (N * 2 ^ (- E - j)) * 2 ^ E)%Q.
  - apply Qmult_lt_compat_r; [exact P|]. rewrite <- Zlt_Qlt. exact H.
  - rewrite inject_Z_mult, pow2_inject by lia.
    rewrite <- Qmult_assoc, <- pow2_add.
    replace (- E - j + E) with (- j) by lia. apply Qle_refl.
Qed.

Lemma scale_abs_le D E j :
  -113 <= E <= -112 -> Z.abs D <= 2 ^ (- E - j) -> 0 <= j <= 100 ->
  (Qabs (inject_Z D * 2 ^ E) <= 2 ^ (- j))%Q.
Proof.
  intros HE H Hj. pose proof (pow2_pos E) as P.
  rewrite Qabs_Qmult, (Qabs_pos (2 ^ E)) by lra.
  change (Qabs (inject_Z D)) with (inject_Z (Z.abs D)).
  apply Qle_trans with (inject_Z (2 ^ (- E - j)) * 2 ^ E)%Q.
  - apply Qmult_le_compat_r; [|lra]. rewrite <- Zle_Qle. exact H.
  - rewrite pow2_inject by lia. rewrite <- pow2_add.
    replace (- E - j + E) with (- j) by lia. apply Qle_refl.
Qed.

Lemma difference_scaled x y U T E :
  (Qval x == inject_Z U * 2 ^ E)%Q -> (Qval y == inject_Z T * 2 ^ E)%Q ->
  (Qval x - Qval y == inject_Z (U - T) * 2 ^ E)%Q.
Proof.
  intros Vx Vy. rewrite Vx, Vy. unfold Z.sub.
  rewrite inject_Z_plus, inject_Z_opp. ring.
Qed.

(** X4: the realigned significand lies in the domain of the table,
    [0.703125 <= u < 1.40625], and [x = 2^e u]. *)
Theorem realigned_significand_domain x u e k t u' e' :
  pos_finite x -> __frexpl x = (u, e) -> table_index u e = (k, t, u', e') ->
  (45 # 64 <= Qval u')%Q /\ (Qval u' < 45 # 32)%Q /\
  (Qval x == 2 ^ e' * Qval u')%Q.
Proof.
  intros Hx F T.
  destruct (reduction_geometry x u e k t u' e' Hx F T)
    as (U & E & mu & eu & mt & et & HE & Hk & Du & Dt & Vu & Vt & Hd & HU).
  destruct (general_reduction x u e k t u' e' Hx F T) as (_ & _ & Vx & _).
  rewrite Vu. split; [|split; [|rewrite <- Vu; exact Vx]].
  - apply (scale_le U 45 E 6); lia.
  - apply (scale_lt U 45 E 5); lia.
Qed.

(** X5: [t] is the table argument nearest to the realigned significand: it
    is within half a grid step, [-1/256 <= u - t < 1/256] (a significand
    half-way between two grid points takes the upper one), and no grid
    point [1/2 + j/128] is nearer. *)
Theorem table_argument_is_nearest x u e k t u' e' :
  pos_finite x -> __frexpl x = (u, e) -> table_index u e = (k, t, u', e') ->
  (- (1 # 256) <= Qval u' - Qval t)%Q /\ (Qval u' - Qval t < 1 # 256)%Q /\
  forall j : Z,
    (Qabs (Qval u' - Qval t)
     <= Qabs (Qval u' - ((1 # 2) + inject_Z j / 128)))%Q.
Proof.
  intros Hx F T.
  destruct (reduction_geometry x u e k t u' e' Hx F T)
    as (U & E & mu & eu & mt & et & HE & Hk & Du & Dt & Vu & Vt & Hd & HU).
  destruct (general_reduction x u e k t u' e' Hx F T) as (_ & Gt & _).
  pose proof (difference_scaled u' t _ _ E Vu Vt) as Vd.
  assert (B1 : (- (1 # 256) <= Qval u' - Qval t)%Q).
  { rewrite Vd. apply (scale_le _ (-1) E 8); lia. }
  assert (B2 : (Qval u' - Qval t < 1 # 256)%Q).
  { rewrite Vd. apply (scale_lt _ 1 E 8); lia. }
  split; [exact B1|]. split; [exact B2|]. intros j.
  destruct (Z.eq_dec j k) as [->|Hj].
  - rewrite <- Gt. apply Qle_refl.
  - apply Qle_trans with (1 # 256)%Q; [apply Qabs_Qle_condition; lra|].
    revert B1 B2. rewrite Gt. unfold Qdiv. change (/ 128)%Q with (1 # 128)%Q.
    intros B1 B2.
    destruct (Z.lt_ge_cases j k) as [L|G].
    + assert (A : (inject_Z j + 1 <= inject_Z k)%Q).
      { change 1%Q with (inject_Z 1). rewrite <- inject_Z_plus, <- Zle_Qle. lia. }
      apply Qle_trans with (2 := Qle_Qabs _). lra.
    + assert (A : (inject_Z k + 1 <= inject_Z j)%Q).
      { change 1%Q with (inject_Z 1). rewrite <- inject_Z_plus, <- Zle_Qle. lia. }
      rewrite <- Qabs_opp. apply Qle_trans with (2 := Qle_Qabs _). lra.
Qed.

(** X6: the subtraction [u - t] of line 258 is exact, so the reduced
    argument carries the rounding of the division only. *)
Theorem reduction_difference_is_exact x u e k t u' e' :
  pos_finite x -> __frexpl x = (u, e) -> table_index u e = (k, t, u', e') ->
  is_finite (fsub u' t) = true /\
  (Qval (fsub u' t) == Qval u' - Qval t)%Q /\
  fdiv (fsub u' t) t = round_to_nearest (Qval (fsub u' t) / Qval t).
Proof.
  intros Hx F T.
  destruct (reduction_geometry x u e k t u' e' Hx F T)
    as (U & E & mu & eu & mt & et & HE & Hk & Du & Dt & Vu & Vt & Hd & HU).
  destruct (general_reduction x u e k t u' e' Hx F T)
    as (_ & _ & _ & Pt & Ez & _).
  assert (Fu : is_finite u' = true) by (unfold is_finite; rewrite Du; reflexivity).
  assert (Ft : is_finite t = true) by (unfold is_finite; rewrite Dt; reflexivity).
  assert (P : 2 ^ (- E - 8) < 2 ^ 113) by (apply Z.pow_lt_mono_r; lia).
  destruct (fsub_exact u' t _ E Fu Ft (difference_scaled u' t _ _ E Vu Vt))
    as (Fd & Wd); [lia|unfold emin; lia|].
  split; [exact Fd|]. split; [exact Wd|].
  rewrite Ez. apply round_to_nearest_comp. rewrite Wd. reflexivity.
Qed.

(** X8: in the interval around 1 the reduction is exact: [z = x - 1]
    without rounding error, so that [x = 1 + z] holds exactly. *)
Theorem band_reduction_is_exact x :
  pos_finite x -> fle x band_hi = true -> fge x band_lo = true ->
  feq x one = false ->
  exists r, reduce x = inr r /\ red_e r = 0 /\
            is_finite (red_z r) = true /\
            (Qval x == 1 + Qval (red_z r))%Q /\
            (Qabs (Qval (red_z r)) <= 1 # 128)%Q.
Proof.
  intros Hx Hhi Hlo Hne.
  destruct (band_argument x Hx Hhi Hlo Hne) as (Ez & Fz & Wz & Bz).
  exists (mk_reduction (fsub x one) 0 64 one). cbn [red_z red_e].
  split.
  - unfold reduce. destruct (__frexpl x) as [u e].
    destruct (table_index u e) as [[[k t] u'] e'].
    rewrite Hhi, Hlo, Hne. reflexivity.
  - split; [reflexivity|]. split; [exact Fz|].
    split; [rewrite Wz; ring|rewrite Wz; exact Bz].
Qed.

(** ** The size and the sign of the result *)

Lemma RN_within q N E :
  ~ (q == 0)%Q -> (Qabs q <= inject_Z N * 2 ^ E)%Q ->
  0 < N < 2 ^ 113 -> emin <= E <= 16271 -> within (RN q) N E.
Proof.
  intros Hq Ha HN HE.
  destruct (RN_upper q Hq N E Ha HN HE) as (U & O1 & O2).
  pose proof (RN_mant_range q Hq) as R.
  destruct (encode_val (Qnum q <? 0) _ _ R (RN_exp_ge q) (RN_mant_normal q Hq)
              O1 O2) as (m' & e' & D & _ & Rm & Re & _ & V).
  rewrite RN_unfold. unfold within, is_finite, Qval. rewrite D.
  split; [reflexivity|]. rewrite Qabs_dyadic by lia. rewrite V. exact U.
Qed.

Lemma within_zero s N E : 0 <= N -> within (zero s) N E.
Proof.
  intros HN. split; [unfold is_finite; rewrite decode_zero; reflexivity|].
  rewrite Qval_zero. change (Qabs 0) with 0%Q.
  apply Qmult_le_0_compat; [|apply Qlt_le_weak, pow2_pos].
  change 0%Q with (inject_Z 0). rewrite <- Zle_Qle. exact HN.
Qed.

Lemma fadd_within_sum x y N E :
  is_finite x = true -> is_finite y = true ->
  (Qabs (Qval x + Qval y) <= inject_Z N * 2 ^ E)%Q ->
  0 < N < 2 ^ 113 -> emin <= E <= 16271 -> within (fadd x y) N E.
Proof.
  intros Fx Fy B HN HE.
  destruct (finite_decode x Fx) as (s1 & m1 & e1 & D1).
  destruct (finite_decode y Fy) as (s2 & m2 & e2 & D2).
  rewrite (decode_Qval _ _ _ _ D1), (decode_Qval _ _ _ _ D2) in B.
  unfold fadd. rewrite D1, D2.
  destruct (Qeq_bool _ 0) eqn:Z0; [apply within_zero; lia|].
  apply RN_within; [apply Qeq_bool_false; exact Z0|exact B|exact HN|exact HE].
Qed.

Lemma fsub_within_difference x y N E :
  is_finite x = true -> is_finite y = true ->
  (Qabs (Qval x - Qval y) <= inject_Z N * 2 ^ E)%Q ->
  0 < N < 2 ^ 113 -> emin <= E <= 16271 -> within (fsub x y) N E.
Proof.
  intros Fx Fy B HN HE.
  destruct (finite_decode x Fx) as (s1 & m1 & e1 & D1).
  destruct (finite_decode y Fy) as (s2 & m2 & e2 & D2).
  rewrite (decode_Qval _ _ _ _ D1), (decode_Qval _ _ _ _ D2) in B.
  unfold fsub. rewrite D1, D2.
  destruct (Qeq_bool _ 0) eqn:Z0; [apply within_zero; lia|].
  apply RN_within; [apply Qeq_bool_false; exact Z0|exact B|exact HN|exact HE].
Qed.

Lemma fadd_within x y A B C E :
  within x A E -> within y B E -> A + B <= C ->
  0 < C < 2 ^ 113 -> emin <= E <= 16271 -> within (fadd x y) C E.
Proof.
  intros (Fx & Bx) (Fy & By) H HC HE.
  apply fadd_within_sum; try assumption.
  apply Qle_trans with (1 := Qabs_triangle _ _).
  apply Qle_trans with (inject_Z (A + B) * 2 ^ E)%Q.
  - rewrite inject_Z_plus. lra.
  - apply Qmult_le_compat_r; [|apply Qlt_le_weak, pow2_pos].
    rewrite <- Zle_Qle. exact H.
Qed.

Lemma bounded_within x K E :
  bounded x K -> E <= K -> within x (2 ^ (K - E)) E.
Proof.
  intros (F & B) H. split; [exact F|].
  rewrite pow2_inject by lia. rewrite <- pow2_add.
  replace (K - E + E) with K by lia. exact B.
Qed.

(** The product [e * ln2a] of line 280 is exact: [ln2a] has 17 significant
    bits. *)
Lemma exponent_term e :
  Z.abs e < 2 ^ 90 ->
  is_finite (fmul (of_int e) ln2a) = true /\
  (Qval (fmul (of_int e) ln2a) == inject_Z (e * 90852) * 2 ^ (-17))%Q.
Proof.
  intros He. destruct (Z.eq_dec e 0) as [->|Hne].
  - split; reflexivity.
  - assert (He' : Z.abs e < 2 ^ 113).
    { apply Z.lt_trans with (1 := He). apply Z.pow_lt_mono_r; lia. }
    pose proof (of_int_value e Hne He') as Ve.
    assert (HN : 0 < Z.abs e * 90852 < 2 ^ 113).
    { split; [lia|]. apply Z.lt_le_trans with (2 ^ 90 * 2 ^ 23); [|].
      - apply Z.lt_trans with (2 ^ 90 * 90852); [|norm_pow; lia].
        apply Z.mul_lt_mono_pos_r; lia.
      - rewrite <- Z.pow_add_r by lia. apply Z.le_refl. }
    destruct (fmul_value _ _ _ _ _ _ (Z.abs e * 90852) (-17)
                (Z.abs e * 90852) (-17) Ve ln2a_value)
      as (v & V & L & U); try (unfold emin; lia).
    { rewrite inject_Z_mult, Qmult_assoc. apply Qle_refl. }
    { rewrite inject_Z_mult, Qmult_assoc. apply Qle_refl. }
    rewrite xorb_false_r in V.
    destruct (has_value_Qval _ _ _ V) as (F & W & _).
    split; [exact F|]. rewrite W.
    assert (Ev : (v == inject_Z (Z.abs e * 90852) * 2 ^ (-17))%Q)
      by (apply Qle_antisym; assumption).
    unfold signed. destruct (Z.ltb_spec e 0) as [Neg|Pos]; rewrite Ev.
    + replace (e * 90852) with (- (Z.abs e * 90852)) by lia.
      rewrite inject_Z_opp. ring.
    + replace (Z.abs e * 90852) with (e * 90852) by lia. reflexivity.
Qed.

(** What range reduction leaves, on both paths: a small [z], an exponent
    of at most 16494 in magnitude, an index the table has, and [t] on the
    grid. *)
Lemma reduce_state x r :
  pos_finite x -> reduce x = inr r ->
  bounded (red_z r) (-7) /\ Z.abs (red_e r) <= 16494 /\
  26 <= red_k r <= 116 /\ is_finite (red_t r) = true /\
  (Qval (red_t r) == (1 # 2) + inject_Z (red_k r) / 128)%Q.
Proof.
  intros Hx. unfold reduce.
  destruct (__frexpl x) as [u e] eqn:F.
  destruct (table_index u e) as [[[k t] u'] e'] eqn:T.
  destruct (fle x band_hi && fge x band_lo) eqn:Band.
  - apply andb_true_iff in Band. destruct Band as (Hhi & Hlo).
    destruct (feq x one) eqn:Hne; [discriminate|].
    intros R. injection R as <-. cbn [red_z red_e red_k red_t].
    destruct (band_argument x Hx Hhi Hlo Hne) as (Ez & Fz & Wz & Bz).
    split; [split; [exact Fz|rewrite Wz, pow2_m7; exact Bz]|].
    split; [cbn; lia|]. split; [lia|]. split; reflexivity.
  - intros R. injection R as <-. cbn [red_z red_e red_k red_t].
    destruct (general_reduction x u e k t u' e' Hx F T)
      as (Hk & Vt & Vx & Pt & Ez & Bq & Fz & Bz).
    pose proof (frexpl_exp_range x u e Hx F) as He.
    pose proof (table_index_exp u e k t u' e' T) as He'.
    split; [split; [exact Fz|rewrite pow2_m7; exact Bz]|].
    split; [lia|]. split; [exact Hk|].
    split; [apply finite_of_positive; exact Pt|exact Vt].
Qed.

(** Everything the final sum adds before the exponent term stays within
    [78864 * 2^-17], about 0.6017 and below [ln2a]. *)
Lemma series_sum_parts r :
  bounded (red_z r) (-7) -> Z.abs (red_e r) <= 16494 ->
  26 <= red_k r <= 116 -> is_finite (red_t r) = true ->
  (Qval (red_t r) == (1 # 2) + inject_Z (red_k r) / 128)%Q ->
  exists y5, series_sum r = Some (fadd y5 (fmul (of_int (red_e r)) ln2a)) /\
             within y5 78864 (-17).
Proof.
  destruct r as [z e k t]. cbn [red_z red_e red_k red_t].
  intros Hz He Hk Ft Vt.
  destruct (tbl_read_some (k - 26) ltac:(lia)) as (c & Hc).
  unfold series_sum. cbn [red_z red_e red_k red_t]. rewrite Hc.
  eexists. split; [reflexivity|].
  pose proof (tbl_read_bounded _ _ Hc) as Bc.
  assert (Be : bounded (of_int e) 15) by (apply of_int_bounded; norm_pow; lia).
  assert (Bw : bounded (fmul z z) (-14)).
  { apply fmul_bounded with (a := -7) (b := -7);
      [exact Hz|exact Hz|lia|unfold emin; lia]. }
  assert (B15 : bounded l15 0).
  { apply bounded_weaken with (-1); [|lia].
    apply bounded_coefficient. cbn. tauto. }
  assert (HE : emin <= -17 <= 16271) by (unfold emin; lia).
  apply fadd_within with (A := 25616) (B := 53248);
    [| |lia|norm_pow; lia|exact HE].
  2:{ apply fsub_within_difference;
        [exact Ft|reflexivity| |norm_pow; lia|exact HE].
      rewrite Vt, Qval_one.
      assert (A1 : (inject_Z 26 <= inject_Z k)%Q) by (rewrite <- Zle_Qle; lia).
      assert (A2 : (inject_Z k <= inject_Z 116)%Q) by (rewrite <- Zle_Qle; lia).
      change (inject_Z 26) with 26%Q in A1. change (inject_Z 116) with 116%Q in A2.
      change (inject_Z 53248 * 2 ^ (-17))%Q with (53248 # 131072)%Q.
      unfold Qdiv. change (/ 128)%Q with (1 # 128)%Q.
      apply Qabs_Qle_condition. split; lra. }
  apply fadd_within with (A := 9232) (B := 16384);
    [|exact (bounded_within c (-3) (-17) Bc ltac:(lia))
     |lia|norm_pow; lia|exact HE].
  apply fadd_within with (A := 8208) (B := 1024);
    [|exact (bounded_within z (-7) (-17) Hz ltac:(lia))
     |lia|norm_pow; lia|exact HE].
  apply fadd_within with (A := 16) (B := 8192);
    [| |lia|norm_pow; lia|exact HE].
  2:{ apply (bounded_within _ (-4) (-17)); [|lia].
      apply fmul_bounded with (a := 15) (b := -19);
        [exact Be|exact bounded_ln2b|lia|unfold emin; lia]. }
  apply (bounded_within _ (-13) (-17)); [|lia].
  apply fsub_bounded with (a := -21) (b := -14); try lia.
  2:{ apply fmul_bounded with (a := 0) (b := -14);
        [exact bounded_half|exact Bw|lia|unfold emin; lia]. }
  apply fmul_bounded with (a := -7) (b := -14);
    [|exact Bw|lia|unfold emin; lia].
  apply fmul_bounded with (a := 0) (b := -7);
    [|exact Hz|lia|unfold emin; lia].
  repeat (apply horner_step; [|exact Hz|cbn; tauto]).
  exact B15.
Qed.

Lemma reduce_inl x y : reduce x = inl y -> y = fzero.
Proof.
  unfold reduce. destruct (__frexpl x) as [u e].
  destruct (table_index u e) as [[[k t] u'] e'].
  destruct (_ && _); [|discriminate]. destruct (feq x one); [|discriminate].
  intros R. injection R as <-. reflexivity.
Qed.

(** The result on a positive finite argument is the rounded sum of the
    exact exponent term and a remainder within [78864 * 2^-17]. *)
Lemma logl_decomposition x r :
  pos_finite x -> reduce x = inr r ->
  exists y5,
    __ieee754_logl x = Some (fadd y5 (fmul (of_int (red_e r)) ln2a)) /\
    within y5 78864 (-17) /\ Z.abs (red_e r) <= 16494 /\
    is_finite (fmul (of_int (red_e r)) ln2a) = true /\
    (Qval (fmul (of_int (red_e r)) ln2a)
     == inject_Z (red_e r * 90852) * 2 ^ (-17))%Q.
Proof.
  intros Hx R.
  destruct (reduce_state x r Hx R) as (Hz & He & Hk & Ft & Vt).
  destruct (series_sum_parts r Hz He Hk Ft Vt) as (y5 & Y & W).
  destruct (exponent_term (red_e r)) as (Fc & Vc).
  { apply Z.le_lt_trans with (1 := He). reflexivity. }
  exists y5. rewrite (logl_general x Hx), R. tauto.
Qed.

(** X9: the product [e * ln2a] of the last line is exact for every exponent
    the reduction produces: its value is [e * 90852 / 2^17]. *)
Theorem exponent_term_is_exact x r :
  pos_finite x -> reduce x = inr r ->
  is_finite (fmul (of_int (red_e r)) ln2a) = true /\
  (Qval (fmul (of_int (red_e r)) ln2a)
   == inject_Z (red_e r) * (90852 # 131072))%Q.
Proof.
  intros Hx R.
  destruct (logl_decomposition x r Hx R) as (y5 & _ & _ & _ & F & V).
  split; [exact F|]. rewrite V, inject_Z_mult.
  change (2 ^ (-17))%Q with (1 # 131072)%Q.
  change (inject_Z 90852) with (90852 # 1)%Q.
  generalize (inject_Z (red_e r)). intros q. 
  setoid_replace (90852 # 131072)%Q with ((90852 # 1) * (1 # 131072))%Q
    by reflexivity.
  ring.
Qed.

Lemma scaled_sum_bounds a c A e :
  (Qabs a <= inject_Z A * 2 ^ (-17))%Q ->
  (c == inject_Z (e * 90852) * 2 ^ (-17))%Q ->
  (inject_Z (e * 90852 - A) * 2 ^ (-17) <= a + c)%Q /\
  (a + c <= inject_Z (e * 90852 + A) * 2 ^ (-17))%Q.
Proof.
  intros Ha Hc. apply Qabs_Qle_condition in Ha. destruct Ha as (H1 & H2).
  unfold Z.sub. rewrite !inject_Z_plus, inject_Z_opp, Hc.
  revert H1 H2. generalize (inject_Z (e * 90852)), (inject_Z A).
  intros p q. change (2 ^ (-17))%Q with (1 # 131072)%Q. intros H1 H2.
  split; lra.
Qed.

(** No overflow and no invalid operation on the way: the result on a
    positive finite argument is finite, within [(78864 + 16494 * 90852) *
    2^-17]. *)
Lemma logl_within x :
  pos_finite x ->
  exists y, __ieee754_logl x = Some y /\ within y 1498591752 (-17).
Proof.
  intros Hx. destruct (reduce x) as [y|r] eqn:R.
  - rewrite (logl_general x Hx), R. exists y. split; [reflexivity|].
    rewrite (reduce_inl x y R). apply (within_zero false). lia.
  - destruct (logl_decomposition x r Hx R) as (y5 & Y & (F5 & B5) & He & Fc & Vc).
    eexists. split; [exact Y|].
    destruct (scaled_sum_bounds _ _ 78864 (red_e r) B5 Vc) as (L & U).
    apply fadd_within_sum;
      [exact F5|exact Fc| |norm_pow; lia|unfold emin; lia].
    apply Qabs_Qle_condition. split.
    + apply Qle_trans with (2 := L).
      setoid_replace (- (inject_Z 1498591752 * 2 ^ (-17)))%Q
        with (inject_Z (-1498591752) * 2 ^ (-17))%Q by reflexivity.
      apply Qmult_le_compat_r; [|apply Qlt_le_weak, pow2_pos].
      rewrite <- Zle_Qle. lia.
    + apply Qle_trans with (1 := U).
      apply Qmult_le_compat_r; [|apply Qlt_le_weak, pow2_pos].
      rewrite <- Zle_Qle. lia.
Qed.

(** X1: on every positive finite argument, normal or subnormal, the
    routine returns a finite number, never a NaN or an infinity, and
    its magnitude is at most 11434. *)
Theorem logl_finite_on_positive_arguments x :
  pos_finite x ->
  exists y, __ieee754_logl x = Some y /\ is_finite y = true /\
            (Qabs (Qval y) <= 11434)%Q.
Proof.
  intros Hx. destruct (logl_within x Hx) as (y & Y & F & B).
  exists y. split; [exact Y|]. split; [exact F|].
  apply Qle_trans with (1 := B).
  change (2 ^ (-17))%Q with (1 # 131072)%Q.
  change (inject_Z 1498591752) with (1498591752 # 1)%Q. lra.
Qed.

(** ** Which arguments give a NaN, which an infinity *)

(** The four ways through the special-case tests (lines 199-214). *)
Lemma argument_cases x :
  wf x ->
  is_zero x \/ (sign_bit x = true /\ ~ is_zero x) \/
  (sign_bit x = false /\ biased_exp x = 32767) \/ pos_finite x.
Proof.
  intros Hx.
  destruct (Z.eq_dec (biased_exp x) 0) as [E0|N0].
  - destruct (Z.eq_dec (mantissa x) 0) as [M0|NM].
    + left. split; assumption.
    + destruct (sign_bit x) eqn:S.
      * right; left. split; [reflexivity|]. intros (_ & M). contradiction.
      * right; right; right. unfold pos_finite, is_zero.
        repeat split; try assumption; try apply Hx; lia.
  - destruct (sign_bit x) eqn:S.
    + right; left. split; [reflexivity|]. intros (E & _). contradiction.
    + destruct (Z.eq_dec (biased_exp x) 32767) as [E|NE].
      * right; right; left. split; [reflexivity|exact E].
      * right; right; right. unfold pos_finite, is_zero.
        repeat split; try assumption; try apply Hx; lia.
Qed.

Lemma zero_not_nan x : is_zero x -> is_nan x = false.
Proof.
  intros (E & M). unfold is_nan, decode. rewrite E, M. reflexivity.
Qed.

Lemma finite_not_nan x : is_finite x = true -> is_nan x = false.
Proof. unfold is_finite, is_nan. destruct (decode x); congruence. Qed.

Lemma finite_not_inf x : is_finite x = true -> is_inf x = false.
Proof. unfold is_finite, is_inf. destruct (decode x); congruence. Qed.

Lemma nan_not_inf x : is_nan x = true -> is_inf x = false.
Proof. unfold is_nan, is_inf. destruct (decode x); congruence. Qed.

Lemma pos_finite_is_finite x : pos_finite x -> is_finite x = true.
Proof.
  intros (_ & _ & E & _). unfold is_finite, decode.
  destruct (Z.eqb_spec (biased_exp x) 32767); [contradiction|].
  destruct (_ =? 0); reflexivity.
Qed.

Lemma plus_infinity_fields x :
  wf x -> sign_bit x = false -> biased_exp x = 32767 -> mantissa x = 0 ->
  x = infinity false.
Proof.
  intros Hx S E M. rewrite <- (pack_fields x Hx), S, E, M. reflexivity.
Qed.

(** X2: the result is a NaN exactly when the argument is a NaN or is
    negative and not a zero (minus infinity included). *)
Theorem logl_nan_iff x :
  wf x ->
  exists y, __ieee754_logl x = Some y /\
            (is_nan y = true <->
             is_nan x = true \/ (sign_bit x = true /\ ~ is_zero x)).
Proof.
  intros Hx.
  destruct (argument_cases x Hx) as [Z|[(S & NZ)|[(S & E)|P]]].
  - exists (fdiv minus_half ZERO). split; [apply logl_zero; assumption|].
    rewrite div_by_zero_idiom, (zero_not_nan x Z). split.
    + intros H. vm_compute in H. discriminate H.
    + intros [H|(_ & H)]; [discriminate H|contradiction].
  - exists (fdiv (fsub x x) ZERO). split; [apply logl_negative; assumption|].
    rewrite (invalid_idiom_is_nan x Hx). split; [|reflexivity].
    intros _. right. split; assumption.
  - exists (fadd x x). split; [apply logl_inf_nan; assumption|].
    destruct (Z.eq_dec (mantissa x) 0) as [M|NM].
    + rewrite (plus_infinity_fields x Hx S E M). split.
      * intros H. vm_compute in H. discriminate H.
      * intros [H|(H & _)]; [vm_compute in H; discriminate H|].
        vm_compute in H. discriminate H.
    + assert (D : decode x = V_nan) by (apply decode_nan_iff; split; assumption).
      rewrite (fadd_nan x x D). split.
      * intros _. left. apply is_nan_decode. exact D.
      * intros _. apply is_nan_decode. apply quiet_is_nan; assumption.
  - destruct (logl_within x P) as (y & Y & F & _).
    exists y. split; [exact Y|]. rewrite (finite_not_nan y F).
    rewrite (finite_not_nan x (pos_finite_is_finite x P)).
    destruct P as (_ & S & _). rewrite S. split.
    + discriminate.
    + intros [H|(H & _)]; discriminate H.
Qed.

(** X3: the result is an infinity exactly at the two zeros and at plus
    infinity; plus infinity comes back as plus infinity. *)
Theorem logl_infinite_iff x :
  wf x ->
  exists y, __ieee754_logl x = Some y /\
            (is_inf y = true <-> is_zero x \/ x = infinity false) /\
            (x = infinity false -> y = infinity false).
Proof.
  intros Hx.
  assert (NI : ~ is_zero (infinity false)).
  { intros (H & _). vm_compute in H. discriminate H. }
  destruct (argument_cases x Hx) as [Z|[(S & NZ)|[(S & E)|P]]].
  - exists (fdiv minus_half ZERO). split; [apply logl_zero; assumption|].
    rewrite div_by_zero_idiom. split.
    + split; [intros _; left; exact Z|reflexivity].
    + intros ->. contradiction.
  - exists (fdiv (fsub x x) ZERO). split; [apply logl_negative; assumption|].
    rewrite (nan_not_inf _ (invalid_idiom_is_nan x Hx)).
    assert (x <> infinity false).
    { intros ->. vm_compute in S. discriminate S. }
    split; [|contradiction]. split; [discriminate|].
    intros [H'|H']; contradiction.
  - exists (fadd x x). split; [apply logl_inf_nan; assumption|].
    destruct (Z.eq_dec (mantissa x) 0) as [M|NM].
    + rewrite (plus_infinity_fields x Hx S E M). split; [|reflexivity].
      split; [intros _; right; reflexivity|reflexivity].
    + assert (D : decode x = V_nan) by (apply decode_nan_iff; split; assumption).
      rewrite (fadd_nan x x D).
      assert (N : is_nan (quiet x) = true).
      { apply is_nan_decode. apply quiet_is_nan; assumption. }
      rewrite (nan_not_inf _ N).
      assert (x <> infinity false).
      { intros ->. vm_compute in D. discriminate D. }
      split; [|contradiction]. split; [discriminate|].
      intros [(H' & _)|H']; [|contradiction]. rewrite H' in E. discriminate E.
  - destruct (logl_within x P) as (y & Y & F & _).
    exists y. split; [exact Y|]. rewrite (finite_not_inf y F).
    assert (x <> infinity false).
    { intros ->. destruct P as (_ & _ & H & _). apply H. reflexivity. }
    split; [|contradiction]. split; [discriminate|].
    intros [H'|H']; [|contradiction]. destruct P as (_ & _ & _ & H0).
    contradiction.
Qed.

(** A sum of sign [s] and magnitude between representable bounds keeps its
    sign when rounded. *)
Lemma fadd_signed x y (s : bool) v N1 N2 E :
  is_finite x = true -> is_finite y = true ->
  (Qval x + Qval y == signed s v)%Q ->
  (inject_Z N1 * 2 ^ E <= v)%Q -> (v <= inject_Z N2 * 2 ^ E)%Q ->
  0 < N1 < 2 ^ 113 -> 0 < N2 < 2 ^ 113 -> emin <= E <= 16271 ->
  is_finite (fadd x y) = true /\
  exists w, (Qval (fadd x y) == signed s w)%Q /\ (0 < w)%Q /\
            (inject_Z N1 * 2 ^ E <= w)%Q /\ (w <= inject_Z N2 * 2 ^ E)%Q.
Proof.
  intros Fx Fy Hs L U HN1 HN2 HE.
  destruct (finite_decode x Fx) as (s1 & m1 & e1 & D1).
  destruct (finite_decode y Fy) as (s2 & m2 & e2 & D2).
  rewrite (decode_Qval _ _ _ _ D1), (decode_Qval _ _ _ _ D2) in Hs.
  assert (Pv : (0 < v)%Q).
  { apply Qlt_le_trans with (2 := L).
    apply Qmult_lt_0_compat; [|apply pow2_pos].
    rewrite <- (Zlt_Qlt 0). lia. }
  destruct (signed_facts _ _ _ Hs Pv) as (NZ & _ & _).
  unfold fadd. rewrite D1, D2.
  replace (Qeq_bool (dyadic s1 m1 e1 + dyadic s2 m2 e2) 0) with false.
  2:{ symmetry. destruct (Qeq_bool _ 0) eqn:C; [|reflexivity].
      apply Qeq_bool_iff in C. contradiction. }
  destruct (RN_signed_between _ s v N1 E N2 E Hs L U)
    as (m & e & D & Hm & He & Lm & Um); try lia.
  unfold is_finite. rewrite (decode_Qval _ _ _ _ D), D.
  split; [reflexivity|]. exists (inject_Z m * 2 ^ e)%Q.
  split; [apply dyadic_signed|]. split; [|split; assumption].
  apply Qmult_lt_0_compat; [|apply pow2_pos]. rewrite <- (Zlt_Qlt 0). lia.
Qed.

Lemma band_values x :
  pos_finite x -> fle x band_hi && fge x band_lo = true ->
  (127 # 128 <= Qval x)%Q /\ (Qval x <= 129 # 128)%Q.
Proof.
  intros Hx Band. apply andb_true_iff in Band. destruct Band as (Hhi & Hlo).
  destruct (decode_pos_finite x Hx) as (m & e & D & _).
  apply (fle_finite x band_hi _ _ _ false _ _ D eq_refl) in Hhi.
  unfold fge in Hlo.
  apply (fle_finite band_lo x false _ _ _ _ _ eq_refl D) in Hlo.
  rewrite Qval_band_hi in Hhi. rewrite Qval_band_lo in Hlo. split; assumption.
Qed.

(** The two ways range reduction can go. *)
Lemma reduce_cases x :
  fle x band_hi && fge x band_lo = true \/
  exists u e k t u' e',
    __frexpl x = (u, e) /\ table_index u e = (k, t, u', e') /\
    reduce x = inr (mk_reduction (fdiv (fsub u' t) t) e' k t).
Proof.
  unfold reduce. destruct (__frexpl x) as [u e] eqn:F.
  destruct (table_index u e) as [[[k t] u'] e'] eqn:T.
  destruct (fle x band_hi && fge x band_lo); [left; reflexivity|].
  right. exists u, e, k, t, u', e'.
  split; [reflexivity|]. split; [exact T|reflexivity].
Qed.

(** An argument above the table's domain has a positive exponent after the
    reduction, one below it a negative exponent. *)
Lemma exponent_outside_domain x u e k t u' e' :
  pos_finite x -> __frexpl x = (u, e) -> table_index u e = (k, t, u', e') ->
  ((45 # 32 <= Qval x)%Q -> 1 <= e') /\ ((Qval x < 45 # 64)%Q -> e' <= -1).
Proof.
  intros Hx F T.
  destruct (reduction_geometry x u e k t u' e' Hx F T)
    as (U & E & mu & eu & mt & et & HE & Hk & Du & Dt & Vu & Vt & Hd & HU).
  destruct (general_reduction x u e k t u' e' Hx F T) as (_ & _ & Vx & _).
  assert (L : (45 # 64 <= Qval u')%Q)
    by (rewrite Vu; apply (scale_le U 45 E 6); lia).
  assert (H : (Qval u' < 45 # 32)%Q)
    by (rewrite Vu; apply (scale_lt U 45 E 5); lia).
  pose proof (pow2_pos e') as P. split; intros Hv.
  - destruct (Z.lt_ge_cases e' 1) as [C|C]; [exfalso|exact C].
    assert (A : (2 ^ e' <= 2 ^ 0)%Q) by (apply pow2_le; lia).
    change (2 ^ 0)%Q with 1%Q in A. rewrite Vx in Hv. nra.
  - destruct (Z.lt_ge_cases (-1) e') as [C|C]; [exfalso|exact C].
    assert (A : (2 ^ 0 <= 2 ^ e')%Q) by (apply pow2_le; lia).
    change (2 ^ 0)%Q with 1%Q in A. rewrite Vx in Hv. nra.
Qed.

(** X10: the sign of the result is right outside the table's domain: the
    logarithm returned is positive for [x >= 1.40625] and negative for
    [x < 0.703125]. *)
Theorem logl_sign_outside_table_domain x :
  pos_finite x ->
  exists y, __ieee754_logl x = Some y /\
            ((45 # 32 <= Qval x)%Q -> (0 < Qval y)%Q) /\
            ((Qval x < 45 # 64)%Q -> (Qval y < 0)%Q).
Proof.
  intros Hx.
  destruct (reduce_cases x) as [Band|(u & e & k & t & u' & e' & F & T & R)].
  - destruct (logl_total x (proj1 Hx)) as (y & Y). exists y.
    split; [exact Y|]. destruct (band_values x Hx Band) as (Lo & Hi).
    split; intros H; exfalso; lra.
  - destruct (logl_decomposition x _ Hx R) as (y5 & Y & (F5 & B5) & He & Fc & Vc).
    cbn [red_e] in Y, He, Fc, Vc.
    destruct (exponent_outside_domain x u e k t u' e' Hx F T) as (Up & Dn).
    destruct (scaled_sum_bounds _ _ 78864 e' B5 Vc) as (L & U).
    eexists. split; [exact Y|]. split; intros Hv.
    + specialize (Up Hv).
      destruct (fadd_signed y5 (fmul (of_int e') ln2a) false
                  (Qval y5 + Qval (fmul (of_int e') ln2a)) 11988 1498591752
                  (-17) F5 Fc) as (_ & w & W & Pw & _);
        try (norm_pow; unfold emin; lia); [reflexivity| | |].
      * apply Qle_trans with (2 := L).
        apply Qmult_le_compat_r; [|apply Qlt_le_weak, pow2_pos].
        rewrite <- Zle_Qle. lia.
      * apply Qle_trans with (1 := U).
        apply Qmult_le_compat_r; [|apply Qlt_le_weak, pow2_pos].
        rewrite <- Zle_Qle. lia.
      * rewrite W. exact Pw.
    + specialize (Dn Hv).
      destruct (fadd_signed y5 (fmul (of_int e') ln2a) true
                  (- (Qval y5 + Qval (fmul (of_int e') ln2a))) 11988 1498591752
                  (-17) F5 Fc) as (_ & w & W & Pw & _);
        try (norm_pow; unfold emin; lia).
      * unfold signed. ring.
      * apply Qle_trans with (- (inject_Z (e' * 90852 + 78864) * 2 ^ (-17)))%Q;
          [|lra].
        setoid_replace (- (inject_Z (e' * 90852 + 78864) * 2 ^ (-17)))%Q
          with (inject_Z (- (e' * 90852 + 78864)) * 2 ^ (-17))%Q
          by (rewrite inject_Z_opp; ring).
        apply Qmult_le_compat_r; [|apply Qlt_le_weak, pow2_pos].
        rewrite <- Zle_Qle. lia.
      * apply Qle_trans with (- (inject_Z (e' * 90852 - 78864) * 2 ^ (-17)))%Q;
          [lra|].
        setoid_replace (- (inject_Z (e' * 90852 - 78864) * 2 ^ (-17)))%Q
          with (inject_Z (- (e' * 90852 - 78864)) * 2 ^ (-17))%Q
          by (rewrite inject_Z_opp; ring).
        apply Qmult_le_compat_r; [|apply Qlt_le_weak, pow2_pos].
        rewrite <- Zle_Qle. lia.
      * rewrite W. unfold signed. lra.
Qed.

(** ** The two tiers, the exponent and the early return *)

(** X7: the fine tier ([m < 0x16800]) reads [logtbl[38..90]], the coarse
    tier [logtbl[0..38]]; so the last entry, [logtbl[91]], is never read. *)
Theorem table_tiers u e k t u' e' :
  table_index u e = (k, t, u', e') ->
  (if significand_word u <? 0x16800 then 38 <= k - 26 <= 90
   else 0 <= k - 26 <= 38) /\
  k - 26 <> 91.
Proof.
  unfold table_index, significand_word. rewrite land_low16.
  assert (Hm : 0 <= w0 u mod 2 ^ 16 < 2 ^ 16) by (apply Z.mod_pos_bound; lia).
  rewrite lor_bit16 by exact Hm.
  set (m := w0 u mod 2 ^ 16 + 2 ^ 16) in *.
  assert (Hm' : 2 ^ 16 <= m < 2 ^ 17) by (subst m; lia).
  clearbody m. unfold u32. rewrite !Z.shiftr_div_pow2 by lia.
  destruct (Z.ltb_spec m 0x16800) as [Hlt|Hge]; intros E;
    apply (f_equal (fun p => fst (fst (fst p)))) in E; cbn [fst] in E;
    subst k; divlia.
Qed.

Lemma frexpl_normal x :
  biased_exp x <> 0 -> biased_exp x <> 32767 ->
  __frexpl x = (pack (sign_bit x) 16382 (mantissa x), biased_exp x - 16382).
Proof.
  intros H0 H1. unfold __frexpl.
  destruct (Z.eqb_spec (biased_exp x) 32767); [contradiction|].
  destruct (Z.eqb_spec (biased_exp x) 0); [contradiction|]. reflexivity.
Qed.

Lemma table_index_shift u e d :
  table_index u (e + d) =
  let '(k, t, u', e') := table_index u e in (k, t, u', e' + d).
Proof.
  unfold table_index. destruct (_ <? _); f_equal; lia.
Qed.

(** X11: outside the interval around 1 the reduction of a normal number
    depends on its exponent field only through [e]: two arguments with the
    same mantissa get the same [z], the same index and the same [t], and
    their exponents [e] differ as their exponent fields do. *)
Theorem reduction_ignores_exponent x1 x2 r1 r2 :
  pos_finite x1 -> pos_finite x2 ->
  biased_exp x1 <> 0 -> biased_exp x2 <> 0 -> mantissa x1 = mantissa x2 ->
  fle x1 band_hi && fge x1 band_lo = false ->
  fle x2 band_hi && fge x2 band_lo = false ->
  reduce x1 = inr r1 -> reduce x2 = inr r2 ->
  red_z r2 = red_z r1 /\ red_k r2 = red_k r1 /\ red_t r2 = red_t r1 /\
  red_e r2 - red_e r1 = biased_exp x2 - biased_exp x1.
Proof.
  intros (_ & S1 & I1 & _) (_ & S2 & I2 & _) N1 N2 M B1 B2.
  unfold reduce.
  rewrite (frexpl_normal x1 N1 I1), (frexpl_normal x2 N2 I2), B1, B2.
  rewrite S1, S2, M.
  replace (biased_exp x2 - 16382)
    with (biased_exp x1 - 16382 + (biased_exp x2 - biased_exp x1)) by lia.
  rewrite table_index_shift.
  destruct (table_index _ (biased_exp x1 - 16382)) as [[[k t] u'] e'].
  intros R1 R2. injection R1 as <-. injection R2 as <-.
  cbn [red_z red_e red_k red_t]. repeat split; lia.
Qed.

Lemma feq_finite x y sx mx ex sy my ey :
  decode x = V_fin sx mx ex -> decode y = V_fin sy my ey ->
  feq x y = true -> (Qval x == Qval y)%Q.
Proof.
  intros Dx Dy. unfold feq, fcompare. rewrite Dx, Dy.
  rewrite (decode_Qval _ _ _ _ Dx), (decode_Qval _ _ _ _ Dy).
  destruct (_ ?= _)%Q eqn:C; try discriminate.
  intros _. apply Qeq_alt. exact C.
Qed.

(** Only the pattern of 1.0 compares equal to 1 among the positive finite
    ones. *)
Lemma feq_one x : pos_finite x -> feq x one = true -> x = one.
Proof.
  intros Hx H. destruct (decode_pos_finite x Hx) as (m & e & D & Hm & He & Hn).
  pose proof (feq_finite x one _ _ _ _ _ _ D decode_one H) as V.
  rewrite Qval_one, (decode_Qval _ _ _ _ D) in V.
  assert (B : (127 # 128 <= dyadic false m e <= 129 # 128)%Q)
    by (rewrite V; split; discriminate).
  assert (Em : e = -112 /\ m = 2 ^ 112).
  { rewrite dyadic_eq in V.
    destruct (band_exponent m e Hm Hn B) as [-> | ->].
    - exfalso. eval_pow2 (-113). unfold Qeq in V. cbn in V. lia.
    - split; [reflexivity|]. eval_pow2 (-112). unfold Qeq in V. cbn in V. lia. }
  destruct Em as (-> & ->).
  destruct Hx as (Hw & Hs & Hi & Hz).
  pose proof (mantissa_range x Hw) as Bm.
  unfold decode in D.
  destruct (Z.eqb_spec (biased_exp x) 32767); [contradiction|].
  destruct (Z.eqb_spec (biased_exp x) 0) as [E0|E0].
  - exfalso. apply (f_equal (fun v => match v with V_fin _ _ e => e | _ => 0 end))
      in D. unfold emin in D. lia.
  - assert (Hm' : 2 ^ 112 + mantissa x = 2 ^ 112).
    { apply (f_equal (fun v => match v with V_fin _ m _ => m | _ => 0 end)) in D.
      exact D. }
    assert (He' : biased_exp x - ebias = -112).
    { apply (f_equal (fun v => match v with V_fin _ _ e => e | _ => 0 end)) in D.
      exact D. }
    rewrite <- (pack_fields x Hw), Hs.
    replace (biased_exp x) with 16383 by (unfold ebias in He'; lia).
    replace (mantissa x) with 0 by lia. reflexivity.
Qed.

(** X12: the early [return 0] is taken for the pattern of 1.0 and for no
    other positive finite argument; every other one goes through the
    series. *)
Theorem early_return_only_at_one x :
  pos_finite x ->
  ((exists y, reduce x = inl y) <-> x = one) /\
  (x <> one -> exists r, reduce x = inr r).
Proof.
  intros Hx.
  assert (A : (exists y, reduce x = inl y) -> x = one).
  { intros (y & R). apply (feq_one x Hx).
    revert R. unfold reduce. destruct (__frexpl x) as [u e].
    destruct (table_index u e) as [[[k t] u'] e'].
    destruct (_ && _); [|discriminate].
    destruct (feq x one); [reflexivity|discriminate]. }
  split; [split; [exact A|]|].
  - intros ->. exists (zero false). exact band_one_returns_zero.
  - intros Hne. destruct (reduce x) as [y|r] eqn:R; [|eauto].
    exfalso. apply Hne, A. eauto.
Qed.

(** ** The terms added last *)

(** X13: the offset [t - 1] of line 279 is exact: its value is
    [(k - 64) / 128], the distance of the table argument from 1. *)
Theorem table_offset_is_exact x r :
  pos_finite x -> reduce x = inr r ->
  is_finite (fsub (red_t r) one) = true /\
  (Qval (fsub (red_t r) one) == inject_Z (red_k r - 64) / 128)%Q.
Proof.
  intros Hx R.
  destruct (reduce_state x r Hx R) as (_ & _ & Hk & Ft & Vt).
  assert (V : (Qval (red_t r) - Qval one
               == inject_Z (red_k r - 64) * 2 ^ (-7))%Q).
  { rewrite Vt, Qval_one. unfold Z.sub. rewrite inject_Z_plus, inject_Z_opp.
    change (inject_Z 64) with 64%Q. change (2 ^ (-7))%Q with (1 # 128)%Q.
    unfold Qdiv. change (/ 128)%Q with (1 # 128)%Q. ring. }
  destruct (fsub_exact _ one _ (-7) Ft eq_refl V) as (F & W);
    [norm_pow; lia|unfold emin; lia|].
  split; [exact F|]. rewrite W, V.
  unfold Qdiv. change (/ 128)%Q with (1 # 128)%Q. reflexivity.
Qed.

(** X14: the result is the multiple [e * ln2a] of the reduced exponent up to
    [78864 / 2^17], about 0.6017: [ln2a = 90852 / 2^17], and everything
    else the final sum adds stays below [ln2a]. *)
Theorem logl_near_exponent_multiple x r :
  pos_finite x -> reduce x = inr r ->
  exists y, __ieee754_logl x = Some y /\ is_finite y = true /\
            (Qabs (Qval y - inject_Z (red_e r) * (90852 # 131072))
             <= 78864 # 131072)%Q.
Proof.
  intros Hx R.
  destruct (logl_decomposition x r Hx R) as (y5 & Y & (F5 & B5) & He & Fc & Vc).
  destruct (scaled_sum_bounds _ _ 78864 (red_e r) B5 Vc) as (L & U).
  eexists. split; [exact Y|].
  set (e := red_e r) in *. set (c := fmul (of_int e) ln2a) in *.
  assert (G : forall p : Q,
            (inject_Z (e * 90852 - 78864) * 2 ^ (-17) <= p)%Q ->
            (p <= inject_Z (e * 90852 + 78864) * 2 ^ (-17))%Q ->
            (Qabs (p - inject_Z e * (90852 # 131072)) <= 78864 # 131072)%Q).
  { intros p. unfold Z.sub. rewrite !inject_Z_plus, inject_Z_opp, inject_Z_mult.
    change (2 ^ (-17))%Q with (1 # 131072)%Q.
    change (inject_Z 90852) with (90852 # 1)%Q.
    change (inject_Z 78864) with (78864 # 1)%Q.
    generalize (inject_Z e). intros q H1 H2.
    apply Qabs_Qle_condition. split; lra. }
  destruct (Z.lt_trichotomy e 0) as [Neg|[Zero|Pos]].
  - destruct (fadd_signed y5 c true (- (Qval y5 + Qval c))
                (- (e * 90852 + 78864)) (- (e * 90852 - 78864)) (-17) F5 Fc)
      as (F & w & W & _ & Lw & Uw); try (norm_pow; unfold emin; lia).
    + unfold signed. ring.
    + rewrite inject_Z_opp. lra.
    + rewrite inject_Z_opp. lra.
    + split; [exact F|]. rewrite W. unfold signed. apply G.
      * rewrite inject_Z_opp in Uw. lra.
      * rewrite inject_Z_opp in Lw. lra.
  - destruct (fadd_within_sum y5 c 78864 (-17) F5 Fc) as (F & B);
      [|norm_pow; lia|unfold emin; lia|].
    + rewrite Zero in L, U. apply Qabs_Qle_condition. split.
      * apply Qle_trans with (2 := L). vm_compute. discriminate.
      * exact U.
    + split; [exact F|]. rewrite Zero.
      setoid_replace (Qval (fadd y5 c) - inject_Z 0 * (90852 # 131072))%Q
        with (Qval (fadd y5 c)) by (change (inject_Z 0) with 0%Q; ring).
      exact B.
  - destruct (fadd_signed y5 c false (Qval y5 + Qval c)
                (e * 90852 - 78864) (e * 90852 + 78864) (-17) F5 Fc)
      as (F & w & W & _ & Lw & Uw); try (norm_pow; unfold emin; lia);
      [reflexivity|exact L|exact U|].
    split; [exact F|]. rewrite W. unfold signed. apply G; assumption.
Qed.

(** ** Powers of two *)

Lemma wf_encode s m e :
  0 <= m <= 2 ^ 113 -> emin <= e -> wf (encode s m e).
Proof.
  intros Hm He. unfold encode.
  destruct (Z.eqb_spec m 0); [apply wf_pack; lia|].
  assert (G : forall m' e', 0 <= m' < 2 ^ 113 -> emin <= e' ->
            wf (if 2 ^ 112 <=? m'
                then if 32767 <=? e' + ebias then infinity s
                     else pack s (e' + ebias) (m' - 2 ^ 112)
                else pack s 0 m')).
  { intros m' e' Hm' He'.
    destruct (Z.leb_spec (2 ^ 112) m').
    - destruct (Z.leb_spec 32767 (e' + ebias)).
      + apply wf_pack; lia.
      + apply wf_pack; unfold emin, ebias in *; lia.
    - apply wf_pack; lia. }
  destruct (Z.leb_spec (2 ^ 113) m).
  - replace m with (2 ^ 113) by lia. apply G; [|lia].
    change (2 ^ 113 / 2) with (2 ^ 112). lia.
  - apply G; lia.
Qed.

Lemma wf_RN q : ~ (q == 0)%Q -> wf (RN q).
Proof.
  intros Hq. rewrite RN_unfold.
  apply wf_encode; [exact (RN_mant_range q Hq)|exact (RN_exp_ge q)].
Qed.

Lemma V_fin_inj s m e s' m' e' :
  V_fin s m e = V_fin s' m' e' -> s = s' /\ m = m' /\ e = e'.
Proof. intros H. injection H as -> -> ->. repeat split. Qed.

(** Rounding the value of a finite non-zero number gives the number
    back. *)
Lemma RN_Qval x s m e :
  wf x -> decode x = V_fin s m e -> m <> 0 -> RN (Qval x) = x.
Proof.
  intros Hw D Hm. pose proof (biased_exp_range x) as Be.
  pose proof (mantissa_range x Hw) as Bm.
  assert (R : 0 < m < 2 ^ 113 /\ emin <= e /\
              (e = emin \/ 2 ^ 112 <= m) /\
              encode s m e = x).
  { revert D. unfold decode.
    destruct (Z.eqb_spec (biased_exp x) 32767) as [|N1];
      [destruct (_ =? _); discriminate|].
    destruct (Z.eqb_spec (biased_exp x) 0) as [E0|N0]; intros D;
      apply V_fin_inj in D; destruct D as (<- & D2 & D3);
      rewrite <- D2 in *; rewrite <- D3 in *; clear D2 D3.
    - split; [lia|]. split; [lia|]. split; [left; reflexivity|].
      unfold encode. destruct (Z.eqb_spec (mantissa x) 0); [contradiction|].
      destruct (Z.leb_spec (2 ^ 113) (mantissa x)); [lia|].
      destruct (Z.leb_spec (2 ^ 112) (mantissa x)); [lia|].
      rewrite <- E0. apply pack_fields. exact Hw.
    - split; [lia|]. split; [unfold emin, ebias; lia|]. split; [right; lia|].
      unfold encode. destruct (Z.eqb_spec (2 ^ 112 + mantissa x) 0); [lia|].
      destruct (Z.leb_spec (2 ^ 113) (2 ^ 112 + mantissa x)); [lia|].
      destruct (Z.leb_spec (2 ^ 112) (2 ^ 112 + mantissa x)); [|lia].
      destruct (Z.leb_spec 32767 (biased_exp x - ebias + ebias)); [lia|].
      replace (biased_exp x - ebias + ebias) with (biased_exp x) by lia.
      replace (2 ^ 112 + mantissa x - 2 ^ 112) with (mantissa x) by lia.
      apply pack_fields. exact Hw. }
  destruct R as (Rm & Re & Rn & <-).
  rewrite (decode_Qval _ _ _ _ D).
  pose proof (pow2_pos e) as P.
  assert (Pm : (0 < inject_Z m)%Q) by (rewrite <- (Zlt_Qlt 0); lia).
  assert (Pv : (0 < inject_Z m * 2 ^ e)%Q) by (apply Qmult_lt_0_compat; assumption).
  destruct (signed_facts _ s _ (dyadic_signed s m e) Pv) as (NZ & A & S).
  assert (L : Qlog2 (Qabs (dyadic s m e)) = Z.log2 m + e).
  { destruct (Zlog2_Q m ltac:(lia)) as (L1 & L2).
    apply Qlog2_unique; rewrite A.
    - rewrite pow2_add. apply Qmult_le_compat_r; [exact L1|lra].
    - replace (Z.log2 m + e + 1) with (Z.log2 m + 1 + e) by lia.
      rewrite pow2_add. apply Qmult_lt_compat_r; assumption. }
  assert (Lm : 0 <= Z.log2 m <= 112).
  { split; [apply Z.log2_nonneg|].
    assert (Z.log2 m < 113) by (apply Z.log2_lt_pow2; lia). lia. }
  assert (E : Z.max (Qlog2 (Qabs (dyadic s m e)) - 112) emin = e).
  { rewrite L. destruct Rn as [->|Hn]; [lia|].
    assert (112 <= Z.log2 m) by (apply Z.log2_le_pow2; lia). lia. }
  unfold RN. cbv zeta. rewrite S, E. f_equal.
  apply round_half_even_Z. rewrite A. field. lra.
Qed.

Lemma fadd_zero_l_id x sz s m e :
  wf x -> decode x = V_fin s m e -> m <> 0 -> fadd (zero sz) x = x.
Proof.
  intros Hw D Hm. unfold fadd. rewrite decode_zero, D.
  assert (V : (dyadic sz 0 emin + dyadic s m e == Qval x)%Q).
  { rewrite (decode_Qval _ _ _ _ D), dyadic_zero. ring. }
  assert (NZ : ~ (dyadic sz 0 emin + dyadic s m e == 0)%Q).
  { rewrite V, (decode_Qval _ _ _ _ D). apply dyadic_nonzero. exact Hm. }
  replace (Qeq_bool (dyadic sz 0 emin + dyadic s m e) 0) with false.
  2:{ symmetry. destruct (Qeq_bool _ 0) eqn:C; [|reflexivity].
      apply Qeq_bool_iff in C. contradiction. }
  rewrite (RN_comp _ _ NZ V). apply (RN_Qval x s m e); assumption.
Qed.

Lemma fadd_zero_r_id x sz s m e :
  wf x -> decode x = V_fin s m e -> m <> 0 -> fadd x (zero sz) = x.
Proof.
  intros Hw D Hm. unfold fadd. rewrite decode_zero, D.
  assert (V : (dyadic s m e + dyadic sz 0 emin == Qval x)%Q).
  { rewrite (decode_Qval _ _ _ _ D), dyadic_zero. ring. }
  assert (NZ : ~ (dyadic s m e + dyadic sz 0 emin == 0)%Q).
  { rewrite V, (decode_Qval _ _ _ _ D). apply dyadic_nonzero. exact Hm. }
  replace (Qeq_bool (dyadic s m e + dyadic sz 0 emin) 0) with false.
  2:{ symmetry. destruct (Qeq_bool _ 0) eqn:C; [|reflexivity].
      apply Qeq_bool_iff in C. contradiction. }
  rewrite (RN_comp _ _ NZ V). apply (RN_Qval x s m e); assumption.
Qed.

Lemma fmul_wf x y s1 v1 s2 v2 :
  has_value x s1 v1 -> has_value y s2 v2 -> wf (fmul x y).
Proof.
  intros (m1 & e1 & D1 & Hm1 & _) (m2 & e2 & D2 & Hm2 & _).
  unfold fmul. rewrite D1, D2.
  destruct (Z.eqb_spec m1 0); [lia|]. destruct (Z.eqb_spec m2 0); [lia|].
  cbn [orb]. apply wf_RN. intros E. apply Qmult_integral in E.
  destruct E as [E|E]; revert E; apply dyadic_nonzero; lia.
Qed.

(** X15: on a power of two other than 1 only the two exponent terms
    contribute: the result is [n * ln2b + n * ln2a], each product and the
    sum rounded once; the series, [z], the table entry and [t - 1] are
    all zero and leave the sum unchanged. *)
Theorem logl_power_of_two n :
  -16494 <= n <= 16383 -> n <> 0 ->
  __ieee754_logl (pow2_float n)
  = Some (fadd (fmul (of_int n) ln2b) (fmul (of_int n) ln2a)).
Proof.
  intros Hn Hn0. destruct (pow2_float_spec n Hn) as (P & _ & _).
  rewrite (logl_general _ P), (reduce_pow2 n Hn Hn0).
  rewrite series_sum_final_accumulator. cbn [red_z red_e red_k red_t].
  unfold final_accumulator.
  change (tbl_read (64 - 26)) with (Some (zero false)).
  cbv zeta. rewrite series_at_zero.
  change (fsub one one) with (zero false).
  pose proof (of_int_value n Hn0 ltac:(lia)) as Vn.
  destruct (abs_bounds n Hn Hn0) as (A1 & A2).
  destruct ln2b_value as (vb & Vb & Lb & Ub).
  change (inject_Z 1) with 1%Q in Lb, Ub.
  change (2 ^ (-20))%Q with (1 # 1048576)%Q in Lb.
  change (2 ^ (-19))%Q with (1 # 524288)%Q in Ub.
  pose proof (fmul_wf _ _ _ _ _ _ Vn Vb) as W.
  destruct (fmul_value _ _ _ _ _ _ 1 (-20) 1 (-4) Vn Vb)
    as (va & (m & e & D & Hm & _) & _); try (unfold emin; lia).
  { change (inject_Z 1 * 2 ^ (-20))%Q with (1 # 1048576)%Q. nra. }
  { change (inject_Z 1 * 2 ^ (-4))%Q with (1 # 16)%Q. nra. }
  assert (Hm0 : m <> 0) by lia.
  rewrite (fadd_zero_l_id _ false _ m e W D Hm0).
  rewrite !(fadd_zero_r_id _ false _ m e W D Hm0).
  reflexivity.
Qed.

(** ** The further properties at concrete inputs *)

(** X1 at 2. *)
Lemma logl_finite_on_positive_arguments_witness :
  exists y, __ieee754_logl (pow2_float 1) = Some y /\ is_finite y = true /\
            (Qabs (Qval y) <= 11434)%Q.
Proof.
  apply (logl_finite_on_positive_arguments (pow2_float 1)).
  apply pos_finiteb_correct. vm_compute. reflexivity.
Defined.

(** X2 at minus infinity. *)
Lemma logl_nan_iff_witness :
  exists y, __ieee754_logl (infinity true) = Some y /\
            (is_nan y = true <->
             is_nan (infinity true) = true \/
             (sign_bit (infinity true) = true /\ ~ is_zero (infinity true))).
Proof.
  apply (logl_nan_iff (infinity true)).
  apply wfb_wf. vm_compute. reflexivity.
Defined.

(** X3 at plus infinity. *)
Lemma logl_infinite_iff_witness :
  exists y, __ieee754_logl (infinity false) = Some y /\
            (is_inf y = true <->
             is_zero (infinity false) \/ infinity false = infinity false) /\
            (infinity false = infinity false -> y = infinity false).
Proof.
  apply (logl_infinite_iff (infinity false)).
  apply wfb_wf. vm_compute. reflexivity.
Defined.

(** X4 at 2, whose realigned significand is 1. *)
Lemma realigned_significand_domain_witness :
  (45 # 64 <= Qval one)%Q /\ (Qval one < 45 # 32)%Q /\
  (Qval (pow2_float 1) == 2 ^ 1 * Qval one)%Q.
Proof.
  apply (realigned_significand_domain (pow2_float 1) (pack false 16382 0) 2
           64 one one 1).
  - apply pos_finiteb_correct. vm_compute. reflexivity.
  - vm_compute. reflexivity.
  - vm_compute. reflexivity.
Defined.

(** X5 at 257, whose significand 1.00390625 is half-way between the grid
    points 1 and 1.0078125 and takes the upper one: [u - t = -1/256]. *)
Lemma table_argument_is_nearest_witness :
  let u' := mk_parts32 0x3fff0100 0 0 0 in
  let t := mk_parts32 0x3fff0200 0 0 0 in
  (- (1 # 256) <= Qval u' - Qval t)%Q /\ (Qval u' - Qval t < 1 # 256)%Q /\
  forall j : Z,
    (Qabs (Qval u' - Qval t)
     <= Qabs (Qval u' - ((1 # 2) + inject_Z j / 128)))%Q.
Proof.
  intros u' t.
  apply (table_argument_is_nearest (of_int 257) (mk_parts32 0x3ffe0100 0 0 0) 9
           65 t u' 8).
  - apply pos_finiteb_correct. vm_compute. reflexivity.
  - vm_compute. reflexivity.
  - vm_compute. reflexivity.
Defined.

(** X6 at 1601, where [u = 0.78173828125] and [t = 0.78125]: the difference
    is [2^-11] exactly, and [z] is [1/1600] rounded. *)
Lemma reduction_difference_is_exact_witness :
  let u' := mk_parts32 0x3ffe9040 0 0 0 in
  let t := mk_parts32 0x3ffe9000 0 0 0 in
  is_finite (fsub u' t) = true /\
  (Qval (fsub u' t) == Qval u' - Qval t)%Q /\
  fdiv (fsub u' t) t = round_to_nearest (Qval (fsub u' t) / Qval t).
Proof.
  intros u' t.
  apply (reduction_difference_is_exact (of_int 1601) u' 11 36 t u' 11).
  - apply pos_finiteb_correct. vm_compute. reflexivity.
  - vm_compute. reflexivity.
  - vm_compute. reflexivity.
Defined.

(** X7 at the significand of a power of two. *)
Lemma table_tiers_witness :
  (if significand_word (pack false 16382 0) <? 0x16800
   then 38 <= 64 - 26 <= 90 else 0 <= 64 - 26 <= 38) /\
  64 - 26 <> 91.
Proof.
  apply (table_tiers (pack false 16382 0) 2 64 one one 1).
  vm_compute. reflexivity.
Defined.

(** X8 at the upper end of the interval, 1.0078125. *)
Lemma band_reduction_is_exact_witness :
  exists r, reduce band_hi = inr r /\ red_e r = 0 /\
            is_finite (red_z r) = true /\
            (Qval band_hi == 1 + Qval (red_z r))%Q /\
            (Qabs (Qval (red_z r)) <= 1 # 128)%Q.
Proof.
  apply (band_reduction_is_exact band_hi).
  - apply pos_finiteb_correct. vm_compute. reflexivity.
  - vm_compute. reflexivity.
  - vm_compute. reflexivity.
  - vm_compute. reflexivity.
Defined.

(** X9 at 1601, where [e = 11]: the product [11 * 90852] needs 20 bits. *)
Lemma exponent_term_is_exact_witness :
  is_finite (fmul (of_int 11) ln2a) = true /\
  (Qval (fmul (of_int 11) ln2a) == inject_Z 11 * (90852 # 131072))%Q.
Proof.
  apply (exponent_term_is_exact (of_int 1601)
           (mk_reduction
              (mk_parts32 0x3ff447ae 0x147ae147 0xae147ae1 0x47ae147b)
              11 36 (mk_parts32 0x3ffe9000 0 0 0))).
  - apply pos_finiteb_correct. vm_compute. reflexivity.
  - vm_compute. reflexivity.
Defined.

(** X10 at 2. *)
Lemma logl_sign_outside_table_domain_witness :
  exists y, __ieee754_logl (pow2_float 1) = Some y /\
            ((45 # 32 <= Qval (pow2_float 1))%Q -> (0 < Qval y)%Q) /\
            ((Qval (pow2_float 1) < 45 # 64)%Q -> (Qval y < 0)%Q).
Proof.
  apply (logl_sign_outside_table_domain (pow2_float 1)).
  apply pos_finiteb_correct. vm_compute. reflexivity.
Defined.

(** X11 at 2 and 4. *)
Lemma reduction_ignores_exponent_witness :
  let r1 := mk_reduction (zero false) 1 64 one in
  let r2 := mk_reduction (zero false) 2 64 one in
  red_z r2 = red_z r1 /\ red_k r2 = red_k r1 /\ red_t r2 = red_t r1 /\
  red_e r2 - red_e r1 = biased_exp (pow2_float 2) - biased_exp (pow2_float 1).
Proof.
  intros r1 r2.
  apply (reduction_ignores_exponent (pow2_float 1) (pow2_float 2) r1 r2).
  - apply pos_finiteb_correct. vm_compute. reflexivity.
  - apply pos_finiteb_correct. vm_compute. reflexivity.
  - vm_compute. discriminate.
  - vm_compute. discriminate.
  - vm_compute. reflexivity.
  - vm_compute. reflexivity.
  - vm_compute. reflexivity.
  - vm_compute. reflexivity.
  - vm_compute. reflexivity.
Defined.

(** X12 at 2. *)
Lemma early_return_only_at_one_witness :
  ((exists y, reduce (pow2_float 1) = inl y) <-> pow2_float 1 = one) /\
  (pow2_float 1 <> one -> exists r, reduce (pow2_float 1) = inr r).
Proof.
  apply (early_return_only_at_one (pow2_float 1)).
  apply pos_finiteb_correct. vm_compute. reflexivity.
Defined.

(** X13 at 257, where [t = 1.0078125] and [k = 65]: [t - 1 = 1/128]. *)
Lemma table_offset_is_exact_witness :
  let t := mk_parts32 0x3fff0200 0 0 0 in
  is_finite (fsub t one) = true /\
  (Qval (fsub t one) == inject_Z (65 - 64) / 128)%Q.
Proof.
  intros t.
  apply (table_offset_is_exact (of_int 257)
           (mk_reduction
              (mk_parts32 0xbff6fc07 0xf01fc07f 0x01fc07f0 0x1fc07f02)
              8 65 t)).
  - apply pos_finiteb_correct. vm_compute. reflexivity.
  - vm_compute. reflexivity.
Defined.

(** X14 at 2. *)
Lemma logl_near_exponent_multiple_witness :
  exists y, __ieee754_logl (pow2_float 1) = Some y /\ is_finite y = true /\
            (Qabs (Qval y - inject_Z 1 * (90852 # 131072))
             <= 78864 # 131072)%Q.
Proof.
  apply (logl_near_exponent_multiple (pow2_float 1)
           (mk_reduction (zero false) 1 64 one)).
  - apply pos_finiteb_correct. vm_compute. reflexivity.
  - vm_compute. reflexivity.
Defined.

(** X15 at 2. *)
Lemma logl_power_of_two_witness :
  __ieee754_logl (pow2_float 1)
  = Some (fadd (fmul (of_int 1) ln2b) (fmul (of_int 1) ln2a)).
Proof.
  apply (logl_power_of_two 1); lia.
Defined.

(** * Monotonicity

    Between inputs that are close the result need not increase strictly.
    It does between inputs at least five per cent apart: the result
    follows the tabulated logarithm of the cell of its argument to within
    the size of the reduced argument, and the tabulated logarithms of cells
    three grid steps apart differ by more than twice that. *)

(** ** The error of a rounding *)





(** ** The result against the table: a coarse accuracy *)






(** ** The table rises with its argument *)







(** ** Every positive finite argument in its cell *)




